(** * achgateway: retrying mail delivery, the SFTP transfer agent and the
      ODFI file processor

    A shallow embedding of

    - [internal/notify/email.go]   (modules [Notify] and [Mailer]),
    - [internal/upload/sftp.go]    (module [Upload]; [Logged] for connecting
                                    with a logger that may be nil),
    - [internal/incoming/odfi]     (module [Odfi], known through its tests),

    together with the properties the specification states about them
    and further properties of the code ([UploadExtra], [MailerProofs]).
    The definitions come first, module by module; the worlds the code is
    run against follow ([UploadExamples], [OdfiExamples],
    [NotifyExamples]), then the vocabulary of the further properties
    ([UploadTerms]); the properties and their proofs come last.  An
    agent is a record: a nil receiver is outside the embedding, and in
    [Upload] the logger of the agent and the contents of a file are
    taken to be usable.

    Go values are embedded as follows.  An [error] is a record holding the
    text returned by [Error()] and whether [os.IsNotExist] accepts it; a
    nilable error is an [option error].  An [int] is a [Z] kept in the
    64-bit range by [wrap64].  Strings are byte strings.  Everything
    outside the program (SMTP server, SSH/SFTP server, key parsers) is a
    deterministic environment whose answers may depend on the whole
    history of requests, so a server may fail once and succeed later. *)

From Stdlib Require Import ZArith Lia List String Ascii Bool.
From stdpp Require Import base option list gmap strings pretty.

Local Open Scope string_scope.
Local Open Scope Z_scope.

(** ** Go runtime and standard library *)

Module Go.

Record error : Type := mkError {
  Error : string;      (* err.Error() *)
  notExist : bool      (* os.IsNotExist(err) *)
}.

(** [errors.New] and [fmt.Errorf] without [%w]: a fresh error that keeps
    the text only. *)
Definition errors_New (text : string) : error := mkError text false.

Definition os_IsNotExist (err : option error) : bool :=
  match err with
  | Some e => notExist e
  | None => false
  end.

(** [strings.HasPrefix] *)
Fixpoint HasPrefix (s prefix : string) : bool :=
  match prefix with
  | EmptyString => true
  | String c prefix' =>
      match s with
      | EmptyString => false
      | String d s' => if Ascii.eqb c d then HasPrefix s' prefix' else false
      end
  end.

(** [strings.Contains] *)
Fixpoint Contains (s substr : string) : bool :=
  if HasPrefix s substr then true
  else match s with
       | EmptyString => false
       | String _ s' => Contains s' substr
       end.

(** Two's-complement wrap-around of the 64-bit [int]. *)
Definition wrap64 (z : Z) : Z := (z + 2 ^ 63) mod 2 ^ 64 - 2 ^ 63.

Definition MaxInt64 : Z := 2 ^ 63 - 1.
Definition MinInt64 : Z := - 2 ^ 63.

(** The verb [%d]. *)
Definition fmt_d (n : Z) : string := pretty n.

(** *** path/filepath on a Unix host *)

(** [strings.Split(path, "/")] *)
Fixpoint elements (path : string) : list string :=
  match path with
  | EmptyString => [EmptyString]
  | String c path' =>
      if Ascii.eqb c "/" then EmptyString :: elements path'
      else match elements path' with
           | e :: es => String c e :: es
           | [] => [String c EmptyString]
           end
  end.

Definition isRooted (path : string) : bool :=
  match path with
  | String c _ => Ascii.eqb c "/"
  | EmptyString => false
  end.

(** The lexical pass of [filepath.Clean]: [out] holds the elements kept
    so far, last one first. *)
Fixpoint cleanElements (rooted : bool) (es out : list string) : list string :=
  match es with
  | [] => rev out
  | e :: es' =>
      if String.eqb e "" || String.eqb e "." then cleanElements rooted es' out
      else if String.eqb e ".." then
        match out with
        | o :: out' =>
            if String.eqb o ".." then cleanElements rooted es' (e :: out)
            else cleanElements rooted es' out'
        | [] =>
            if rooted then cleanElements rooted es' []
            else cleanElements rooted es' [e]
        end
      else cleanElements rooted es' (e :: out)
  end.

Fixpoint joinSlash (es : list string) : string :=
  match es with
  | [] => ""
  | [e] => e
  | e :: es' => e +:+ "/" +:+ joinSlash es'
  end.

Definition filepath_Clean (path : string) : string :=
  if String.eqb path "" then "."
  else
    let rooted := isRooted path in
    let out := joinSlash (cleanElements rooted (elements path) []) in
    if rooted then "/" +:+ out
    else if String.eqb out "" then "." else out.

(** [filepath.Join] of two elements. *)
Definition filepath_Join (a b : string) : string :=
  if String.eqb a "" then
    if String.eqb b "" then "" else filepath_Clean b
  else if String.eqb b "" then filepath_Clean a
  else filepath_Clean (a +:+ "/" +:+ b).

Definition filepath_Base (path : string) : string :=
  if String.eqb path "" then "."
  else
    match List.filter (fun e => negb (String.eqb e "")) (rev (elements path)) with
    | e :: _ => e
    | [] => "/"
    end.

End Go.

(** ** internal/notify/email.go *)

Module Notify.
Import Go.

(** The fields of [service.Email] that [sendEmail] reads. *)
Record Email : Type := {
  From : string;
  To : list string;
  CompanyName : string;
  MaxRetries : Z
}.

(** A [gomail.Message] after the three [SetHeader] calls and [SetBody]. *)
Record Message : Type := {
  hdrFrom : string;
  hdrTo : list string;
  hdrSubject : string;
  contentType : string;
  body : string
}.

(** What the process does that the outside can observe, newest first. *)
Inductive Event : Type :=
| Attempt (m : Message)      (* dialer.DialAndSend(ctx, m) *)
| Sleep (ms : Z).            (* time.Sleep *)

(** The dialer and the SMTP server behind it: the error of the next
    delivery, given everything that happened before. *)
Definition Dialer : Type := list Event -> Message -> option error.

Definition newMessage (cfg : Email) (filename body : string) : Message :=
  {| hdrFrom := From cfg;
     hdrTo := To cfg;
     hdrSubject := filename +:+ " uploaded by " +:+ CompanyName cfg;
     contentType := "text/plain";
     body := body |}.

(** The [for tries := 1; tries <= maxRetries; tries++] loop.  [None] is
    returned only when [fuel] runs out. *)
Fixpoint retryLoop (fuel : nat) (dialer : Dialer) (m : Message)
    (maxRetries tries : Z) (outErr : option error) (tr : list Event)
    : option (option error) * list Event :=
  if tries <=? maxRetries then
    match fuel with
    | O => (None, tr)
    | S fuel' =>
        let outErr := dialer tr m in
        let tr := Attempt m :: tr in
        match outErr with
        | Some e =>
            if Contains (Error e) "i/o timeout" then
              let tr := Sleep 250 :: tr in
              retryLoop fuel' dialer m maxRetries (wrap64 (tries + 1)) outErr tr
            else (Some outErr, tr)
        | None => (Some None, tr)
        end
    end
  else (Some outErr, tr).

Definition effectiveRetries (cfg : Email) : Z :=
  if 0 <? MaxRetries cfg then MaxRetries cfg else 3.

Definition sendEmail (fuel : nat) (cfg : Email) (dialer : Dialer)
    (filename body : string) (tr : list Event)
    : option (option error) * list Event :=
  let m := newMessage cfg filename body in
  let maxRetries := effectiveRetries cfg in
  retryLoop fuel dialer m maxRetries 1 None tr.

(** *** Vocabulary of the retry property *)

Definition isTimeout (outErr : option error) : bool :=
  match outErr with
  | Some e => Contains (Error e) "i/o timeout"
  | None => false
  end.

(** The trace after [j] more attempts that each timed out. *)
Fixpoint timedOut (m : Message) (j : nat) (tr : list Event) : list Event :=
  match j with
  | O => tr
  | S j' => timedOut m j' (Sleep 250 :: Attempt m :: tr)
  end.

(** The answer to attempt [j+1] when the [j] attempts before it timed out. *)
Definition outcome (dialer : Dialer) (m : Message) (tr : list Event)
    (j : nat) : option error :=
  dialer (timedOut m j tr) m.

End Notify.

(** ** internal/upload/sftp.go *)

Module Upload.
Import Go.

(** *** Configuration and data *)

(** The fields and accessor results of [service.SFTP] that the agent reads. *)
Record service_SFTP : Type := {
  Hostname : string;
  Username : string;
  Password : string;
  ClientPrivateKey : string;
  HostPublicKey : string;
  SkipDirectoryCreation : bool;
  Timeout : Z;            (* cfg.SFTP.Timeout() *)
  MaxConnections : Z;     (* cfg.SFTP.MaxConnections() *)
  PacketSize : Z          (* cfg.SFTP.PacketSize() *)
}.

Record UploadPaths : Type := {
  Inbound : string;
  Outbound : string;
  Reconciliation : string;
  Return : string
}.

Record UploadAgent : Type := {
  ID : string;
  SFTP : option service_SFTP;        (* a nilable pointer *)
  Paths : UploadPaths;
  SplitAllowedIPs : list string      (* cfg.SplitAllowedIPs() *)
}.

(** A [File] whose [Contents] have been read to the end. *)
Record File : Type := {
  Filename : string;
  Contents : list Byte.byte
}.

Record FileInfo : Type := {
  Name : string;
  IsDir : bool
}.

Definition PublicKey : Type := string.
Definition Signer : Type := string.

Inductive AuthMethod : Type :=
| ssh_Password (secret : string)
| ssh_PublicKeys (signer : Signer).

Inductive HostKeyCallback : Type :=
| ssh_FixedHostKey (key : PublicKey)
| ssh_InsecureIgnoreHostKey.

Record ClientConfig : Type := {
  User : string;
  Auth : list AuthMethod;
  HostKey : HostKeyCallback;
  DialTimeout : Z
}.

(** Live handles.  The model follows one remote host, so a handle carries
    no data of its own. *)
Inductive sshClient : Type := SSHClient.
Inductive sftpClient : Type := SFTPClient.

(** *** The world outside the agent *)

(** What lives under a path of the remote host. *)
Inductive Node : Type :=
| RegularFile (contents : list Byte.byte) (mode : Z)
| Directory.

(** Requests sent to the remote host and local events, as they occur. *)
Inductive Op : Type :=
| OpDial (addr : string) (conf : ClientConfig)    (* ssh.Dial("tcp", addr, conf) *)
| OpSSHClose                                      (* conn.Close() on the ssh.Client *)
| OpNewSession
| OpRequestSubsystem (subsystem : string)
| OpStdinPipe
| OpStdoutPipe
| OpNewClientPipe (maxRequests packet : Z)        (* sftp.NewClientPipe *)
| OpGetwd
| OpClientClose                                   (* client.Close() on the sftp.Client *)
| OpStat (path : string)
| OpRemove (path : string)
| OpMkdir (path : string)
| OpReadDir (path : string)
| OpOpen (path : string)
| OpOpenFile (path : string)                      (* O_WRONLY|O_CREATE|O_TRUNC *)
| OpFStat (path : string)                         (* fd.Stat() *)
| OpFRead (path : string)                         (* io.Copy(&buf, fd) *)
| OpFWrite (path : string) (data : list Byte.byte)     (* io.Copy(fd, f.Contents) *)
| OpFSync (path : string)
| OpFChmod (path : string) (mode : Z)
| OpFClose (path : string)
| OpInputClose (filename : string)                (* f.Close() *)
| OpSleep (ms : Z)                                (* time.Sleep *)
| OpWarn (msg : string).                          (* logger.Warn().Logf *)

(** A failure injected into a request: the error reported, and for a copy
    the number of bytes moved before it. *)
Record Fault : Type := {
  failure : error;
  moved : Z
}.

(** The fixed part of the world: which requests fail (as a function of the
    history, newest request first), and the library functions whose code
    is not part of the repository. *)
Record Env : Type := {
  faults : list Op -> Op -> option Fault;
  sshx_ReadPubKey : string -> PublicKey + error;
  ssh_ParsePrivateKey : string -> Signer + error;
  base64_DecodeString : string -> string * option error;
  rejectOutboundIPRange : list string -> string -> option error
}.

(** The changing part: the remote file system, the history, and the
    package-level variables of [sftp.go]. *)
Record State : Type := {
  remote : gmap string Node;
  log : list Op;
  hostKeyCallbackOnce : bool;              (* the sync.Once has fired *)
  sftpAgentUp : gmap string Z;             (* gauge, by hostname *)
  sftpConnectionRetries : gmap string Z    (* counter, by hostname *)
}.

Definition setRemote (fs : gmap string Node) (s : State) : State :=
  {| remote := fs; log := log s;
     hostKeyCallbackOnce := hostKeyCallbackOnce s;
     sftpAgentUp := sftpAgentUp s;
     sftpConnectionRetries := sftpConnectionRetries s |}.

Definition pushLog (op : Op) (s : State) : State :=
  {| remote := remote s; log := op :: log s;
     hostKeyCallbackOnce := hostKeyCallbackOnce s;
     sftpAgentUp := sftpAgentUp s;
     sftpConnectionRetries := sftpConnectionRetries s |}.

Definition setOnce (s : State) : State :=
  {| remote := remote s; log := log s;
     hostKeyCallbackOnce := true;
     sftpAgentUp := sftpAgentUp s;
     sftpConnectionRetries := sftpConnectionRetries s |}.

Definition setUp (host : string) (v : Z) (s : State) : State :=
  {| remote := remote s; log := log s;
     hostKeyCallbackOnce := hostKeyCallbackOnce s;
     sftpAgentUp := <[host := v]> (sftpAgentUp s);
     sftpConnectionRetries := sftpConnectionRetries s |}.

Definition addRetry (host : string) (s : State) : State :=
  {| remote := remote s; log := log s;
     hostKeyCallbackOnce := hostKeyCallbackOnce s;
     sftpAgentUp := sftpAgentUp s;
     sftpConnectionRetries :=
       <[host := default 0 (sftpConnectionRetries s !! host) + 1]>
         (sftpConnectionRetries s) |}.

(** *** The monad of agent code: reader of [Env], state [State], and Go's
    run-time panic. *)

Inductive Result (A : Type) : Type :=
| Ok (a : A)
| Panic (msg : string).
Arguments Ok {A} a.
Arguments Panic {A} msg.

Definition M (A : Type) : Type := Env -> State -> Result A * State.

#[global] Instance M_ret : MRet M := fun A a _ s => (Ok a, s).

#[global] Instance M_bind : MBind M := fun A B k m env s =>
  match m env s with
  | (Ok a, s') => k a env s'
  | (Panic msg, s') => (Panic msg, s')
  end.

Definition ask : M Env := fun env s => (Ok env, s).
Definition get : M State := fun _ s => (Ok s, s).
Definition modify (f : State -> State) : M unit := fun _ s => (Ok tt, f s).
Definition panic {A : Type} (msg : string) : M A := fun _ s => (Panic msg, s).

(** Send a request: it is logged, and the world says whether it fails. *)
Definition issue (op : Op) : M (option Fault) := fun env s =>
  (Ok (faults env (log s) op), pushLog op s).

(** A request whose only answer is an error. *)
Definition perform (op : Op) : M (option error) :=
  flt ← issue op; mret (failure <$> flt).

(** A local event: logged, cannot fail. *)
Definition emit (op : Op) : M unit := modify (pushLog op).

(** *** github.com/pkg/sftp and golang.org/x/crypto/ssh against the world *)

Definition errNotExist : error := mkError "file does not exist" true.
Definition errFailure : error := mkError "sftp: Failure (SSH_FX_FAILURE)" false.
Definition sftp_ErrInternalInconsistency : error := errors_New "internal inconsistency".

Definition isDirectory (node : Node) : bool :=
  match node with
  | Directory => true
  | RegularFile _ _ => false
  end.

Definition infoOf (path : string) (node : Node) : FileInfo :=
  {| Name := filepath_Base path; IsDir := isDirectory node |}.

(** [path] lies directly inside [dir]. *)
Definition isChild (dir path : string) : bool :=
  negb (String.eqb path dir)
  && String.eqb (filepath_Join dir (filepath_Base path)) path.

Definition children (dir : string) (fs : gmap string Node) : list (string * Node) :=
  List.filter (fun pn => isChild dir (fst pn)) (map_to_list fs).

(** A directory entry as [ReadDir] reports it. *)
Definition entryInfo (pn : string * Node) : FileInfo := infoOf (fst pn) (snd pn).

(** The remote host keeps a node under every path that exists, as the
    client spells the path; the entries of a directory are the paths
    directly inside it.  An open remote file is known by its path. *)
Abbreviation sftpFile := string (only parsing).

Definition client_Getwd : M (option error) := perform OpGetwd.

Definition client_Close : M (option error) := perform OpClientClose.

Definition conn_Close : M (option error) := perform OpSSHClose.

Definition client_Stat (path : string) : M (option FileInfo * option error) :=
  flt ← issue (OpStat path);
  match flt with
  | Some f => mret (None, Some (failure f))
  | None =>
      s ← get;
      match remote s !! path with
      | Some node => mret (Some (infoOf path node), None)
      | None => mret (None, Some errNotExist)
      end
  end.

Definition client_Remove (path : string) : M (option error) :=
  flt ← issue (OpRemove path);
  match flt with
  | Some f => mret (Some (failure f))
  | None =>
      s ← get;
      match remote s !! path with
      | None => mret (Some errNotExist)
      | Some (RegularFile _ _) =>
          modify (setRemote (delete path (remote s)));; mret None
      | Some Directory =>
          match children path (remote s) with
          | [] => modify (setRemote (delete path (remote s)));; mret None
          | _ :: _ => mret (Some errFailure)
          end
      end
  end.

Definition client_Mkdir (path : string) : M (option error) :=
  flt ← issue (OpMkdir path);
  match flt with
  | Some f => mret (Some (failure f))
  | None =>
      s ← get;
      match remote s !! path with
      | Some _ => mret (Some errFailure)
      | None => modify (setRemote (<[path := Directory]> (remote s)));; mret None
      end
  end.

Definition client_ReadDir (path : string) : M (list FileInfo + error) :=
  flt ← issue (OpReadDir path);
  match flt with
  | Some f => mret (inr (failure f))
  | None =>
      s ← get;
      match remote s !! path with
      | None => mret (inr errNotExist)
      | Some (RegularFile _ _) => mret (inr errFailure)
      | Some Directory =>
          mret (inl (List.map entryInfo (children path (remote s))))
      end
  end.

(** Whatever exists can be opened for reading, a directory too:
    [readFiles] opens every entry before it asks the handle whether it is
    a directory. *)
Definition client_Open (path : string) : M (sftpFile + error) :=
  flt ← issue (OpOpen path);
  match flt with
  | Some f => mret (inr (failure f))
  | None =>
      s ← get;
      match remote s !! path with
      | None => mret (inr errNotExist)
      | Some _ => mret (inl path)
      end
  end.

Definition client_OpenFile (path : string) : M (sftpFile + error) :=
  flt ← issue (OpOpenFile path);
  match flt with
  | Some f => mret (inr (failure f))
  | None =>
      s ← get;
      match remote s !! path with
      | Some Directory => mret (inr errFailure)
      | Some (RegularFile _ mode) =>
          modify (setRemote (<[path := RegularFile [] mode]> (remote s)));;
          mret (inl path)
      | None =>
          modify (setRemote (<[path := RegularFile [] 420]> (remote s)));;
          mret (inl path)
      end
  end.

Definition file_Stat (fd : sftpFile) : M (FileInfo + error) :=
  flt ← issue (OpFStat fd);
  match flt with
  | Some f => mret (inr (failure f))
  | None =>
      s ← get;
      match remote s !! fd with
      | Some node => mret (inl (infoOf fd node))
      | None => mret (inr errNotExist)
      end
  end.

(** [io.Copy(&buf, fd)]: the buffer, the byte count and the error. *)
Definition file_WriteTo (fd : sftpFile) : M (list Byte.byte * Z * option error) :=
  flt ← issue (OpFRead fd);
  s ← get;
  let contents :=
    match remote s !! fd with
    | Some (RegularFile contents _) => Some contents
    | _ => None
    end in
  match flt, contents with
  | Some f, _ =>
      mret (take (Z.to_nat (moved f)) (default [] contents), moved f, Some (failure f))
  | None, Some contents => mret (contents, Z.of_nat (length contents), None)
  | None, None => mret ([], 0, Some errFailure)
  end.

(** [io.Copy(fd, f.Contents)]: the byte count and the error. *)
Definition file_ReadFrom (fd : sftpFile) (data : list Byte.byte) : M (Z * option error) :=
  flt ← issue (OpFWrite fd data);
  match flt with
  | Some f => mret (moved f, Some (failure f))
  | None =>
      s ← get;
      match remote s !! fd with
      | Some (RegularFile _ mode) =>
          modify (setRemote (<[fd := RegularFile data mode]> (remote s)));;
          mret (Z.of_nat (length data), None)
      | _ => mret (0, Some errFailure)
      end
  end.

Definition file_Sync (fd : sftpFile) : M (option error) := perform (OpFSync fd).

Definition file_Chmod (fd : sftpFile) (mode : Z) : M (option error) :=
  flt ← issue (OpFChmod fd mode);
  match flt with
  | Some f => mret (Some (failure f))
  | None =>
      s ← get;
      match remote s !! fd with
      | Some (RegularFile contents _) =>
          modify (setRemote (<[fd := RegularFile contents mode]> (remote s)));;
          mret None
      | Some Directory => mret None
      | None => mret (Some errNotExist)
      end
  end.

Definition file_Close (fd : sftpFile) : M (option error) := perform (OpFClose fd).

Definition ssh_Dial (addr : string) (conf : ClientConfig) : M (sshClient + error) :=
  err ← perform (OpDial addr conf);
  match err with
  | Some err => mret (inr err)
  | None => mret (inl SSHClient)
  end.

(** *** The agent *)

(** [conn], [client] and [cfg]; the logger writes to the history and the
    mutex is void in a sequential run. *)
Record SFTPTransferAgent : Type := {
  conn : option sshClient;
  client : option sftpClient;
  cfg : UploadAgent
}.

Definition hostKeyWarning : string :=
  "sftp: WARNING!!! Insecure default of skipping SFTP host key validation. Please set sftp_configs.host_public_key".

Definition hostKeyCallback : M unit := emit (OpWarn hostKeyWarning).

(** [hostKeyCallbackOnce.Do(f)] *)
Definition hostKeyCallbackOnce_Do (f : M unit) : M unit :=
  s ← get;
  if hostKeyCallbackOnce s then mret tt
  else modify setOnce;; f.

Definition readSigner (raw : string) : M (Signer + error) :=
  env ← ask;
  let '(decoded, err) := base64_DecodeString env raw in
  match err with
  | None =>
      if 0 <? Z.of_nat (String.length decoded)
      then mret (ssh_ParsePrivateKey env decoded)
      else mret (ssh_ParsePrivateKey env raw)
  | Some _ => mret (ssh_ParsePrivateKey env raw)
  end.

(** [go client.Close()] *)
Definition closeInBackground : M unit := conn_Close;; mret tt.

(** The loop [for i := 0; i < 3; i++] of [sftpConnect], [n] rounds from
    [i] on. *)
Fixpoint dialLoop (n : nat) (i : Z) (sftp : service_SFTP) (conf : ClientConfig)
    (client : option sshClient) (err : option error)
    : M (option sshClient * option error) :=
  match n with
  | O => mret (client, err)
  | S n' =>
      '(client, err) ←
        match client with
        | None =>
            (if 0 <? i then modify (addRetry (Hostname sftp)) else mret tt);;
            r ← ssh_Dial (Hostname sftp) conf;
            emit (OpSleep 250);;
            match r with
            | inl c => mret (Some c, None)
            | inr e => mret (None, Some e)
            end
        | Some _ => mret (client, err)
        end;
      dialLoop n' (i + 1) sftp conf client err
  end.

(** The host key part of [sftpConnect]. *)
Definition chooseHostKey (sftp : service_SFTP) : M (HostKeyCallback + error) :=
  env ← ask;
  if negb (String.eqb (HostPublicKey sftp) "") then
    match sshx_ReadPubKey env (HostPublicKey sftp) with
    | inl pubKey => mret (inl (ssh_FixedHostKey pubKey))
    | inr err =>
        mret (inr (errors_New ("problem parsing ssh public key: " +:+ Error err)))
    end
  else
    hostKeyCallbackOnce_Do hostKeyCallback;;
    mret (inl ssh_InsecureIgnoreHostKey).

(** The [switch] of [sftpConnect] that fills [conf.Auth]. *)
Definition chooseAuth (sftp : service_SFTP) : M (list AuthMethod + error) :=
  if negb (String.eqb (Password sftp) "") then
    mret (inl [ssh_Password (Password sftp)])
  else if negb (String.eqb (ClientPrivateKey sftp) "") then
    r ← readSigner (ClientPrivateKey sftp);
    match r with
    | inl signer => mret (inl [ssh_PublicKeys signer])
    | inr err =>
        mret (inr (errors_New
          ("sftpConnect: failed to read client private key: " +:+ Error err)))
    end
  else mret (inr (errors_New "sftpConnect: no auth method provided")).

(** The session part of [sftpConnect]: each failure closes the client in
    the background and is returned as it is. *)
Definition openSession (c : sshClient) : M (option sshClient * option error) :=
  e ← perform OpNewSession;
  match e with
  | Some err => closeInBackground;; mret (None, Some err)
  | None =>
  e ← perform (OpRequestSubsystem "sftp");
  match e with
  | Some err => closeInBackground;; mret (None, Some err)
  | None =>
  e ← perform OpStdinPipe;
  match e with
  | Some err => closeInBackground;; mret (None, Some err)
  | None =>
  e ← perform OpStdoutPipe;
  match e with
  | Some err => closeInBackground;; mret (None, Some err)
  | None => mret (Some c, None)
  end end end end.

(** The two pipes of the result belong to the returned client and are
    left out. *)
Definition sftpConnect (cfg : UploadAgent) : M (option sshClient * option error) :=
  match SFTP cfg with
  | None => mret (None, Some (errors_New "nil config or sftp config"))
  | Some sftp =>
      hk ← chooseHostKey sftp;
      match hk with
      | inr err => mret (None, Some err)
      | inl hostKey =>
          auth ← chooseAuth sftp;
          match auth with
          | inr err => mret (None, Some err)
          | inl auth =>
              let conf := {| User := Username sftp; Auth := auth;
                             HostKey := hostKey; DialTimeout := Timeout sftp |} in
              '(client, err) ← dialLoop 3 0 sftp conf None None;
              match client, err with
              | None, Some err =>
                  mret (None, Some (errors_New ("sftpConnect: " +:+ Error err)))
              | None, None => panic "nil pointer dereference"
              | Some c, _ => openSession c
              end
          end
      end
  end.

Definition connection (agent : SFTPTransferAgent)
    : M (SFTPTransferAgent * (option sftpClient * option error)) :=
  live ←
    match client agent with
    | Some _ =>
        err ← client_Getwd;
        match err with
        | None => mret true
        | Some _ => client_Close;; mret false
        end
    | None => mret false
    end;
  if live : bool then mret (agent, (client agent, None))
  else
    '(c, err) ← sftpConnect (cfg agent);
    match err with
    | Some err => mret (agent, (None, Some (errors_New ("upload: " +:+ Error err))))
    | None =>
        let agent := {| conn := c; client := client agent; cfg := cfg agent |} in
        match SFTP (cfg agent) with
        | None => panic "nil pointer dereference"
        | Some sftp =>
            e ← perform (OpNewClientPipe (MaxConnections sftp) (PacketSize sftp));
            match e with
            | Some err =>
                closeInBackground;;
                mret (agent, (None, Some (errors_New ("upload: sftp connect: " +:+ Error err))))
            | None =>
                let agent := {| conn := conn agent; client := Some SFTPClient;
                                cfg := cfg agent |} in
                mret (agent, (client agent, None))
            end
        end
    end.

Definition record (agent : SFTPTransferAgent) (err : option error) : M unit :=
  match SFTP (cfg agent) with
  | None => panic "nil pointer dereference"
  | Some sftp =>
      match err with
      | Some _ => modify (setUp (Hostname sftp) 0)
      | None => modify (setUp (Hostname sftp) 1)
      end
  end.

Definition newSFTPTransferAgent (cfg : option UploadAgent)
    : M (option SFTPTransferAgent * option error) :=
  match cfg with
  | None => mret (None, Some (errors_New "nil SFTP config"))
  | Some cfg =>
      match SFTP cfg with
      | None => mret (None, Some (errors_New "nil SFTP config"))
      | Some sftp =>
          let agent := {| conn := None; client := None; cfg := cfg |} in
          env ← ask;
          match rejectOutboundIPRange env (SplitAllowedIPs cfg) (Hostname sftp) with
          | Some err =>
              mret (None, Some (errors_New
                ("sftp: " +:+ Hostname sftp +:+ " is not whitelisted: " +:+ Error err)))
          | None =>
              '(agent, (_, err)) ← connection agent;
              record agent err;;
              mret (Some agent, err)
          end
      end
  end.

Definition Ping (agent : SFTPTransferAgent) : M (SFTPTransferAgent * option error) :=
  '(agent, (_, err)) ← connection agent;
  record agent err;;
  match err with
  | Some err => mret (agent, Some err)
  | None =>
      r ← client_ReadDir ".";
      let err := match r with inl _ => None | inr e => Some e end in
      record agent err;;
      match err with
      | Some err => mret (agent, Some (errors_New ("sftp: ping " +:+ Error err)))
      | None => mret (agent, None)
      end
  end.

Definition Close (agent : SFTPTransferAgent) : M (option error) :=
  (match client agent with Some _ => client_Close;; mret tt | None => mret tt end);;
  (match conn agent with Some _ => conn_Close;; mret tt | None => mret tt end);;
  mret None.

Definition InboundPath (agent : SFTPTransferAgent) : string := Inbound (Paths (cfg agent)).
Definition OutboundPath (agent : SFTPTransferAgent) : string := Outbound (Paths (cfg agent)).
Definition ReconciliationPath (agent : SFTPTransferAgent) : string :=
  Reconciliation (Paths (cfg agent)).
Definition ReturnPath (agent : SFTPTransferAgent) : string := Return (Paths (cfg agent)).

Definition agentHostname (agent : SFTPTransferAgent) : string :=
  match SFTP (cfg agent) with
  | None => ""
  | Some sftp => Hostname sftp
  end.

Definition Delete (agent : SFTPTransferAgent) (path : string)
    : M (SFTPTransferAgent * option error) :=
  '(agent, (_, err)) ← connection agent;
  match err with
  | Some err => mret (agent, Some err)
  | None =>
      '(info, err) ← client_Stat path;
      let statFailed :=
        match err with
        | Some e =>
            if negb (os_IsNotExist err)
            then Some (errors_New ("sftp: delete stat: " +:+ Error e))
            else None
        | None => None
        end in
      match statFailed with
      | Some err => mret (agent, Some err)
      | None =>
          match info with
          | Some _ =>
              err ← client_Remove path;
              match err with
              | Some e => mret (agent, Some (errors_New ("sftp: delete: " +:+ Error e)))
              | None => mret (agent, None)
              end
          | None => mret (agent, None)   (* not found *)
          end
      end
  end.

(** The part of [UploadFile] that runs once the remote handle is open. *)
Definition writeRemote (fd : sftpFile) (f : File) : M (option error) :=
  '(n, err) ← file_ReadFrom fd (Contents f);
  match err with
  | Some e =>
      file_Close fd;;
      mret (Some (errors_New ("sftp: problem copying (n=" +:+ fmt_d n +:+ ") "
                              +:+ Filename f +:+ ": " +:+ Error e)))
  | None =>
      err ← file_Sync fd;
      let syncFailed :=
        match err with
        | Some e =>
            (* Skip sync if the remote server doesn't support it *)
            if negb (Contains (Error e) "SSH_FX_OP_UNSUPPORTED")
            then Some (errors_New ("sftp: problem with sync on " +:+ Filename f
                                   +:+ ": " +:+ Error e))
            else None
        | None => None
        end in
      match syncFailed with
      | Some err => mret (Some err)
      | None =>
          err ← file_Chmod fd 384;    (* 0600 *)
          match err with
          | Some e =>
              mret (Some (errors_New ("sftp: problem with chmod on " +:+ Filename f
                                      +:+ ": " +:+ Error e)))
          | None =>
              err ← file_Close fd;
              match err with
              | Some e =>
                  mret (Some (errors_New ("sftp: problem closing " +:+ Filename f
                                          +:+ ": " +:+ Error e)))
              | None => mret None
              end
          end
      end
  end.

(** Create OutboundPath if it doesn't exist and we're told to create it. *)
Definition ensureOutbound (agent : SFTPTransferAgent) : M (option error) :=
  match SFTP (cfg agent) with
  | Some sftp =>
      if negb (SkipDirectoryCreation sftp) then
        '(info, err) ← client_Stat (Outbound (Paths (cfg agent)));
        let missing :=
          match info with
          | None => true
          | Some _ => match err with Some _ => os_IsNotExist err | None => false end
          end in
        if missing then
          err ← client_Mkdir (Outbound (Paths (cfg agent)));
          match err with
          | Some e =>
              mret (Some (errors_New ("sftp: problem creating parent dir "
                                      +:+ Outbound (Paths (cfg agent)) +:+ ": " +:+ Error e)))
          | None => mret None
          end
        else mret None
      else mret None
  | None => mret None
  end.

(** The body of [UploadFile] between taking the lock and the deferred
    calls. *)
Definition uploadBody (agent : SFTPTransferAgent) (f : File)
    : M (SFTPTransferAgent * option error) :=
  '(agent, (_, err)) ← connection agent;
  match err with
  | Some err => mret (agent, Some err)
  | None =>
      err ← ensureOutbound agent;
      match err with
      | Some err => mret (agent, Some err)
      | None =>
          let pathToWrite :=
            filepath_Join (Outbound (Paths (cfg agent))) (filepath_Base (Filename f)) in
          r ← client_OpenFile pathToWrite;
          match r with
          | inr e =>
              mret (agent, Some (errors_New ("sftp: problem creating " +:+ pathToWrite
                                             +:+ ": " +:+ Error e)))
          | inl fd =>
              err ← writeRemote fd f;
              mret (agent, err)
          end
      end
  end.

(** [defer f.Close()] runs last, whatever the body returned. *)
Definition UploadFile (agent : SFTPTransferAgent) (f : File)
    : M (SFTPTransferAgent * option error) :=
  r ← uploadBody agent f;
  emit (OpInputClose (Filename f));;
  mret r.

(** The loop of [readFiles] over the directory entries still to visit;
    [files] are the files gathered so far.  An error drops them. *)
Fixpoint readEntries (dir : string) (infos : list FileInfo) (files : list File)
    : M (list File * option error) :=
  match infos with
  | [] => mret (files, None)
  | entry :: infos' =>
      r ← client_Open (filepath_Join dir (Name entry));
      match r with
      | inr e =>
          mret ([], Some (errors_New ("sftp: open " +:+ Name entry +:+ ": " +:+ Error e)))
      | inl fd =>
          (* skip this file descriptor if it's a directory *)
          r ← file_Stat fd;
          match r with
          | inr e =>
              file_Close fd;;
              mret ([], Some (errors_New ("sftp: stat " +:+ Name entry +:+ ": " +:+ Error e)))
          | inl info =>
              if IsDir info then
                file_Close fd;;
                readEntries dir infos' files
              else
                (* download the remote file *)
                '(buf, n, err) ← file_WriteTo fd;
                match err with
                | Some e =>
                    file_Close fd;;
                    if negb (Contains (Error e) (Error sftp_ErrInternalInconsistency))
                    then mret ([], Some (errors_New
                           ("sftp: read (n=" +:+ fmt_d n +:+ ") " +:+ Name entry
                            +:+ ": " +:+ Error e)))
                    else mret ([], Some (errors_New
                           ("sftp: read (n=" +:+ fmt_d n +:+ ") on " +:+ Name entry
                            +:+ ": " +:+ Error e)))
                | None =>
                    file_Close fd;;
                    readEntries dir infos'
                      (files ++ [ {| Filename := Name entry; Contents := buf |} ])
                end
          end
      end
  end.

Definition readFiles (agent : SFTPTransferAgent) (dir : string)
    : M (SFTPTransferAgent * (list File * option error)) :=
  '(agent, (_, err)) ← connection agent;
  match err with
  | Some err => mret (agent, ([], Some err))
  | None =>
      r ← client_ReadDir dir;
      match r with
      | inr e =>
          mret (agent, ([], Some (errors_New ("sftp: readdir " +:+ dir +:+ ": " +:+ Error e))))
      | inl infos =>
          r ← readEntries dir infos [];
          mret (agent, r)
      end
  end.

Definition GetInboundFiles (agent : SFTPTransferAgent) :=
  readFiles agent (Inbound (Paths (cfg agent))).

Definition GetReconciliationFiles (agent : SFTPTransferAgent) :=
  readFiles agent (Reconciliation (Paths (cfg agent))).

Definition GetReturnFiles (agent : SFTPTransferAgent) :=
  readFiles agent (Return (Paths (cfg agent))).

(** *** Vocabulary of the properties *)

(** The three listings of the agent contract. *)
Inductive Listing : Type := InboundFiles | ReconciliationFiles | ReturnFiles.

Definition listingPath (l : Listing) (agent : SFTPTransferAgent) : string :=
  match l with
  | InboundFiles => InboundPath agent
  | ReconciliationFiles => ReconciliationPath agent
  | ReturnFiles => ReturnPath agent
  end.

Definition GetFiles (l : Listing) (agent : SFTPTransferAgent)
    : M (SFTPTransferAgent * (list File * option error)) :=
  match l with
  | InboundFiles => GetInboundFiles agent
  | ReconciliationFiles => GetReconciliationFiles agent
  | ReturnFiles => GetReturnFiles agent
  end.

(** The regular files among directory entries, as the agent returns them. *)
Definition regularFiles (entries : list (string * Node)) : list File :=
  flat_map (fun pn =>
              match snd pn with
              | RegularFile contents _ =>
                  [ {| Filename := filepath_Base (fst pn); Contents := contents |} ]
              | Directory => []
              end) entries.

Definition filesIn (dir : string) (fs : gmap string Node) : list File :=
  regularFiles (children dir fs).

(** The server answers every request of a listing. *)
Definition listingAnswered (env : Env) : Prop :=
  forall h path,
    faults env h (OpReadDir path) = None /\
    faults env h (OpOpen path) = None /\
    faults env h (OpFStat path) = None /\
    faults env h (OpFRead path) = None.

(** Directory entries that are present on the remote host directly
    inside [dir]. *)
Definition listed (dir : string) (fs : gmap string Node)
    (entries : list (string * Node)) : Prop :=
  Forall (fun pn => fs !! fst pn = Some (snd pn) /\ isChild dir (fst pn) = true) entries.

(** The sync step counts as done: it succeeded, or the server answered
    that it does not support the operation. *)
Definition tolerated (flt : option Fault) : bool :=
  match flt with
  | None => true
  | Some f => Contains (Error (failure f)) "SSH_FX_OP_UNSUPPORTED"
  end.

(** The write, sync, chmod and close requests on a handle all occur in a
    history. *)
Definition allStepsRan (fd : string) (data : list Byte.byte) (h : list Op) : Prop :=
  In (OpFWrite fd data) h /\ In (OpFSync fd) h /\ In (OpFChmod fd 384) h /\
  In (OpFClose fd) h.

(** The history grows by requests that all satisfy [P]. *)
Definition logGrows (P : Op -> Prop) (s s' : State) : Prop :=
  exists ops, log s' = (ops ++ log s)%list /\ Forall P ops.

(** A request is no dial, or a dial that offers exactly [auth]. *)
Definition dialsWith (auth : list AuthMethod) (op : Op) : Prop :=
  match op with
  | OpDial _ conf => Auth conf = auth
  | _ => True
  end.

Definition noDial (op : Op) : Prop :=
  match op with
  | OpDial _ _ => False
  | _ => True
  end.

(** The warning about the skipped host key validation, counted over a
    history. *)
Definition isWarning (op : Op) : bool :=
  match op with
  | OpWarn msg => String.eqb msg hostKeyWarning
  | _ => false
  end.

Definition warnings (s : State) : nat := length (List.filter isWarning (log s)).

(** From [s] to [s'] the latch stays fired once it has fired, and the
    warning was logged exactly when the latch fired in between. *)
Definition latchStep (s s' : State) : Prop :=
  (hostKeyCallbackOnce s = true -> hostKeyCallbackOnce s' = true) /\
  warnings s' =
    (warnings s +
     (if hostKeyCallbackOnce s then 0
      else if hostKeyCallbackOnce s' then 1 else 0))%nat.

(** A process at its start: nothing requested, the latch not fired. *)
Definition initialState (fs : gmap string Node) : State :=
  {| remote := fs; log := []; hostKeyCallbackOnce := false;
     sftpAgentUp := ∅; sftpConnectionRetries := ∅ |}.

(** What a process may do with the package over its lifetime. *)
Inductive Call : Type :=
| CallConnect (cfg : UploadAgent)                        (* sftpConnect *)
| CallNew (cfg : option UploadAgent)                     (* newSFTPTransferAgent *)
| CallPing (agent : SFTPTransferAgent)
| CallClose (agent : SFTPTransferAgent)
| CallDelete (agent : SFTPTransferAgent) (path : string)
| CallUploadFile (agent : SFTPTransferAgent) (f : File)
| CallGetFiles (l : Listing) (agent : SFTPTransferAgent).

Definition runCall (call : Call) (env : Env) (s : State) : State :=
  match call with
  | CallConnect cfg => snd (sftpConnect cfg env s)
  | CallNew cfg => snd (newSFTPTransferAgent cfg env s)
  | CallPing agent => snd (Ping agent env s)
  | CallClose agent => snd (Close agent env s)
  | CallDelete agent path => snd (Delete agent path env s)
  | CallUploadFile agent f => snd (UploadFile agent f env s)
  | CallGetFiles l agent => snd (GetFiles l agent env s)
  end.

Definition lifetime (env : Env) (calls : list Call) (s : State) : State :=
  fold_left (fun s call => runCall call env s) calls s.

(** What [readSigner] answers for a key in a given world. *)
Definition parseSigner (env : Env) (raw : string) : Signer + error :=
  match base64_DecodeString env raw with
  | (decoded, None) =>
      if 0 <? Z.of_nat (String.length decoded)
      then ssh_ParsePrivateKey env decoded
      else ssh_ParsePrivateKey env raw
  | (_, Some _) => ssh_ParsePrivateKey env raw
  end.

(** [m] takes every state to one related to it by [R]; in every world,
    and in one given world. *)
Definition respects {A} (R : State -> State -> Prop) (m : M A) : Prop :=
  forall env s, R s (snd (m env s)).

Definition respectsAt {A} (env : Env) (R : State -> State -> Prop) (m : M A) : Prop :=
  forall s, R s (snd (m env s)).

Definition sameRemote (s s' : State) : Prop := remote s' = remote s.

(** The host key check can be chosen: no host key is configured, or the
    configured one can be read. *)
Definition hostKeyUsable (env : Env) (sftp : service_SFTP) : Prop :=
  HostPublicKey sftp = "" \/
  exists key, sshx_ReadPubKey env (HostPublicKey sftp) = inl key.

(** From [s] to [s'] the host [addr] has been dialled, at least once,
    with a configuration that offers exactly the credentials [auth]. *)
Definition attempts (addr : string) (auth : list AuthMethod) (s s' : State) : Prop :=
  exists ops conf,
    log s' = (ops ++ log s)%list /\ In (OpDial addr conf) ops /\ Auth conf = auth.

(** The server answers every request. *)
Definition answersAll (env : Env) : Prop := forall h op, faults env h op = None.

End Upload.

(** ** crypto/sha1 and encoding/hex *)

Module Sha1.

Definition w32 (z : Z) : Z := z mod 2 ^ 32.

Definition rotl (n x : Z) : Z :=
  w32 (Z.lor (Z.shiftl x n) (Z.shiftr x (32 - n))).

Definition bytesOf (text : string) : list Z :=
  List.map (fun c => Z.of_N (N_of_ascii c)) (list_ascii_of_string text).

(** The message, the byte 0x80, zeros up to 56 modulo 64, and the length
    in bits as eight bytes, most significant first. *)
Definition bigEndian64 (n : Z) : list Z :=
  List.map (fun i => Z.shiftr n (8 * i) mod 256) [7; 6; 5; 4; 3; 2; 1; 0].

Definition pad (msg : list Z) : list Z :=
  let len := Z.of_nat (length msg) in
  msg ++ [128] ++ repeat 0 (Z.to_nat ((55 - len) mod 64)) ++ bigEndian64 (8 * len).

Fixpoint words (bs : list Z) : list Z :=
  match bs with
  | a :: b :: c :: d :: rest =>
      (a * 2 ^ 24 + b * 2 ^ 16 + c * 2 ^ 8 + d) :: words rest
  | _ => []
  end.

(** The schedule, newest word first: [n] more words are added to [ws]. *)
Fixpoint schedule (n : nat) (ws : list Z) : list Z :=
  match n with
  | O => ws
  | S n' =>
      let w := rotl 1 (Z.lxor (Z.lxor (nth 2 ws 0) (nth 7 ws 0))
                              (Z.lxor (nth 13 ws 0) (nth 15 ws 0))) in
      schedule n' (w :: ws)
  end.

Definition round (t : Z) (st : Z * Z * Z * Z * Z) (w : Z) : Z * Z * Z * Z * Z :=
  let '(a, b, c, d, e) := st in
  let '(f, k) :=
    if t <? 20 then (Z.lor (Z.land b c) (Z.land (Z.lxor b 4294967295) d), 1518500249)
    else if t <? 40 then (Z.lxor (Z.lxor b c) d, 1859775393)
    else if t <? 60 then
      (Z.lor (Z.lor (Z.land b c) (Z.land b d)) (Z.land c d), 2400959708)
    else (Z.lxor (Z.lxor b c) d, 3395469782) in
  (w32 (rotl 5 a + f + e + k + w), a, rotl 30 b, c, d).

Fixpoint rounds (t : Z) (ws : list Z) (st : Z * Z * Z * Z * Z) : Z * Z * Z * Z * Z :=
  match ws with
  | [] => st
  | w :: ws' => rounds (t + 1) ws' (round t st w)
  end.

Definition block (h : Z * Z * Z * Z * Z) (ws : list Z) : Z * Z * Z * Z * Z :=
  let '(h0, h1, h2, h3, h4) := h in
  let '(a, b, c, d, e) := rounds 0 (rev (schedule 64 (rev ws))) h in
  (w32 (h0 + a), w32 (h1 + b), w32 (h2 + c), w32 (h3 + d), w32 (h4 + e)).

Fixpoint blocks (n : nat) (ws : list Z) (h : Z * Z * Z * Z * Z) : Z * Z * Z * Z * Z :=
  match n with
  | O => h
  | S n' => blocks n' (skipn 16 ws) (block h (firstn 16 ws))
  end.

Definition hexDigit (d : Z) : ascii :=
  ascii_of_N (Z.to_N (if d <? 10 then 48 + d else 87 + d)).

Definition hexWord (w : Z) (rest : string) : string :=
  String (hexDigit (Z.shiftr w 28 mod 16))
 (String (hexDigit (Z.shiftr w 24 mod 16))
 (String (hexDigit (Z.shiftr w 20 mod 16))
 (String (hexDigit (Z.shiftr w 16 mod 16))
 (String (hexDigit (Z.shiftr w 12 mod 16))
 (String (hexDigit (Z.shiftr w 8 mod 16))
 (String (hexDigit (Z.shiftr w 4 mod 16))
 (String (hexDigit (w mod 16)) rest))))))).

Definition sum (text : string) : Z * Z * Z * Z * Z :=
  let ws := words (pad (bytesOf text)) in
  blocks (length ws / 16) ws (1732584193, 4023233417, 2562383102, 271733878, 3285377520).

(** [hex.EncodeToString] of the SHA-1 sum. *)
Definition hex (text : string) : string :=
  let '(h0, h1, h2, h3, h4) := sum text in
  hexWord h0 (hexWord h1 (hexWord h2 (hexWord h3 (hexWord h4 "")))).

End Sha1.

(** ** internal/incoming/odfi *)

Module Odfi.
Import Go.

(** The hierarchy File, Batches, Entries that the ACH parser yields, with
    the identity each level carries. *)
Record EntryDetail : Type := {
  entryRecord : string;     (* entries[j].String(), the serialized record *)
  entryID : string          (* entries[j].ID *)
}.

Record Batch : Type := {
  batchID : string;                  (* Batches[i].ID() *)
  batchEntries : list EntryDetail    (* Batches[i].GetEntries() *)
}.

Record ACHFile : Type := {
  ID : string;
  Batches : list Batch
}.

(** What the parser reports next to the structure it could build.  Its
    error value may gather several of these. *)
Inductive ParseError : Type :=
| ErrFileHeader                    (* ach.ErrFileHeader: no file header was read *)
| ErrRecord (text : string).       (* any other error, such as a FieldError *)

Definition parseErrorText (e : ParseError) : string :=
  match e with
  | ErrFileHeader => "none or more than one file headers exists"
  | ErrRecord text => text
  end.

Definition isErrFileHeader (e : ParseError) : bool :=
  match e with
  | ErrFileHeader => true
  | ErrRecord _ => false
  end.

(** The missing file header is among the errors the parser reports. *)
Definition reportsMissingHeader (errs : list ParseError) : bool :=
  existsb isErrFileHeader errs.

Definition parseErrorsText (errs : list ParseError) : string :=
  String.concat "; " (List.map parseErrorText errs).

(** A staged directory as [os.ReadDir] and [os.ReadFile] show it. *)
Inductive DirEntry : Type :=
| StagedFile (name : string) (bytes : string)
| SubDirectory (name : string).

(** A processor handles one parsed file and may fail. *)
Definition Processor : Type := ACHFile -> option error.

(** What the pipeline leaves behind, oldest first: the audit records
    (hash, hostname) and the files handed to each processor. *)
Record Pipeline : Type := {
  audited : list (string * string);
  handled : list (nat * ACHFile)
}.

(** Modelled from the spec: the hash helper of processor.go is not among
    the sources.  Section 4.4 asks for a deterministic function of the
    serialized content.  TestProcessor expects the identity
    7ffdca32898fc89e5e680d0a01e9e1c2a1cd2717 for the file that holds the
    bytes invalid-ach-file, which is the SHA-1 sum of these bytes in
    hexadecimal, and TestProcessor_populateHashes expects an entry
    identity of the same forty digits. *)
Definition hash (data : string) : string := Sha1.hex data.

Section Processing.

(** The ACH parser is a collaborator whose code is outside the
    repository: the structure it could build and the errors it reports,
    none when the bytes parse cleanly. *)
Variable parse : string -> ACHFile * list ParseError.

(** Whether a file whose parse error [processFile] returns is handed to
    the audit sink and the processors all the same.  Section 7(d) has
    such an error propagated alongside the partial structure and leaves
    it to callers to proceed, and the tests do not show which way the
    code goes, so it is left open. *)
Variable handsOn : ACHFile -> list ParseError -> bool.

Definition populateEntry (e : EntryDetail) : EntryDetail :=
  {| entryRecord := entryRecord e; entryID := hash (entryRecord e) |}.

Definition populateBatch (b : Batch) : Batch :=
  {| batchID := batchID b; batchEntries := List.map populateEntry (batchEntries b) |}.

(** Modelled from the spec: [populateHashes] lives in processor.go, which
    is not among the sources.  Section 4.4 asks for identities that are a
    deterministic function of the record's serialized content, written
    onto the parsed structure.  TestProcessor_populateHashes fixes what
    the function leaves behind on a file read without a file header: the
    first batch still has the empty [ID()], and its first entry carries an
    identity.  So every entry receives the hash of its record and a batch
    keeps the identity the parser gave it. *)
Definition populateHashes (file : ACHFile) : ACHFile :=
  {| ID := ID file; Batches := List.map populateBatch (Batches file) |}.

(** Modelled from the spec: [HandleAll] lives in processor.go, which is
    not among the sources.  Section 4.5: the processors run in a fixed
    configured order, each handles the one parsed file, and there is no
    rollback across processors, their side effects being independent;
    so each processor is given the file, and the errors of those that
    failed are gathered. *)
Fixpoint HandleAll (i : nat) (processors : list Processor) (file : ACHFile)
    (st : Pipeline) : list error * Pipeline :=
  match processors with
  | [] => ([], st)
  | proc :: rest =>
      let st := {| audited := audited st; handled := handled st ++ [(i, file)] |} in
      let '(errs, st) := HandleAll (S i) rest file st in
      match proc file with
      | Some e => (e :: errs, st)
      | None => (errs, st)
      end
  end.

(** Modelled from the spec: how processor.go joins several errors is not
    among the sources.  Section 4.5 has failures recorded and returned
    as an aggregate: nil when there is none, otherwise one error that
    carries the texts of all. *)
Definition joinErrors (errs : list error) : option error :=
  match errs with
  | [] => None
  | _ :: _ => Some (errors_New (String.concat "; " (List.map Error errs)))
  end.

(** Modelled from the spec: [processFile] lives in processor.go, which is
    not among the sources.  Sections 4.4 and 4.5: the bytes are parsed,
    identities are written before the audit sink and the processors see
    the file, the audit record precedes the processors, and each
    processor may fail on its own.  The tests fix two points about parse
    errors.  A file read without a file header is not a failure of the
    read (the comment in TestProcessor, and section 4.5): the file of the
    bytes invalid-ach-file reaches the processor with its identity and
    [processDir] returns nil.  The file whose header lacks the mandatory
    FileCreationDate makes [processFile] return an error that carries
    the text of the parser.  So a parse error is passed over when the
    missing file header is among what the parser reports, and is
    returned otherwise; whether the file is handed on in the latter
    case is [handsOn]. *)
Definition processFile (hostname : string) (processors : list Processor)
    (path bytes : string) (st : Pipeline) : option error * Pipeline :=
  let '(file, errs) := parse bytes in
  let failure :=
    if reportsMissingHeader errs then None
    else
      match errs with
      | [] => None
      | _ :: _ =>
          Some (errors_New ("problem parsing " +:+ path +:+ ": " +:+ parseErrorsText errs))
      end in
  let stops :=
    match failure with
    | Some _ => negb (handsOn file errs)
    | None => false
    end in
  if stops then (failure, st)
  else
    let file := populateHashes {| ID := hash bytes; Batches := Batches file |} in
    let st := {| audited := audited st ++ [(ID file, hostname)];
                 handled := handled st |} in
    let '(errs, st) := HandleAll 0 processors file st in
    (joinErrors match failure with
                | Some e => e :: errs
                | None => errs
                end, st).

(** Modelled from the spec: [processDir] lives in processor.go, which is
    not among the sources.  Section 4.5: every immediate regular file is
    given to [processFile], subdirectories are skipped, a failing file
    does not stop its siblings, and the failures come back together. *)
Fixpoint processEntries (dir hostname : string) (processors : list Processor)
    (entries : list DirEntry) (st : Pipeline) : list error * Pipeline :=
  match entries with
  | [] => ([], st)
  | SubDirectory _ :: rest => processEntries dir hostname processors rest st
  | StagedFile name bytes :: rest =>
      let '(err, st) := processFile hostname processors (filepath_Join dir name) bytes st in
      let '(errs, st) := processEntries dir hostname processors rest st in
      match err with
      | Some e => (e :: errs, st)
      | None => (errs, st)
      end
  end.

Definition processDir (dir hostname : string) (processors : list Processor)
    (entries : list DirEntry) (st : Pipeline) : option error * Pipeline :=
  let '(errs, st) := processEntries dir hostname processors entries st in
  (joinErrors errs, st).

End Processing.

End Odfi.

(** ** A remote host to run the agent against *)

Module UploadExamples.
Import Go Upload.

Definition bytes (s : string) : list Byte.byte := list_byte_of_string s.

(** The remote directories of the tests: a return file next to a
    subdirectory that holds a file of its own. *)
Definition demoRemote : gmap string Node :=
  list_to_map
    [ ("inbound", Directory);
      ("outbound", Directory);
      ("returned", Directory);
      ("returned/return-WEB.ach", RegularFile (bytes "101 091400606") 420);
      ("returned/issue494", Directory);
      ("returned/issue494/nested.ach", RegularFile (bytes "nested") 420) ].

Definition demoState : State := initialState demoRemote.

(** The remote host once the handle of an upload has been opened. *)
Definition openedState : State :=
  initialState (<["outbound/20200529-131400.ach" := RegularFile [] 420]> demoRemote).

(** A server that answers every request, with [faulty] deciding the
    requests that fail. *)
Definition envWith (faulty : list Op -> Op -> option Fault) : Env :=
  {| faults := faulty;
     sshx_ReadPubKey := fun raw => inl raw;
     ssh_ParsePrivateKey := fun raw => inl raw;
     base64_DecodeString := fun raw => ("", Some (errors_New "illegal base64 data"));
     rejectOutboundIPRange := fun _ _ => None |}.

Definition demoEnv : Env := envWith (fun _ _ => None).

Definition demoSFTP : service_SFTP :=
  {| Hostname := "sftp.bank.com:22"; Username := "moov"; Password := "password";
     ClientPrivateKey := ""; HostPublicKey := "";
     SkipDirectoryCreation := false;
     Timeout := 10000; MaxConnections := 8; PacketSize := 20480 |}.

Definition demoPaths : UploadPaths :=
  {| Inbound := "inbound"; Outbound := "outbound";
     Reconciliation := "reconciliation"; Return := "returned" |}.

Definition demoCfg : UploadAgent :=
  {| ID := "sftp-demo"; SFTP := Some demoSFTP; Paths := demoPaths; SplitAllowedIPs := [] |}.

Definition demoAgent : SFTPTransferAgent :=
  {| conn := None; client := None; cfg := demoCfg |}.

Definition connectedAgent : SFTPTransferAgent :=
  {| conn := Some SSHClient; client := Some SFTPClient; cfg := demoCfg |}.

Definition returnFile : File :=
  {| Filename := "return-WEB.ach"; Contents := bytes "101 091400606" |}.

(** The state after a first and after a second listing of the return
    directory. *)
Definition demoListedOnce : State :=
  Eval vm_compute in snd (GetFiles ReturnFiles demoAgent demoEnv demoState).

Definition demoListedTwice : State :=
  Eval vm_compute in snd (GetFiles ReturnFiles connectedAgent demoEnv demoListedOnce).

(** The state once the demo agent has connected. *)
Definition demoConnected : State :=
  Eval vm_compute in snd (connection demoAgent demoEnv demoState).

(** A transport that reports the internal inconsistency at the end of
    every download although all 13 bytes were copied. *)
Definition inconsistentRead : list Op -> Op -> option Fault := fun _ op =>
  match op with
  | OpFRead _ => Some {| failure := sftp_ErrInternalInconsistency; moved := 13 |}
  | _ => None
  end.

(** A server on which sync fails for a reason of its own, and one that
    does not support sync. *)
Definition syncFails : list Op -> Op -> option Fault := fun _ op =>
  match op with
  | OpFSync _ => Some {| failure := errors_New "sftp: connection lost"; moved := 0 |}
  | _ => None
  end.

Definition syncUnsupported : list Op -> Op -> option Fault := fun _ op =>
  match op with
  | OpFSync _ =>
      Some {| failure := errors_New "sftp: operation unsupported (SSH_FX_OP_UNSUPPORTED)";
              moved := 0 |}
  | _ => None
  end.

Definition writeFails : list Op -> Op -> option Fault := fun _ op =>
  match op with
  | OpFWrite _ _ => Some {| failure := errors_New "sftp: no space left"; moved := 4 |}
  | _ => None
  end.

Definition outgoing : File :=
  {| Filename := "../../20200529-131400.ach"; Contents := bytes "101 121042882" |}.

(** A configuration that carries a password and a private key at once,
    and one that carries neither. *)
Definition bothCredentials : UploadAgent :=
  {| ID := "sftp-both";
     SFTP := Some {| Hostname := "sftp.bank.com:22"; Username := "moov";
                     Password := "password"; ClientPrivateKey := "PRIVATE KEY";
                     HostPublicKey := ""; SkipDirectoryCreation := false;
                     Timeout := 10000; MaxConnections := 8; PacketSize := 20480 |};
     Paths := demoPaths; SplitAllowedIPs := [] |}.

Definition noCredentials : UploadAgent :=
  {| ID := "sftp-none";
     SFTP := Some {| Hostname := "sftp.bank.com:22"; Username := "moov";
                     Password := ""; ClientPrivateKey := "";
                     HostPublicKey := ""; SkipDirectoryCreation := false;
                     Timeout := 10000; MaxConnections := 8; PacketSize := 20480 |};
     Paths := demoPaths; SplitAllowedIPs := [] |}.

End UploadExamples.

(** ** Staged files to run the processor on *)

Module OdfiExamples.
Import Go Odfi.

(** A file like the one of TestProcessor_populateHashes as the parser
    leaves it: no file header, one batch without an identity, one entry. *)
Definition forwardEntry : EntryDetail :=
  {| entryRecord := "62710211537412345678         0000100000               Best Co. #123456789012S 0121042880000001";
     entryID := "" |}.

Definition forward : ACHFile :=
  {| ID := ""; Batches := [ {| batchID := ""; batchEntries := [forwardEntry] |} ] |}.

(** The parser on the three files of the tests: bytes that hold no record
    at all give no header and no batch; the forward file gives its batch
    but no header; the real-world file has a header that lacks a
    mandatory field. *)
Definition invalidAch : string := "invalid-ach-file".
Definition forwardAch : string := "forward.ach bytes".
Definition realWorldAch : string := "HMBRAD_ACHEXPORT_1001_08_19_2022_09_10 bytes".

Definition testParser (bytes : string) : ACHFile * list ParseError :=
  if String.eqb bytes invalidAch then
    ({| ID := ""; Batches := [] |}, [ErrFileHeader])
  else if String.eqb bytes forwardAch then (forward, [ErrFileHeader])
  else if String.eqb bytes realWorldAch then
    ({| ID := ""; Batches := [] |},
     [ErrRecord
        "record:FileHeader *ach.FieldError FileCreationDate  is a mandatory field"])
  else ({| ID := ""; Batches := [] |}, []).

(** The two ways a returned parse error may be dealt with: the file is
    dropped, or handed on all the same. *)
Definition dropsPartial : ACHFile -> list ParseError -> bool := fun _ _ => false.
Definition keepsPartial : ACHFile -> list ParseError -> bool := fun _ _ => true.

(** The MockProcessor: it accepts every file. *)
Definition mockProcessor : Processor := fun _ => None.

Definition emptyPipeline : Pipeline := {| audited := []; handled := [] |}.

End OdfiExamples.

(** ** A mail server to run the mailer against *)

Module NotifyExamples.
Import Go Notify.

(** A server that times out twice and then accepts the message. *)
Definition flakyDialer : Dialer := fun tr _ =>
  if (length tr <? 4)%nat
  then Some (errors_New "dial tcp 10.0.0.1:587: i/o timeout")
  else None.

Definition demoEmail : Email :=
  {| From := "noreply@example.com"; To := ["ops@example.com"];
     CompanyName := "Moov"; MaxRetries := 0 |}.

End NotifyExamples.

(** ** internal/notify/email.go: the mailer *)

Module Mailer.
Import Go.

(** What the mailer reads of an [ach.File]: the two counts and totals of
    its control record, and the entries of its batches. *)
Record EntryDetail : Type := {
  TraceNumber : string
}.

Record Batcher : Type := {
  GetEntries : list EntryDetail
}.

Record FileControl : Type := {
  BatchCount : Z;
  TotalDebitEntryDollarAmountInFile : Z;
  TotalCreditEntryDollarAmountInFile : Z
}.

Record achFile : Type := {
  Control : FileControl;
  Batches : list Batcher
}.

(** The fields of a [Message] that the mailer reads. *)
Record Message : Type := {
  Direction : string;
  Filename : string;
  Hostname : string;
  Contents : string;
  File : option achFile       (* a nilable pointer *)
}.

Record EmailTemplateData : Type := {
  dataCompanyName : string;
  Verb : string;
  dataFilename : string;
  dataHostname : string;
  DebitTotal : string;
  CreditTotal : string;
  dataBatchCount : Z;
  EntryCount : Z
}.

Record Email : Type := {
  cfg : Notify.Email;
  dialer : Notify.Dialer
}.

(** The loop of [countEntries] over the batches still to count. *)
Fixpoint countBatches (batches : list Batcher) (total : Z) : Z :=
  match batches with
  | [] => total
  | batch :: batches' =>
      countBatches batches' (wrap64 (total + Z.of_nat (length (GetEntries batch))))
  end.

Definition countEntries (file : option achFile) : Z :=
  match file with
  | None => 0
  | Some file => countBatches (Batches file) 0
  end.

Section Templates.

(** [cfg.Tmpl().Execute(&buf, data)]: what the buffer holds afterwards,
    and the error.  [convertDollar] formats an amount. *)
Variable Tmpl : Notify.Email -> EmailTemplateData -> string * option error.
Variable convertDollar : Z -> string.

(** The data [marshalEmail] hands to the template. *)
Definition templateData (cfg : Notify.Email) (msg : Message) : EmailTemplateData :=
  match File msg with
  | None =>
      {| dataCompanyName := Notify.CompanyName cfg;
         Verb := Direction msg;
         dataFilename := Filename msg;
         dataHostname := Hostname msg;
         DebitTotal := ""; CreditTotal := "";
         dataBatchCount := 0; EntryCount := 0 |}
  | Some file =>
      {| dataCompanyName := Notify.CompanyName cfg;
         Verb := Direction msg;
         dataFilename := Filename msg;
         dataHostname := Hostname msg;
         DebitTotal := convertDollar (TotalDebitEntryDollarAmountInFile (Control file));
         CreditTotal := convertDollar (TotalCreditEntryDollarAmountInFile (Control file));
         dataBatchCount := BatchCount (Control file);
         EntryCount := countEntries (File msg) |}
  end.

Definition marshalEmail (cfg : Notify.Email) (msg : Message) : string * option error :=
  if negb (String.eqb (Contents msg) "") then (Contents msg, None)
  else
    match Tmpl cfg (templateData cfg msg) with
    | (_, Some err) => ("", Some err)
    | (buf, None) => (buf, None)
    end.

Definition Info (fuel : nat) (mailer : Email) (msg : Message) (tr : list Notify.Event)
    : option (option error) * list Notify.Event :=
  let '(contents, err) := marshalEmail (cfg mailer) msg in
  match err with
  | Some err => (Some (Some err), tr)
  | None =>
      Notify.sendEmail fuel (cfg mailer) (dialer mailer) (Filename msg) contents tr
  end.

Definition Critical (fuel : nat) (mailer : Email) (msg : Message)
    (tr : list Notify.Event) : option (option error) * list Notify.Event :=
  let '(contents, err) := marshalEmail (cfg mailer) msg in
  match err with
  | Some err => (Some (Some err), tr)
  | None =>
      Notify.sendEmail fuel (cfg mailer) (dialer mailer) (Filename msg) contents tr
  end.

(** The mail every delivery of a notification about [msg] carries. *)
Definition mailOf (cfg : Notify.Email) (msg : Message) (contents : string)
    : Notify.Message :=
  {| Notify.hdrFrom := Notify.From cfg;
     Notify.hdrTo := Notify.To cfg;
     Notify.hdrSubject := Filename msg +:+ " uploaded by " +:+ Notify.CompanyName cfg;
     Notify.contentType := "text/plain";
     Notify.body := contents |}.

(** An event is a delivery of [m] or the pause after a time-out. *)
Definition deliveryOf (m : Notify.Message) (ev : Notify.Event) : Prop :=
  ev = Notify.Attempt m \/ ev = Notify.Sleep 250.

End Templates.

(** The number of entries in all batches. *)
Definition totalEntries (file : achFile) : nat :=
  length (concat (List.map GetEntries (Batches file))).

(** A file of two batches with three entries between them. *)
Definition demoFile : achFile :=
  {| Control := {| BatchCount := 2;
                   TotalDebitEntryDollarAmountInFile := 0;
                   TotalCreditEntryDollarAmountInFile := 120000 |};
     Batches := [ {| GetEntries := [ {| TraceNumber := "121042880000001" |};
                                     {| TraceNumber := "121042880000002" |} ] |};
                  {| GetEntries := [ {| TraceNumber := "121042880000003" |} ] |} ] |}.

End Mailer.

(** ** internal/upload/sftp.go: connecting, with the logger as it is
    handed in *)

Module Logged.
Import Go Upload.

(** [log.Logger] is an interface, and the agent keeps whatever logger
    its maker hands in, nil included.  [Upload] reads the agent with a
    logger that can be used; here are [sftpConnect], [connection] and
    [Ping] once more, with the logger they are given. *)
Inductive Logger : Type := StdLogger.

(** [logger.Warn().Logf(...)]: the call of a method on a nil interface
    panics. *)
Definition hostKeyCallback (logger : option Logger) : M unit :=
  match logger with
  | Some _ => emit (OpWarn hostKeyWarning)
  | None => panic "nil pointer dereference"
  end.

(** The host key part of [sftpConnect].  [hostKeyCallbackOnce.Do] marks
    the callback as done also when it panics. *)
Definition chooseHostKey (logger : option Logger) (sftp : service_SFTP)
    : M (HostKeyCallback + error) :=
  env ← ask;
  if negb (String.eqb (HostPublicKey sftp) "") then
    match sshx_ReadPubKey env (HostPublicKey sftp) with
    | inl pubKey => mret (inl (ssh_FixedHostKey pubKey))
    | inr err =>
        mret (inr (errors_New ("problem parsing ssh public key: " +:+ Error err)))
    end
  else
    hostKeyCallbackOnce_Do (hostKeyCallback logger);;
    mret (inl ssh_InsecureIgnoreHostKey).

Definition sftpConnect (logger : option Logger) (cfg : UploadAgent)
    : M (option sshClient * option error) :=
  match SFTP cfg with
  | None => mret (None, Some (errors_New "nil config or sftp config"))
  | Some sftp =>
      hk ← chooseHostKey logger sftp;
      match hk with
      | inr err => mret (None, Some err)
      | inl hostKey =>
          auth ← chooseAuth sftp;
          match auth with
          | inr err => mret (None, Some err)
          | inl auth =>
              let conf := {| User := Username sftp; Auth := auth;
                             HostKey := hostKey; DialTimeout := Timeout sftp |} in
              '(client, err) ← dialLoop 3 0 sftp conf None None;
              match client, err with
              | None, Some err =>
                  mret (None, Some (errors_New ("sftpConnect: " +:+ Error err)))
              | None, None => panic "nil pointer dereference"
              | Some c, _ => openSession c
              end
          end
      end
  end.

(** [logger] is the field [agent.logger], which [SFTPTransferAgent]
    leaves out. *)
Definition connection (logger : option Logger) (agent : SFTPTransferAgent)
    : M (SFTPTransferAgent * (option sftpClient * option error)) :=
  live ←
    match client agent with
    | Some _ =>
        err ← client_Getwd;
        match err with
        | None => mret true
        | Some _ => client_Close;; mret false
        end
    | None => mret false
    end;
  if live : bool then mret (agent, (client agent, None))
  else
    '(c, err) ← sftpConnect logger (cfg agent);
    match err with
    | Some err => mret (agent, (None, Some (errors_New ("upload: " +:+ Error err))))
    | None =>
        let agent := {| conn := c; client := client agent; cfg := cfg agent |} in
        match SFTP (cfg agent) with
        | None => panic "nil pointer dereference"
        | Some sftp =>
            e ← perform (OpNewClientPipe (MaxConnections sftp) (PacketSize sftp));
            match e with
            | Some err =>
                closeInBackground;;
                mret (agent, (None, Some (errors_New ("upload: sftp connect: " +:+ Error err))))
            | None =>
                let agent := {| conn := conn agent; client := Some SFTPClient;
                                cfg := cfg agent |} in
                mret (agent, (client agent, None))
            end
        end
    end.

Definition Ping (logger : option Logger) (agent : SFTPTransferAgent)
    : M (SFTPTransferAgent * option error) :=
  '(agent, (_, err)) ← connection logger agent;
  record agent err;;
  match err with
  | Some err => mret (agent, Some err)
  | None =>
      r ← client_ReadDir ".";
      let err := match r with inl _ => None | inr e => Some e end in
      record agent err;;
      match err with
      | Some err => mret (agent, Some (errors_New ("sftp: ping " +:+ Error err)))
      | None => mret (agent, None)
      end
  end.

(** *** Vocabulary *)

(** The warning about the host key is due: no host key is configured
    and the once-latch has not fired. *)
Definition warns (config : UploadAgent) (s : State) : bool :=
  match SFTP config with
  | Some sftp => String.eqb (HostPublicKey sftp) "" && negb (hostKeyCallbackOnce s)
  | None => false
  end.

(** [connection] connects anew: the agent has no client, or the probe
    of its client fails. *)
Definition reconnects (agent : SFTPTransferAgent) (env : Env) (s : State) : bool :=
  match client agent with
  | Some _ =>
      match faults env (log s) OpGetwd with
      | Some _ => true
      | None => false
      end
  | None => true
  end.

(** The logger is nil. *)
Definition isNil (logger : option Logger) : bool :=
  match logger with
  | Some _ => false
  | None => true
  end.

End Logged.

(** ** Vocabulary of further properties of the agent *)

Module UploadTerms.
Import Go Upload.

(** [m] never panics and every value it returns satisfies [P]. *)
Definition returns {A} (P : A -> Prop) (m : M A) : Prop :=
  forall env s, exists a, fst (m env s) = Ok a /\ P a.

(** A result of the Go shape (value, error) that holds exactly one of
    the two. *)
Definition exactlyOne {A} (r : option A * option error) : Prop :=
  match r with
  | (Some _, None) => True
  | (None, Some _) => True
  | _ => False
  end.

(** The dial loop never ends with neither a client nor an error. *)
Definition dialled (r : option sshClient * option error) : Prop :=
  match r with
  | (None, None) => False
  | _ => True
  end.

(** From [s] to [s'] the remote host differs at most under [paths]. *)
Definition changesOnly (paths : list string) (s s' : State) : Prop :=
  forall p, ~ In p paths -> remote s' !! p = remote s !! p.

(** The counter sftp_connection_retries of a host. *)
Definition retriesOf (host : string) (s : State) : Z :=
  default 0 (sftpConnectionRetries s !! host).

(** The history after [k] more rounds of a dial and the sleep after it. *)
Fixpoint dialRounds (dial : Op) (k : nat) (h : list Op) : list Op :=
  match k with
  | O => h
  | S k' => dialRounds dial k' (OpSleep 250 :: dial :: h)
  end.

(** A request is neither the warning about the host key nor a dial with
    another host key check than [check]. *)
Definition checksHostKey (check : HostKeyCallback) (op : Op) : Prop :=
  match op with
  | OpDial _ conf => HostKey conf = check
  | OpWarn _ => False
  | _ => True
  end.

Definition dialsChecking (check : HostKeyCallback) (op : Op) : Prop :=
  match op with
  | OpDial _ conf => HostKey conf = check
  | _ => True
  end.

Definition notInputClose (op : Op) : Prop :=
  match op with
  | OpInputClose _ => False
  | _ => True
  end.

Definition notClose (fd : string) (op : Op) : Prop :=
  match op with
  | OpFClose fd' => fd' <> fd
  | _ => True
  end.

(** An agent as a test may build it by hand: no configuration at all. *)
Definition bareAgent : SFTPTransferAgent :=
  {| conn := None; client := None;
     cfg := {| ID := ""; SFTP := None;
               Paths := {| Inbound := ""; Outbound := ""; Reconciliation := "";
                           Return := "" |};
               SplitAllowedIPs := [] |} |}.

(** The path a request asks the remote host to change, if it asks for a
    change at all. *)
Definition touches (op : Op) : option string :=
  match op with
  | OpRemove path | OpMkdir path | OpOpenFile path
  | OpFWrite path _ | OpFChmod path _ => Some path
  | _ => None
  end.

(** A request asks for no change outside [paths]. *)
Definition confinedTo (paths : list string) (op : Op) : Prop :=
  match touches op with
  | Some path => In path paths
  | None => True
  end.

(** Whether [UploadFile] looks after the outbound directory. *)
Definition createsOutbound (config : UploadAgent) : bool :=
  match SFTP config with
  | Some sftp => negb (SkipDirectoryCreation sftp)
  | None => false
  end.

(** The paths an upload of [f] may change: the remote file, named by the
    base name of [f] inside the outbound directory, and the outbound
    directory itself unless its creation is skipped. *)
Definition uploadTargets (config : UploadAgent) (f : File) : list string :=
  let out := Outbound (Paths config) in
  let path := filepath_Join out (filepath_Base (Filename f)) in
  if createsOutbound config then [out; path] else [path].

(** A string without a slash: one element of a path. *)
Fixpoint slashFree (s : string) : bool :=
  match s with
  | EmptyString => true
  | String c s' => negb (Ascii.eqb c "/") && slashFree s'
  end.

(** A base name that names something inside a directory: [filepath.Base]
    also answers ".", ".." and "/". *)
Definition properName (b : string) : bool :=
  negb (String.eqb b ".") && negb (String.eqb b "..") && negb (String.eqb b "/").

(** The path of the element [b] directly inside the clean directory
    [dir]. *)
Definition inside (dir b : string) : string :=
  if String.eqb dir "." then b
  else if String.eqb dir "/" then "/" +:+ b
  else dir +:+ "/" +:+ b.

(** The calls that are meant to read only. *)
Definition readOnlyCall (call : Call) : bool :=
  match call with
  | CallDelete _ _ | CallUploadFile _ _ => false
  | _ => true
  end.

(** Take the handle [path] out of the open handles, once. *)
Fixpoint closeHandle (path : string) (opened : list string) : list string :=
  match opened with
  | [] => []
  | p :: rest => if String.eqb p path then rest else p :: closeHandle path rest
  end.

(** The handles that are open after the requests [ops] (oldest first)
    have been made on a remote host whose files [fs] do not change:
    an answered open of an existing path adds its handle, a close takes
    it away.  [h] is the history before [ops], [opened] the handles open
    before. *)
Fixpoint handlesAfter (env : Env) (fs : gmap string Node) (h ops : list Op)
    (opened : list string) : list string :=
  match ops with
  | [] => opened
  | op :: ops' =>
      handlesAfter env fs (op :: h) ops'
        match op with
        | OpOpen path =>
            match faults env h op, fs !! path with
            | None, Some _ => path :: opened
            | _, _ => opened
            end
        | OpFClose path => closeHandle path opened
        | _ => opened
        end
  end.

(** From [s] to [s'] the remote files stay as they are, and every handle
    opened on the way has been closed again. *)
Definition closesItsHandles (env : Env) (s s' : State) : Prop :=
  remote s' = remote s /\
  exists ops,
    log s' = (rev ops ++ log s)%list /\
    forall opened, handlesAfter env (remote s) (log s) ops opened = opened.

(** The requests and events of connecting. *)
Definition connects (op : Op) : Prop :=
  match op with
  | OpDial _ _ | OpSSHClose | OpNewSession | OpRequestSubsystem _
  | OpStdinPipe | OpStdoutPipe | OpNewClientPipe _ _
  | OpGetwd | OpClientClose | OpSleep _ | OpWarn _ => True
  | _ => False
  end.

(** A request that neither opens a remote file for reading nor closes a
    handle. *)
Definition noHandle (op : Op) : Prop :=
  match op with
  | OpOpen _ | OpFClose _ => False
  | _ => True
  end.

(** From [s] to [s'] the gauge sftp_agent_up is left as it was. *)
Definition sameUp (s s' : State) : Prop := sftpAgentUp s' = sftpAgentUp s.

(** The value the gauge takes for the outcome of a call. *)
Definition upValue (err : option error) : Z :=
  match err with
  | None => 1
  | Some _ => 0
  end.

(** A configuration that pins the key of the remote host. *)
Definition pinnedSFTP : service_SFTP :=
  {| Hostname := "sftp.bank.com:22"; Username := "moov"; Password := "password";
     ClientPrivateKey := "";
     HostPublicKey := "ssh-ed25519 AAAAC3NzaC1lZDI1NTE5AAAAIMoov";
     SkipDirectoryCreation := false;
     Timeout := 10000; MaxConnections := 8; PacketSize := 20480 |}.

Definition pinnedCfg : UploadAgent :=
  {| ID := "sftp-pinned"; SFTP := Some pinnedSFTP;
     Paths := UploadExamples.demoPaths; SplitAllowedIPs := [] |}.

(** A request that does not close an SSH connection; one that comes
    before any session exists on it. *)
Definition notSSHClose (op : Op) : Prop := op <> OpSSHClose.

Definition preSession (op : Op) : Prop := op <> OpSSHClose /\ op <> OpNewSession.

(** What the requests [ops] of a connection attempt (newest first) must
    look like for its outcome: after a success no close of an SSH
    connection has been set off; after a failure either no session was
    ever asked for, or the close of the SSH connection was set off (go
    client.Close()) as the last thing. *)
Definition settled (err : option error) (ops : list Op) : Prop :=
  match err with
  | None => Forall notSSHClose ops
  | Some _ => Forall preSession ops \/ exists ops', ops = OpSSHClose :: ops'
  end.

(** A server on which the probe of a connection fails. *)
Definition probeFails : list Op -> Op -> option Fault := fun _ op =>
  match op with
  | OpGetwd => Some {| failure := errors_New "sftp: connection lost"; moved := 0 |}
  | _ => None
  end.

(** A server that refuses every removal. *)
Definition removeDenied : list Op -> Op -> option Fault := fun _ op =>
  match op with
  | OpRemove _ => Some {| failure := errors_New "sftp: permission denied"; moved := 0 |}
  | _ => None
  end.

End UploadTerms.

(** * Properties *)

(** ** Mail delivery is retried on time-outs only *)

Module NotifyProofs.
Import Go Notify NotifyExamples.

Lemma wrap64_id z : MinInt64 <= z <= MaxInt64 -> wrap64 z = z.
Proof.
  unfold wrap64, MinInt64, MaxInt64. intros Hz.
  rewrite Z.mod_small; lia.
Qed.

Lemma outcome_shift dialer m tr j :
  outcome dialer m tr (S j) = outcome dialer m (Sleep 250 :: Attempt m :: tr) j.
Proof. reflexivity. Qed.

(** The loop, started with [d] rounds left: either no round is left, or
    it stops after [k] attempts of which the first [k-1] timed out. *)
Lemma retryLoop_spec dialer m n :
  n < MaxInt64 ->
  forall (d fuel : nat) tries outErr tr,
    (d <= fuel)%nat ->
    Z.of_nat d = n - tries + 1 ->
    MinInt64 <= tries ->
    exists r tr',
      retryLoop fuel dialer m n tries outErr tr = (Some r, tr') /\
      ((d = 0%nat /\ r = outErr /\ tr' = tr) \/
       exists k : nat,
         (1 <= k <= d)%nat /\
         (forall j, (j < k - 1)%nat -> isTimeout (outcome dialer m tr j) = true) /\
         r = outcome dialer m tr (k - 1) /\
         (isTimeout r = true -> k = d /\ tr' = timedOut m k tr) /\
         (isTimeout r = false -> tr' = Attempt m :: timedOut m (k - 1) tr)).
Proof.
  intros Hn d. induction d as [|d IH]; intros fuel tries outErr tr Hfuel Hd Hmin.
  - exists outErr, tr. split; [|left; auto].
    destruct fuel; simpl; destruct (Z.leb_spec tries n); try lia; reflexivity.
  - destruct fuel as [|fuel]; [lia|].
    simpl. destruct (Z.leb_spec tries n) as [_|Hlt]; [|lia].
    destruct (dialer tr m) as [e|] eqn:Hout.
    + destruct (Contains (Error e) "i/o timeout") eqn:Hto.
      * rewrite wrap64_id by (unfold MaxInt64, MinInt64 in *; lia).
        destruct (IH fuel (tries + 1) (Some e) (Sleep 250 :: Attempt m :: tr))
          as (r & tr' & Hrun & Hspec); [lia | lia | lia |].
        exists r, tr'. split; [exact Hrun|]. right.
        destruct Hspec as [(Hd0 & Hr & Htr) | (k & Hk & Hbefore & Hr & Hyes & Hno)].
        -- exists 1%nat. subst d r tr'. simpl.
           unfold outcome; simpl. rewrite Hout. simpl. rewrite Hto.
           repeat split; try lia; try discriminate.
        -- exists (S k). split; [lia|].
           replace (S k - 1)%nat with (S (k - 1)) by lia.
           split; [|split; [|split]].
           ++ intros [|j] Hj.
              ** unfold outcome; simpl. rewrite Hout. simpl. exact Hto.
              ** rewrite outcome_shift. apply Hbefore. lia.
           ++ rewrite outcome_shift. exact Hr.
           ++ intros Hy. destruct (Hyes Hy) as [-> ->]. split; reflexivity.
           ++ intros Hy. rewrite (Hno Hy). reflexivity.
      * exists (Some e), (Attempt m :: tr). split; [reflexivity|]. right.
        exists 1%nat. simpl. unfold outcome; simpl. rewrite Hout. simpl. rewrite Hto.
        repeat split; try lia; try discriminate.
    + exists None, (Attempt m :: tr). split; [reflexivity|]. right.
      exists 1%nat. simpl. unfold outcome; simpl. rewrite Hout. simpl.
      repeat split; try lia; try discriminate.
Qed.

Lemma effectiveRetries_positive cfg : 1 <= effectiveRetries cfg.
Proof. unfold effectiveRetries. destruct (Z.ltb_spec 0 (MaxRetries cfg)); lia. Qed.

(** C10.  [sendEmail] makes [k] deliveries, at least one and at most
    [maxRetries] (which is 3 unless the configured MaxRetries is positive).
    Every delivery before the last failed with an error whose text
    contains "i/o timeout" and was followed by a sleep of 250ms; the
    result is the answer to the last delivery.  When that answer is nil or
    an error of another kind nothing follows it, so a success returns nil
    at once and another error is returned at once; when it is a time-out
    too, all [maxRetries] deliveries have been used.  The configured
    value is an [int] below the largest one, so that [tries++] stays in
    range. *)
Theorem sendEmail_retries_on_timeout cfg dialer filename body tr fuel :
  MaxRetries cfg < MaxInt64 ->
  (Z.to_nat (effectiveRetries cfg) <= fuel)%nat ->
  let m := newMessage cfg filename body in
  let maxRetries := if 0 <? MaxRetries cfg then MaxRetries cfg else 3 in
  exists (k : nat) r tr',
    sendEmail fuel cfg dialer filename body tr = (Some r, tr') /\
    1 <= Z.of_nat k <= maxRetries /\
    (forall j, (j < k - 1)%nat -> isTimeout (outcome dialer m tr j) = true) /\
    r = outcome dialer m tr (k - 1) /\
    (isTimeout r = true -> Z.of_nat k = maxRetries /\ tr' = timedOut m k tr) /\
    (isTimeout r = false -> tr' = Attempt m :: timedOut m (k - 1) tr).
Proof.
  intros Hmax Hfuel m maxRetries.
  pose proof (effectiveRetries_positive cfg) as Hpos.
  assert (Hn : effectiveRetries cfg < MaxInt64).
  { unfold effectiveRetries, MaxInt64 in *.
    destruct (Z.ltb_spec 0 (MaxRetries cfg)); lia. }
  destruct (retryLoop_spec dialer m (effectiveRetries cfg) Hn
              (Z.to_nat (effectiveRetries cfg)) fuel 1 None tr)
    as (r & tr' & Hrun & Hspec); [exact Hfuel | lia | unfold MinInt64; lia |].
  destruct Hspec as [(Hd0 & _) | (k & Hk & Hbefore & Hr & Hyes & Hno)]; [lia|].
  exists k, r, tr'. fold (effectiveRetries cfg) in maxRetries. subst maxRetries.
  split; [exact Hrun|]. split; [lia|]. split; [exact Hbefore|]. split; [exact Hr|].
  split; [|exact Hno].
  intros Hy. destruct (Hyes Hy) as [Hkd Htr]. split; [lia | exact Htr].
Qed.

Lemma sendEmail_retries_on_timeout_witness :
  exists (k : nat) r tr',
    sendEmail 3 demoEmail flakyDialer "20200529-131400.ach" "body" [] = (Some r, tr') /\
    1 <= Z.of_nat k <= 3 /\
    (forall j, (j < k - 1)%nat ->
       isTimeout (outcome flakyDialer
                    (newMessage demoEmail "20200529-131400.ach" "body") [] j) = true) /\
    r = outcome flakyDialer (newMessage demoEmail "20200529-131400.ach" "body") [] (k - 1) /\
    (isTimeout r = true ->
       Z.of_nat k = 3 /\
       tr' = timedOut (newMessage demoEmail "20200529-131400.ach" "body") k []) /\
    (isTimeout r = false ->
       tr' = Attempt (newMessage demoEmail "20200529-131400.ach" "body")
               :: timedOut (newMessage demoEmail "20200529-131400.ach" "body") (k - 1) []).
Proof.
  apply (sendEmail_retries_on_timeout demoEmail flakyDialer
           "20200529-131400.ach" "body" [] 3).
  - vm_compute. reflexivity.
  - vm_compute. lia.
Defined.

(** The run of the example: two time-outs, two sleeps, then success. *)
Example sendEmail_flaky_run :
  sendEmail 3 demoEmail flakyDialer "f.ach" "body" [] =
  (Some None,
   let m := newMessage demoEmail "f.ach" "body" in
   [Attempt m; Sleep 250; Attempt m; Sleep 250; Attempt m]).
Proof. reflexivity. Qed.

(** Another error ends the loop at the first delivery. *)
Example sendEmail_other_error :
  sendEmail 3 demoEmail (fun _ _ => Some (errors_New "535 authentication failed"))
    "f.ach" "body" [] =
  (Some (Some (errors_New "535 authentication failed")),
   [Attempt (newMessage demoEmail "f.ach" "body")]).
Proof. reflexivity. Qed.

(** Time-outs throughout: [maxRetries] deliveries, the last error is
    returned after the last sleep. *)
Example sendEmail_all_timeouts :
  sendEmail 2
    {| From := "a"; To := []; CompanyName := "c"; MaxRetries := 2 |}
    (fun _ _ => Some (errors_New "i/o timeout")) "f.ach" "body" [] =
  (Some (Some (errors_New "i/o timeout")),
   let m := newMessage {| From := "a"; To := []; CompanyName := "c"; MaxRetries := 2 |}
              "f.ach" "body" in
   [Sleep 250; Attempt m; Sleep 250; Attempt m]).
Proof. reflexivity. Qed.

End NotifyProofs.

(** ** The SFTP agent *)

Module UploadProofs.
Import Go Upload.
Local Open Scope list_scope.

(** *** Running monadic code *)

Lemma run_bind {A B} (m : M A) (k : A -> M B) env s :
  (m ≫= k) env s =
  match m env s with
  | (Ok a, s') => k a env s'
  | (Panic msg, s') => (Panic msg, s')
  end.
Proof. reflexivity. Qed.

Lemma run_ret {A} (a : A) env s : (mret a : M A) env s = (Ok a, s).
Proof. reflexivity. Qed.

Lemma run_issue op env s : issue op env s = (Ok (faults env (log s) op), pushLog op s).
Proof. reflexivity. Qed.

Lemma run_perform op env s :
  perform op env s = (Ok (failure <$> faults env (log s) op), pushLog op s).
Proof. reflexivity. Qed.

(** Unfold the monad and the state accessors, and reduce. *)
Ltac run :=
  cbv [mbind mret M_bind M_ret get ask modify panic issue perform emit
       fmap option_fmap option_map pushLog setRemote setOnce setUp addRetry];
  simpl.

(** *** Relations between the state before and after a computation *)

Section Respects.
Context (R : State -> State -> Prop) `{!PreOrder R}.

Lemma respects_ret {A} (a : A) : respects R (mret a).
Proof. intros env s. simpl. reflexivity. Qed.

Lemma respects_bind {A B} (m : M A) (k : A -> M B) :
  respects R m -> (forall a, respects R (k a)) -> respects R (m ≫= k).
Proof.
  intros Hm Hk env s. rewrite run_bind.
  specialize (Hm env s). destruct (m env s) as [[a|msg] s1]; simpl in *.
  - etransitivity; [exact Hm | apply Hk].
  - exact Hm.
Qed.

Lemma respects_ask : respects R ask.
Proof. intros env s. simpl. reflexivity. Qed.

Lemma respects_get : respects R get.
Proof. intros env s. simpl. reflexivity. Qed.

Lemma respects_panic {A} msg : respects R (@panic A msg).
Proof. intros env s. simpl. reflexivity. Qed.

Lemma respects_modify f : (forall s, R s (f s)) -> respects R (modify f).
Proof. intros Hf env s. apply Hf. Qed.

Lemma respects_issue op : (forall s, R s (pushLog op s)) -> respects R (issue op).
Proof. intros Hop env s. apply Hop. Qed.

Lemma respects_perform op : (forall s, R s (pushLog op s)) -> respects R (perform op).
Proof. intros Hop env s. apply Hop. Qed.

Lemma respects_emit op : (forall s, R s (pushLog op s)) -> respects R (emit op).
Proof. intros Hop env s. apply Hop. Qed.

End Respects.

(** Take a computation apart along its binds and case distinctions; the
    leaves that change the state are left to [leaf], calls of functions
    handled before to [known]. *)
Ltac respects_walk leaf known :=
  repeat first
    [ assumption
    | known
    | match goal with
      | |- PreOrder _ => apply _
      | |- forall _, respects _ _ => intros ?
      end
    | apply respects_ret
    | apply respects_ask
    | apply respects_get
    | apply respects_panic
    | apply respects_bind
    | apply respects_modify; leaf
    | apply respects_issue; leaf
    | apply respects_perform; leaf
    | apply respects_emit; leaf
    | match goal with
      | |- respects _ (match ?x with _ => _ end) => destruct x
      | |- respects _ (if ?b then _ else _) => destruct b
      | |- respects _ (let '(_, _) := ?x in _) => destruct x
      end ].

(** *** Connecting leaves the remote files alone *)

#[local] Instance sameRemote_preorder : PreOrder sameRemote.
Proof.
  split.
  - intros s. reflexivity.
  - intros s1 s2 s3 H12 H23. unfold sameRemote in *. congruence.
Qed.

Ltac same_remote_leaf := intros ?; reflexivity.

Lemma dialLoop_sameRemote n i sftp conf c err :
  respects sameRemote (dialLoop n i sftp conf c err).
Proof.
  revert i c err. induction n as [|n IH]; intros i c err; cbn [dialLoop].
  - apply respects_ret, _.
  - unfold ssh_Dial. respects_walk same_remote_leaf ltac:(apply IH).
Qed.

Lemma sftpConnect_sameRemote cfg : respects sameRemote (sftpConnect cfg).
Proof.
  unfold sftpConnect, chooseHostKey, chooseAuth, readSigner, openSession,
    hostKeyCallbackOnce_Do, hostKeyCallback, closeInBackground, conn_Close.
  respects_walk same_remote_leaf ltac:(apply dialLoop_sameRemote).
Qed.

Lemma connection_sameRemote agent : respects sameRemote (connection agent).
Proof.
  unfold connection, client_Getwd, client_Close, closeInBackground, conn_Close.
  respects_walk same_remote_leaf ltac:(apply sftpConnect_sameRemote).
Qed.

Lemma connection_keeps_remote agent env s r s1 :
  connection agent env s = (r, s1) -> remote s1 = remote s.
Proof.
  intros H. pose proof (connection_sameRemote agent env s) as Hs.
  rewrite H in Hs. exact Hs.
Qed.

Lemma connection_keeps_cfg agent env s agent1 r s1 :
  connection agent env s = (Ok (agent1, r), s1) -> cfg agent1 = cfg agent.
Proof.
  unfold connection. rewrite !run_bind.
  match goal with
  | |- context [match ?m env s with _ => _ end] =>
      destruct (m env s) as [[[|]|] s0]; [ | | discriminate]
  end.
  - rewrite run_ret. intros [= <- _ _]. reflexivity.
  - rewrite run_bind. destruct (sftpConnect (cfg agent) env s0) as [[[c [e|]]|] s2];
      [ rewrite run_ret; intros [= <- _ _]; reflexivity | | discriminate ].
    cbn [cfg]. destruct (SFTP (cfg agent)) as [sftp|]; [|discriminate].
    rewrite run_bind, run_perform.
    destruct (faults env (log s2) _) as [f|]; cbn [fmap option_fmap option_map].
    + rewrite run_bind. unfold closeInBackground. rewrite run_bind.
      unfold conn_Close. rewrite run_perform, !run_ret.
      intros [= <- _ _]. reflexivity.
    + rewrite run_ret. intros [= <- _ _]. reflexivity.
Qed.

(** *** Delete *)

(** C2.  With a working connection and a server that answers the stat
    request: [Delete] of a path that does not exist on the remote host
    returns nil and leaves the remote files as they were (not found is
    success); [Delete] of an existing file, when the server carries out
    the removal, returns nil and the path is gone from the remote host
    while every other path is kept. *)
Theorem Delete_absent_is_success agent path env s agent1 c s1 :
  connection agent env s = (Ok (agent1, (c, None)), s1) ->
  (forall h, faults env h (OpStat path) = None) ->
  (remote s !! path = None ->
   exists s',
     Delete agent path env s = (Ok (agent1, None), s') /\
     remote s' = remote s) /\
  (forall contents mode,
     remote s !! path = Some (RegularFile contents mode) ->
     (forall h, faults env h (OpRemove path) = None) ->
     exists s',
       Delete agent path env s = (Ok (agent1, None), s') /\
       remote s' !! path = None /\
       remote s' = delete path (remote s)).
Proof.
  intros Hconn Hstat.
  pose proof (connection_keeps_remote _ _ _ _ _ Hconn) as Hfs.
  split.
  - intros Habsent. unfold Delete. rewrite run_bind, Hconn.
    unfold client_Stat. run. rewrite Hstat. simpl. rewrite Hfs, Habsent.
    unfold errNotExist. simpl.
    eexists. split; reflexivity.
  - intros contents mode Hfile Hremove. unfold Delete. rewrite run_bind, Hconn.
    unfold client_Stat, client_Remove. run. rewrite Hstat. simpl.
    rewrite Hfs, Hfile. simpl. rewrite Hremove. simpl. rewrite Hfile.
    eexists. split; [reflexivity|]. simpl.
    split; [apply lookup_delete_eq | reflexivity].
Qed.

(** *** Equations of the client requests *)

Lemma log_pushLog op s : log (pushLog op s) = op :: log s.
Proof. reflexivity. Qed.

Lemma remote_pushLog op s : remote (pushLog op s) = remote s.
Proof. reflexivity. Qed.

Lemma log_setRemote fs s : log (setRemote fs s) = log s.
Proof. reflexivity. Qed.

Lemma remote_setRemote fs s : remote (setRemote fs s) = fs.
Proof. reflexivity. Qed.

Ltac pushed := rewrite ?log_pushLog, ?remote_pushLog.

(** Bring the histories and file systems of the goal and the hypotheses
    into the form of a list and a map. *)
Ltac normal :=
  repeat first
    [ rewrite log_pushLog in * | rewrite log_setRemote in *
    | rewrite remote_pushLog in * | rewrite remote_setRemote in * ].

Lemma run_client_Open path env s :
  client_Open path env s =
  (Ok match faults env (log s) (OpOpen path) with
      | Some f => inr (failure f)
      | None =>
          match remote s !! path with
          | Some _ => inl path
          | None => inr errNotExist
          end
      end,
   pushLog (OpOpen path) s).
Proof.
  unfold client_Open. run.
  destruct (faults env (log s) (OpOpen path)); [reflexivity|].
  simpl. destruct (remote s !! path); reflexivity.
Qed.

Lemma run_file_Stat (fd : string) env s :
  file_Stat fd env s =
  (Ok match faults env (log s) (OpFStat fd) with
      | Some f => inr (failure f)
      | None =>
          match remote s !! fd with
          | Some node => inl (infoOf fd node)
          | None => inr errNotExist
          end
      end,
   pushLog (OpFStat fd) s).
Proof.
  unfold file_Stat. run.
  destruct (faults env (log s) (OpFStat fd)); [reflexivity|].
  simpl. destruct (remote s !! fd); reflexivity.
Qed.

Lemma run_file_WriteTo (fd : string) env s :
  file_WriteTo fd env s =
  (Ok match faults env (log s) (OpFRead fd), remote s !! fd with
      | Some f, Some (RegularFile contents _) =>
          (take (Z.to_nat (moved f)) contents, moved f, Some (failure f))
      | Some f, _ => ([], moved f, Some (failure f))
      | None, Some (RegularFile contents _) =>
          (contents, Z.of_nat (length contents), None)
      | None, _ => ([], 0, Some errFailure)
      end,
   pushLog (OpFRead fd) s).
Proof.
  unfold file_WriteTo. run.
  destruct (faults env (log s) (OpFRead fd)) as [f|];
    destruct (remote s !! fd) as [[contents mode|]|]; simpl;
    rewrite ?take_nil; reflexivity.
Qed.

Lemma run_file_Close (fd : string) env s :
  file_Close fd env s =
  (Ok (failure <$> faults env (log s) (OpFClose fd)), pushLog (OpFClose fd) s).
Proof. reflexivity. Qed.

Lemma run_client_ReadDir path env s :
  client_ReadDir path env s =
  (Ok match faults env (log s) (OpReadDir path) with
      | Some f => inr (failure f)
      | None =>
          match remote s !! path with
          | None => inr errNotExist
          | Some (RegularFile _ _) => inr errFailure
          | Some Directory => inl (List.map entryInfo (children path (remote s)))
          end
      end,
   pushLog (OpReadDir path) s).
Proof.
  unfold client_ReadDir. run.
  destruct (faults env (log s) (OpReadDir path)); [reflexivity|].
  simpl. destruct (remote s !! path) as [[|]|]; reflexivity.
Qed.

(** *** Listing a directory *)

Lemma isChild_join dir p :
  isChild dir p = true -> filepath_Join dir (filepath_Base p) = p.
Proof.
  unfold isChild. rewrite andb_true_iff. intros [_ H].
  apply String.eqb_eq in H. exact H.
Qed.

Lemma children_listed dir fs : listed dir fs (children dir fs).
Proof.
  unfold listed, children. apply List.Forall_forall. intros [p n] Hin.
  apply List.filter_In in Hin. destruct Hin as [Hin Hchild]. simpl in *.
  split; [|exact Hchild].
  apply elem_of_map_to_list. apply list_elem_of_In. exact Hin.
Qed.

Lemma readEntries_step dir p n cs acc :
  isChild dir p = true ->
  readEntries dir (List.map entryInfo ((p, n) :: cs)) acc =
  (r ← client_Open p;
   match r with
   | inr e =>
       mret ([], Some (errors_New ("sftp: open " +:+ filepath_Base p +:+ ": " +:+ Error e)))
   | inl fd =>
       r ← file_Stat fd;
       match r with
       | inr e =>
           file_Close fd;;
           mret ([], Some (errors_New ("sftp: stat " +:+ filepath_Base p +:+ ": " +:+ Error e)))
       | inl info =>
           if IsDir info then
             file_Close fd;;
             readEntries dir (List.map entryInfo cs) acc
           else
             '(buf, n, err) ← file_WriteTo fd;
             match err with
             | Some e =>
                 file_Close fd;;
                 if negb (Contains (Error e) (Error sftp_ErrInternalInconsistency))
                 then mret ([], Some (errors_New
                        ("sftp: read (n=" +:+ fmt_d n +:+ ") " +:+ filepath_Base p
                         +:+ ": " +:+ Error e)))
                 else mret ([], Some (errors_New
                        ("sftp: read (n=" +:+ fmt_d n +:+ ") on " +:+ filepath_Base p
                         +:+ ": " +:+ Error e)))
             | None =>
                 file_Close fd;;
                 readEntries dir (List.map entryInfo cs)
                   (acc ++ [ {| Filename := filepath_Base p; Contents := buf |} ])
             end
       end
   end).
Proof.
  intros Hchild. cbn [List.map readEntries].
  change (Name (entryInfo (p, n))) with (filepath_Base p).
  rewrite (isChild_join _ _ Hchild). reflexivity.
Qed.

Lemma readEntries_answered env dir cs :
  listingAnswered env ->
  forall acc s,
    listed dir (remote s) cs ->
    exists s',
      readEntries dir (List.map entryInfo cs) acc env s
        = (Ok ((acc ++ regularFiles cs)%list, None), s') /\
      remote s' = remote s.
Proof.
  intros Hans. induction cs as [|[p n] cs IH]; intros acc s Hl.
  - simpl. exists s. rewrite app_nil_r. split; reflexivity.
  - inversion Hl as [|? ? [Hp Hchild] Hl']; subst. simpl in Hp, Hchild.
    rewrite (readEntries_step _ _ _ _ _ Hchild).
    rewrite run_bind, run_client_Open.
    destruct (Hans (log s) p) as (_ & -> & _ & _). rewrite Hp.
    rewrite run_bind, run_file_Stat. pushed.
    destruct (Hans (OpOpen p :: log s) p) as (_ & _ & -> & _). rewrite Hp.
    destruct n as [contents mode|]; cbn [infoOf IsDir isDirectory].
    + rewrite run_bind, run_file_WriteTo. pushed.
      destruct (Hans (OpFStat p :: OpOpen p :: log s) p) as (_ & _ & _ & ->).
      rewrite Hp. rewrite run_bind, run_file_Close.
      destruct (IH (acc ++ [ {| Filename := filepath_Base p; Contents := contents |} ])
                   (pushLog (OpFClose p) (pushLog (OpFRead p)
                      (pushLog (OpFStat p) (pushLog (OpOpen p) s)))))
        as (s' & Hrun & Hfs); [exact Hl'|].
      exists s'. rewrite Hrun. split; [|exact Hfs].
      cbn [regularFiles flat_map snd fst]. rewrite <- app_assoc. reflexivity.
    + rewrite run_bind, run_file_Close.
      destruct (IH acc (pushLog (OpFClose p) (pushLog (OpFStat p) (pushLog (OpOpen p) s))))
        as (s' & Hrun & Hfs); [exact Hl'|].
      exists s'. rewrite Hrun. split; [reflexivity | exact Hfs].
Qed.

(** A listing that returns without an error has returned the regular
    files among the entries, whatever else the server did. *)
Lemma readEntries_success env dir cs :
  forall acc s files s',
    listed dir (remote s) cs ->
    readEntries dir (List.map entryInfo cs) acc env s = (Ok (files, None), s') ->
    files = acc ++ regularFiles cs.
Proof.
  induction cs as [|[p n] cs IH]; intros acc s files s' Hl.
  - simpl. rewrite run_ret. intros [= <- _]. rewrite app_nil_r. reflexivity.
  - inversion Hl as [|? ? [Hp Hchild] Hl']; subst. simpl in Hp, Hchild.
    rewrite (readEntries_step _ _ _ _ _ Hchild).
    rewrite run_bind, run_client_Open.
    destruct (faults env (log s) (OpOpen p)); [rewrite run_ret; discriminate|].
    rewrite Hp, run_bind, run_file_Stat. pushed.
    destruct (faults env (OpOpen p :: log s) (OpFStat p));
      [rewrite run_bind, run_file_Close, run_ret; discriminate|].
    rewrite Hp.
    destruct n as [contents mode|]; cbn [infoOf IsDir isDirectory].
    + rewrite run_bind, run_file_WriteTo. pushed. rewrite Hp.
      destruct (faults env (OpFStat p :: OpOpen p :: log s) (OpFRead p)).
      * rewrite run_bind, run_file_Close.
        destruct (negb _); rewrite run_ret; discriminate.
      * rewrite run_bind, run_file_Close. intros Hrun.
        apply IH in Hrun; [|exact Hl'].
        rewrite Hrun. cbn [regularFiles flat_map snd fst].
        rewrite <- app_assoc. reflexivity.
    + rewrite run_bind, run_file_Close. intros Hrun.
      apply IH in Hrun; [|exact Hl']. exact Hrun.
Qed.

Lemma readEntries_sameRemote dir infos :
  forall acc, respects sameRemote (readEntries dir infos acc).
Proof.
  induction infos as [|entry infos IH]; intros acc; cbn [readEntries].
  - apply respects_ret, _.
  - unfold client_Open, file_Stat, file_WriteTo, file_Close.
    respects_walk same_remote_leaf ltac:(apply IH).
Qed.

Lemma readFiles_sameRemote agent dir : respects sameRemote (readFiles agent dir).
Proof.
  unfold readFiles, client_ReadDir.
  respects_walk same_remote_leaf
    ltac:(first [apply connection_sameRemote | apply readEntries_sameRemote]).
Qed.

Lemma readFiles_success agent dir env s agent1 files s' :
  readFiles agent dir env s = (Ok (agent1, (files, None)), s') ->
  files = filesIn dir (remote s) /\ cfg agent1 = cfg agent.
Proof.
  unfold readFiles. rewrite run_bind.
  destruct (connection agent env s) as [[[agent0 [c [e|]]]|] s0] eqn:Hconn;
    [rewrite run_ret; discriminate | | discriminate].
  pose proof (connection_keeps_remote _ _ _ _ _ Hconn) as Hfs.
  pose proof (connection_keeps_cfg _ _ _ _ _ _ Hconn) as Hcfg.
  rewrite run_bind, run_client_ReadDir.
  destruct (faults env (log s0) (OpReadDir dir)); [rewrite run_ret; discriminate|].
  destruct (remote s0 !! dir) as [[|]|] eqn:Hdir; try (rewrite run_ret; discriminate).
  rewrite run_bind.
  destruct (readEntries _ _ _ _ _) as [[[files0 err]|] s2] eqn:Hrun; [|discriminate].
  rewrite run_ret. intros [= <- <- -> _].
  apply readEntries_success in Hrun.
  - rewrite Hrun, <- Hfs. split; [reflexivity | exact Hcfg].
  - rewrite remote_pushLog. apply children_listed.
Qed.

Lemma readFiles_answered agent dir env s agent1 c s1 :
  connection agent env s = (Ok (agent1, (c, None)), s1) ->
  remote s !! dir = Some Directory ->
  listingAnswered env ->
  exists s',
    readFiles agent dir env s = (Ok (agent1, (filesIn dir (remote s), None)), s') /\
    remote s' = remote s.
Proof.
  intros Hconn Hdir Hans.
  pose proof (connection_keeps_remote _ _ _ _ _ Hconn) as Hfs.
  unfold readFiles. rewrite run_bind, Hconn, run_bind, run_client_ReadDir.
  destruct (Hans (log s1) dir) as (-> & _). rewrite Hfs, Hdir, run_bind.
  destruct (readEntries_answered env dir (children dir (remote s)) Hans []
              (pushLog (OpReadDir dir) s1)) as (s' & Hrun & Hfs').
  { rewrite remote_pushLog, Hfs. apply children_listed. }
  rewrite Hrun, run_ret. exists s'. split; [reflexivity|].
  rewrite Hfs', remote_pushLog. exact Hfs.
Qed.

Lemma elem_of_children dir fs p n :
  In (p, n) (children dir fs) <-> fs !! p = Some n /\ isChild dir p = true.
Proof.
  unfold children. rewrite List.filter_In. simpl.
  rewrite <- list_elem_of_In, elem_of_map_to_list. reflexivity.
Qed.

Lemma elem_of_regularFiles cs f :
  In f (regularFiles cs) <->
  exists p contents mode,
    In (p, RegularFile contents mode) cs /\
    f = {| Filename := filepath_Base p; Contents := contents |}.
Proof.
  unfold regularFiles. rewrite List.in_flat_map. split.
  - intros ([p [contents mode|]] & Hin & Hf); simpl in Hf; [|contradiction].
    destruct Hf as [<-|[]]. exists p, contents, mode. split; [exact Hin | reflexivity].
  - intros (p & contents & mode & Hin & ->).
    exists (p, RegularFile contents mode). split; [exact Hin | left; reflexivity].
Qed.

Lemma GetFiles_readFiles l agent :
  GetFiles l agent = readFiles agent (listingPath l agent).
Proof. destruct l; reflexivity. Qed.

(** C3.  With a working connection and a server that answers the
    requests of a listing, each of GetInboundFiles, GetReconciliationFiles
    and GetReturnFiles returns nil as its error and, as its files, exactly
    the regular files directly inside the configured directory: a file is
    returned if and only if a regular file with that name and those
    contents lies one level deep, and no returned file stands for a
    subdirectory. *)
Theorem GetFiles_skips_directories l agent env s agent1 c s1 :
  connection agent env s = (Ok (agent1, (c, None)), s1) ->
  remote s !! listingPath l agent = Some Directory ->
  listingAnswered env ->
  exists files s',
    GetFiles l agent env s = (Ok (agent1, (files, None)), s') /\
    files = filesIn (listingPath l agent) (remote s) /\
    (forall name contents,
       In {| Filename := name; Contents := contents |} files <->
       exists p mode,
         isChild (listingPath l agent) p = true /\
         remote s !! p = Some (RegularFile contents mode) /\
         name = filepath_Base p) /\
    (forall p f,
       isChild (listingPath l agent) p = true ->
       remote s !! p = Some Directory ->
       In f files ->
       Filename f <> filepath_Base p).
Proof.
  intros Hconn Hdir Hans. rewrite GetFiles_readFiles.
  set (dir := listingPath l agent) in *.
  destruct (readFiles_answered agent dir env s agent1 c s1 Hconn Hdir Hans)
    as (s' & Hrun & _).
  exists (filesIn dir (remote s)), s'.
  split; [exact Hrun|]. split; [reflexivity|]. split.
  - intros name contents. unfold filesIn. rewrite elem_of_regularFiles. split.
    + intros (p & contents' & mode & Hin & [= -> ->]).
      apply elem_of_children in Hin. destruct Hin as [Hp Hchild].
      exists p, mode. auto.
    + intros (p & mode & Hchild & Hp & ->).
      exists p, contents, mode. split; [|reflexivity].
      apply elem_of_children. auto.
  - intros p f Hchild Hp Hin Hname. unfold filesIn in Hin.
    apply elem_of_regularFiles in Hin.
    destruct Hin as (p' & contents & mode & Hin & ->). simpl in Hname.
    apply elem_of_children in Hin. destruct Hin as [Hp' Hchild'].
    apply isChild_join in Hchild, Hchild'.
    rewrite Hname, Hchild in Hchild'. subst p'. congruence.
Qed.

Lemma GetFiles_skips_directories_witness :
  exists files s',
    GetFiles ReturnFiles UploadExamples.demoAgent UploadExamples.demoEnv
      UploadExamples.demoState
      = (Ok (UploadExamples.connectedAgent, (files, None)), s') /\
    files = filesIn "returned" (remote UploadExamples.demoState) /\
    (forall name contents,
       In {| Filename := name; Contents := contents |} files <->
       exists p mode,
         isChild "returned" p = true /\
         remote UploadExamples.demoState !! p = Some (RegularFile contents mode) /\
         name = filepath_Base p) /\
    (forall p f,
       isChild "returned" p = true ->
       remote UploadExamples.demoState !! p = Some Directory ->
       In f files ->
       Filename f <> filepath_Base p).
Proof.
  apply (GetFiles_skips_directories ReturnFiles UploadExamples.demoAgent
           UploadExamples.demoEnv UploadExamples.demoState
           UploadExamples.connectedAgent (Some SFTPClient)
           UploadExamples.demoConnected).
  - vm_compute. reflexivity.
  - vm_compute. reflexivity.
  - intros h path. repeat split; reflexivity.
Defined.

(** The regression of issue 494: the subdirectory and the file below it
    are left out, the sibling file is returned. *)
Example GetReturnFiles_issue494 :
  fst (GetReturnFiles UploadExamples.demoAgent UploadExamples.demoEnv
         UploadExamples.demoState)
  = Ok (UploadExamples.connectedAgent, ([UploadExamples.returnFile], None)).
Proof. vm_compute. reflexivity. Qed.

(** C4.  Two consecutive calls of the same listing that both return
    without an error return the same files, names and contents alike, in
    the same order, and neither call has changed a file of the remote
    host. *)
Theorem GetFiles_idempotent l agent env s agent1 files1 s1 agent2 files2 s2 :
  GetFiles l agent env s = (Ok (agent1, (files1, None)), s1) ->
  GetFiles l agent1 env s1 = (Ok (agent2, (files2, None)), s2) ->
  files2 = files1 /\ remote s1 = remote s /\ remote s2 = remote s.
Proof.
  rewrite !GetFiles_readFiles. intros H1 H2.
  pose proof (readFiles_sameRemote agent (listingPath l agent) env s) as Hfs1.
  rewrite H1 in Hfs1. simpl in Hfs1.
  pose proof (readFiles_sameRemote agent1 (listingPath l agent1) env s1) as Hfs2.
  rewrite H2 in Hfs2. simpl in Hfs2. unfold sameRemote in *.
  apply readFiles_success in H1. destruct H1 as [-> Hcfg].
  apply readFiles_success in H2. destruct H2 as [-> _].
  assert (Hpath : listingPath l agent1 = listingPath l agent).
  { destruct l; unfold listingPath, InboundPath, ReconciliationPath, ReturnPath;
      rewrite Hcfg; reflexivity. }
  rewrite Hpath. split; [rewrite Hfs1; reflexivity|].
  split; [exact Hfs1 | congruence].
Qed.

Lemma GetFiles_idempotent_witness :
  [UploadExamples.returnFile] = [UploadExamples.returnFile] /\
  remote UploadExamples.demoListedOnce = remote UploadExamples.demoState /\
  remote UploadExamples.demoListedTwice = remote UploadExamples.demoState.
Proof.
  apply (GetFiles_idempotent ReturnFiles UploadExamples.demoAgent UploadExamples.demoEnv
           UploadExamples.demoState
           UploadExamples.connectedAgent [UploadExamples.returnFile]
           UploadExamples.demoListedOnce
           UploadExamples.connectedAgent [UploadExamples.returnFile]
           UploadExamples.demoListedTwice).
  - vm_compute. reflexivity.
  - vm_compute. reflexivity.
Defined.

Lemma Delete_absent_is_success_witness :
  (remote UploadExamples.demoState !! "/missing.txt" = None ->
   exists s',
     Delete UploadExamples.demoAgent "/missing.txt" UploadExamples.demoEnv
       UploadExamples.demoState
       = (Ok (UploadExamples.connectedAgent, None), s') /\
     remote s' = remote UploadExamples.demoState) /\
  (forall contents mode,
     remote UploadExamples.demoState !! "/missing.txt"
       = Some (RegularFile contents mode) ->
     (forall h, faults UploadExamples.demoEnv h (OpRemove "/missing.txt") = None) ->
     exists s',
       Delete UploadExamples.demoAgent "/missing.txt" UploadExamples.demoEnv
         UploadExamples.demoState
         = (Ok (UploadExamples.connectedAgent, None), s') /\
       remote s' !! "/missing.txt" = None /\
       remote s' = delete "/missing.txt" (remote UploadExamples.demoState)).
Proof.
  apply (Delete_absent_is_success UploadExamples.demoAgent "/missing.txt"
           UploadExamples.demoEnv UploadExamples.demoState
           UploadExamples.connectedAgent (Some SFTPClient)
           UploadExamples.demoConnected).
  - vm_compute. reflexivity.
  - intros h. reflexivity.
Defined.

(** The test of the missing path, and the removal of a file that is
    there. *)
Example Delete_missing :
  fst (Delete UploadExamples.demoAgent "/missing.txt" UploadExamples.demoEnv
         UploadExamples.demoState)
  = Ok (UploadExamples.connectedAgent, None).
Proof. vm_compute. reflexivity. Qed.

Example Delete_present :
  let r := Delete UploadExamples.demoAgent "returned/return-WEB.ach"
             UploadExamples.demoEnv UploadExamples.demoState in
  fst r = Ok (UploadExamples.connectedAgent, None) /\
  remote (snd r) !! "returned/return-WEB.ach" = None.
Proof. vm_compute. split; reflexivity. Qed.

(** *** A read that ends with the internal inconsistency *)

(** C5.  The code at the failing input: the return directory is listed
    over a transport that copies all 13 bytes of return-WEB.ach and then
    reports "internal inconsistency".  [readFiles] closes the handle and
    returns no file and the error of its second [return], the one under
    the test for that very text. *)
Theorem readFiles_internal_inconsistency_is_fatal :
  fst (GetReturnFiles UploadExamples.demoAgent
         (UploadExamples.envWith UploadExamples.inconsistentRead)
         UploadExamples.demoState)
  = Ok (UploadExamples.connectedAgent,
        ([], Some (errors_New
           "sftp: read (n=13) on return-WEB.ach: internal inconsistency"))).
Proof. vm_compute. reflexivity. Qed.

(** Whatever a failed download reports, the entry ends the listing with
    an error: both branches of the test on the error text return. *)
Lemma readEntries_read_error_is_fatal env dir p contents mode cs acc s flt :
  isChild dir p = true ->
  remote s !! p = Some (RegularFile contents mode) ->
  faults env (log s) (OpOpen p) = None ->
  faults env (OpOpen p :: log s) (OpFStat p) = None ->
  faults env (OpFStat p :: OpOpen p :: log s) (OpFRead p) = Some flt ->
  exists e s',
    readEntries dir (List.map entryInfo ((p, RegularFile contents mode) :: cs)) acc env s
    = (Ok ([], Some e), s').
Proof.
  intros Hchild Hp Hopen Hstat Hread.
  rewrite (readEntries_step _ _ _ _ _ Hchild).
  rewrite run_bind, run_client_Open, Hopen, Hp.
  rewrite run_bind, run_file_Stat. pushed. rewrite Hstat, Hp.
  cbn [infoOf IsDir isDirectory].
  rewrite run_bind, run_file_WriteTo. pushed. rewrite Hread, Hp.
  rewrite run_bind, run_file_Close.
  destruct (negb _); rewrite run_ret; eauto.
Qed.

(** *** Upload *)

Lemma run_file_ReadFrom (fd : string) data env s :
  file_ReadFrom fd data env s =
  match faults env (log s) (OpFWrite fd data) with
  | Some f => (Ok (moved f, Some (failure f)), pushLog (OpFWrite fd data) s)
  | None =>
      match remote s !! fd with
      | Some (RegularFile _ mode) =>
          (Ok (Z.of_nat (length data), None),
           setRemote (<[fd := RegularFile data mode]> (remote s))
             (pushLog (OpFWrite fd data) s))
      | _ => (Ok (0, Some errFailure), pushLog (OpFWrite fd data) s)
      end
  end.
Proof.
  unfold file_ReadFrom. run.
  destruct (faults env (log s) (OpFWrite fd data)); [reflexivity|].
  simpl. destruct (remote s !! fd) as [[? mode|]|]; reflexivity.
Qed.

Lemma run_file_Sync (fd : string) env s :
  file_Sync fd env s =
  (Ok (failure <$> faults env (log s) (OpFSync fd)), pushLog (OpFSync fd) s).
Proof. reflexivity. Qed.

Lemma run_file_Chmod (fd : string) mode env s :
  file_Chmod fd mode env s =
  match faults env (log s) (OpFChmod fd mode) with
  | Some f => (Ok (Some (failure f)), pushLog (OpFChmod fd mode) s)
  | None =>
      match remote s !! fd with
      | Some (RegularFile contents _) =>
          (Ok None,
           setRemote (<[fd := RegularFile contents mode]> (remote s))
             (pushLog (OpFChmod fd mode) s))
      | Some Directory => (Ok None, pushLog (OpFChmod fd mode) s)
      | None => (Ok (Some errNotExist), pushLog (OpFChmod fd mode) s)
      end
  end.
Proof.
  unfold file_Chmod. run.
  destruct (faults env (log s) (OpFChmod fd mode)); [reflexivity|].
  simpl. destruct (remote s !! fd) as [[contents ?|]|]; reflexivity.
Qed.

(** [UploadFile] up to the open handle: from there on its result is the
    result of [writeRemote], and the input is closed last. *)
Lemma UploadFile_after_open agent f env s agent1 c s1 s2 (fd : string) s3 r s4 :
  connection agent env s = (Ok (agent1, (c, None)), s1) ->
  ensureOutbound agent1 env s1 = (Ok None, s2) ->
  client_OpenFile
    (filepath_Join (Outbound (Paths (cfg agent1))) (filepath_Base (Filename f))) env s2
    = (Ok (inl fd), s3) ->
  writeRemote fd f env s3 = (Ok r, s4) ->
  UploadFile agent f env s = (Ok (agent1, r), pushLog (OpInputClose (Filename f)) s4).
Proof.
  intros Hconn Hdir Hopen Hwrite. unfold UploadFile, uploadBody.
  rewrite !run_bind, Hconn, run_bind, Hdir, run_bind, Hopen, run_bind, Hwrite.
  reflexivity.
Qed.

(** C6.  Once the remote handle is open on a regular file, the write,
    the sync, the chmod to 0600 and the close are requested in this
    order, and the first of them that fails decides the result: its
    error, wrapped, is what [UploadFile] returns.  A failed write is
    followed by a close of the handle and by nothing else.  A failed sync
    whose error text contains SSH_FX_OP_UNSUPPORTED counts as done; any
    other failed sync is returned and no chmod is requested after it.
    When write, sync and chmod are done, all four requests have been
    made, the remote file holds the contents with mode 0600, and the
    result is the outcome of the close. *)
Theorem writeRemote_first_error (fd : string) f env s contents mode :
  remote s !! fd = Some (RegularFile contents mode) ->
  let write := OpFWrite fd (Contents f) in
  let h1 := write :: log s in
  let h2 := OpFSync fd :: h1 in
  let h3 := OpFChmod fd 384 :: h2 in
  let r := fst (writeRemote fd f env s) in
  let s' := snd (writeRemote fd f env s) in
  (forall flt,
     faults env (log s) write = Some flt ->
     r = Ok (Some (errors_New ("sftp: problem copying (n=" +:+ fmt_d (moved flt) +:+ ") "
                               +:+ Filename f +:+ ": " +:+ Error (failure flt)))) /\
     log s' = OpFClose fd :: h1) /\
  (faults env (log s) write = None ->
   forall flt,
     faults env h1 (OpFSync fd) = Some flt ->
     Contains (Error (failure flt)) "SSH_FX_OP_UNSUPPORTED" = false ->
     r = Ok (Some (errors_New ("sftp: problem with sync on " +:+ Filename f
                               +:+ ": " +:+ Error (failure flt)))) /\
     exists ops, log s' = ops ++ log s /\ ~ In (OpFChmod fd 384) ops) /\
  (faults env (log s) write = None ->
   tolerated (faults env h1 (OpFSync fd)) = true ->
   forall flt,
     faults env h2 (OpFChmod fd 384) = Some flt ->
     r = Ok (Some (errors_New ("sftp: problem with chmod on " +:+ Filename f
                               +:+ ": " +:+ Error (failure flt))))) /\
  (faults env (log s) write = None ->
   tolerated (faults env h1 (OpFSync fd)) = true ->
   faults env h2 (OpFChmod fd 384) = None ->
   log s' = OpFClose fd :: h3 /\
   remote s' !! fd = Some (RegularFile (Contents f) 384) /\
   r = Ok match faults env h3 (OpFClose fd) with
          | Some flt =>
              Some (errors_New ("sftp: problem closing " +:+ Filename f
                                +:+ ": " +:+ Error (failure flt)))
          | None => None
          end).
Proof.
  intros Hfd write h1 h2 h3 r s'. subst r s' h3 h2 h1 write.
  unfold writeRemote. rewrite run_bind, run_file_ReadFrom.
  destruct (faults env (log s) (OpFWrite fd (Contents f))) as [fw|] eqn:Hw.
  { rewrite run_bind, run_file_Close, run_ret. normal.
    split; [|split; [|split]]; try discriminate.
    intros flt [= <-]. split; reflexivity. }
  rewrite Hfd, run_bind, run_file_Sync. normal.
  split; [discriminate|].
  assert (Hrest :
    forall s2,
      log s2 = OpFSync fd :: OpFWrite fd (Contents f) :: log s ->
      remote s2 !! fd = Some (RegularFile (Contents f) mode) ->
      let r := fst ((err ← file_Chmod fd 384;
                     match err with
                     | Some e =>
                         mret (Some (errors_New ("sftp: problem with chmod on "
                                 +:+ Filename f +:+ ": " +:+ Error e)))
                     | None =>
                         err ← file_Close fd;
                         match err with
                         | Some e =>
                             mret (Some (errors_New ("sftp: problem closing "
                                     +:+ Filename f +:+ ": " +:+ Error e)))
                         | None => mret None
                         end
                     end) env s2) in
      let s' := snd ((err ← file_Chmod fd 384;
                     match err with
                     | Some e =>
                         mret (Some (errors_New ("sftp: problem with chmod on "
                                 +:+ Filename f +:+ ": " +:+ Error e)))
                     | None =>
                         err ← file_Close fd;
                         match err with
                         | Some e =>
                             mret (Some (errors_New ("sftp: problem closing "
                                     +:+ Filename f +:+ ": " +:+ Error e)))
                         | None => mret None
                         end
                     end) env s2) in
      (forall flt,
         faults env (log s2) (OpFChmod fd 384) = Some flt ->
         r = Ok (Some (errors_New ("sftp: problem with chmod on " +:+ Filename f
                                   +:+ ": " +:+ Error (failure flt))))) /\
      (faults env (log s2) (OpFChmod fd 384) = None ->
       log s' = OpFClose fd :: OpFChmod fd 384 :: log s2 /\
       remote s' !! fd = Some (RegularFile (Contents f) 384) /\
       r = Ok match faults env (OpFChmod fd 384 :: log s2) (OpFClose fd) with
              | Some flt =>
                  Some (errors_New ("sftp: problem closing " +:+ Filename f
                                    +:+ ": " +:+ Error (failure flt)))
              | None => None
              end)).
  { intros s2 Hlog Hfile. rewrite run_bind, run_file_Chmod.
    destruct (faults env (log s2) (OpFChmod fd 384)) as [fc|] eqn:Hc.
    - rewrite run_ret. split; [|discriminate]. intros flt [= <-]. reflexivity.
    - rewrite Hfile, run_bind, run_file_Close. normal.
      split; [discriminate|]. intros _.
      destruct (faults env (OpFChmod fd 384 :: log s2) (OpFClose fd)) as [fcl|];
        cbn [fmap option_fmap option_map]; rewrite run_ret; cbn [fst snd]; normal;
        rewrite lookup_insert_eq; repeat split; reflexivity. }
  specialize (Hrest (pushLog (OpFSync fd)
                       (setRemote (<[fd:=RegularFile (Contents f) mode]> (remote s))
                          (pushLog (OpFWrite fd (Contents f)) s)))).
  normal. rewrite lookup_insert_eq in Hrest.
  specialize (Hrest eq_refl eq_refl). cbv zeta in Hrest.
  destruct Hrest as [Hchmod Hdone].
  destruct (faults env (OpFWrite fd (Contents f) :: log s) (OpFSync fd)) as [fs|] eqn:Hs;
    cbn [fmap option_fmap option_map tolerated].
  - destruct (Contains (Error (failure fs)) "SSH_FX_OP_UNSUPPORTED") eqn:Hun;
      cbn [negb].
    + split; [intros _ flt [= <-]; congruence|].
      split; [intros _ _; exact Hchmod | intros _ _; exact Hdone].
    + rewrite run_ret. split.
      * intros _ flt [= <-] _. split; [reflexivity|].
        exists [OpFSync fd; OpFWrite fd (Contents f)]. normal.
        split; [reflexivity|]. intros [H|[H|[]]]; discriminate.
      * split; intros _; discriminate.
  - split; [intros _ flt; discriminate|].
    split; [intros _ _; exact Hchmod | intros _ _; exact Hdone].
Qed.

Lemma writeRemote_first_error_witness :
  let run := writeRemote "outbound/20200529-131400.ach" UploadExamples.outgoing
               (UploadExamples.envWith UploadExamples.syncUnsupported)
               UploadExamples.openedState in
  log (snd run)
    = [OpFClose "outbound/20200529-131400.ach";
       OpFChmod "outbound/20200529-131400.ach" 384;
       OpFSync "outbound/20200529-131400.ach";
       OpFWrite "outbound/20200529-131400.ach" (Contents UploadExamples.outgoing)] /\
  remote (snd run) !! "outbound/20200529-131400.ach"
    = Some (RegularFile (Contents UploadExamples.outgoing) 384) /\
  fst run = Ok None.
Proof.
  assert (Hfd : remote UploadExamples.openedState !! "outbound/20200529-131400.ach"
                = Some (RegularFile [] 420)) by (vm_compute; reflexivity).
  pose proof (writeRemote_first_error "outbound/20200529-131400.ach"
                UploadExamples.outgoing
                (UploadExamples.envWith UploadExamples.syncUnsupported)
                UploadExamples.openedState [] 420 Hfd) as H.
  cbv zeta in H. destruct H as (_ & _ & _ & H).
  apply H; reflexivity.
Defined.

(** An upload to a server without sync: the four steps, mode 0600. *)
Example UploadFile_sync_unsupported :
  let run := UploadFile UploadExamples.demoAgent UploadExamples.outgoing
               (UploadExamples.envWith UploadExamples.syncUnsupported)
               UploadExamples.demoState in
  fst run = Ok (UploadExamples.connectedAgent, None) /\
  remote (snd run) !! "outbound/20200529-131400.ach"
    = Some (RegularFile (Contents UploadExamples.outgoing) 384) /\
  allStepsRan "outbound/20200529-131400.ach" (Contents UploadExamples.outgoing)
    (log (snd run)).
Proof.
  vm_compute. split; [reflexivity|]. split; [reflexivity|].
  repeat split; tauto.
Qed.

(** A failed write: the handle is closed, the copy error is returned. *)
Example UploadFile_write_fails :
  let run := UploadFile UploadExamples.demoAgent UploadExamples.outgoing
               (UploadExamples.envWith UploadExamples.writeFails)
               UploadExamples.demoState in
  fst run = Ok (UploadExamples.connectedAgent,
                Some (errors_New
                  "sftp: problem copying (n=4) ../../20200529-131400.ach: sftp: no space left")) /\
  In (OpFClose "outbound/20200529-131400.ach") (log (snd run)).
Proof. vm_compute. split; [reflexivity | tauto]. Qed.

(** The claim as the specification words it fails when the sync fails:
    the error of the sync is returned, and the run has requested neither
    the chmod nor the close, so the four steps have not all run. *)
Lemma UploadFile_sync_failure_ends_upload :
  let run := UploadFile UploadExamples.demoAgent UploadExamples.outgoing
               (UploadExamples.envWith UploadExamples.syncFails)
               UploadExamples.demoState in
  fst run = Ok (UploadExamples.connectedAgent,
                Some (errors_New
                  "sftp: problem with sync on ../../20200529-131400.ach: sftp: connection lost")) /\
  ~ allStepsRan "outbound/20200529-131400.ach" (Contents UploadExamples.outgoing)
      (log (snd run)).
Proof.
  split; [vm_compute; reflexivity|].
  unfold allStepsRan. intros H. vm_compute in H.
  destruct H as (_ & _ & H & _).
  repeat (destruct H as [H|H]; [discriminate|]). exact H.
Qed.

(** *** Which credential is offered *)

Lemma respects_at {A} env R (m : M A) : respects R m -> respectsAt env R m.
Proof. intros H s. apply H. Qed.

Lemma respectsAt_bind {A B} env R `{!PreOrder R} (m : M A) (k : A -> M B) :
  respectsAt env R m -> (forall a, respectsAt env R (k a)) ->
  respectsAt env R (m ≫= k).
Proof.
  intros Hm Hk s. rewrite run_bind.
  specialize (Hm s). destruct (m env s) as [[a|msg] s1]; simpl in *.
  - etransitivity; [exact Hm | apply Hk].
  - exact Hm.
Qed.

(** A computation that only computes a value passes it on. *)
Lemma respectsAt_bind_pure {A B} env R (m : M A) (k : A -> M B) a :
  (forall s, m env s = (Ok a, s)) ->
  respectsAt env R (k a) ->
  respectsAt env R (m ≫= k).
Proof. intros Hm Hk s. rewrite run_bind, Hm. apply Hk. Qed.

#[local] Instance logGrows_preorder P : PreOrder (logGrows P).
Proof.
  split.
  - intros s. exists []. split; [reflexivity | constructor].
  - intros s1 s2 s3 (ops1 & H1 & F1) (ops2 & H2 & F2).
    exists (ops2 ++ ops1). split.
    + rewrite H2, H1, app_assoc. reflexivity.
    + apply Forall_app. split; assumption.
Qed.

Lemma logGrows_weaken (P Q : Op -> Prop) s s' :
  (forall op, P op -> Q op) -> logGrows P s s' -> logGrows Q s s'.
Proof.
  intros HPQ (ops & Hlog & HP). exists ops. split; [exact Hlog|].
  eapply Forall_impl; eauto.
Qed.

Ltac grows_leaf :=
  intros ?;
  first
    [ exists []; split; [reflexivity | constructor]
    | eexists [_]; split;
      [ reflexivity | constructor; [simpl; auto | constructor] ] ].

Lemma dialLoop_dialsWith n i sftp conf c err :
  respects (logGrows (dialsWith (Auth conf))) (dialLoop n i sftp conf c err).
Proof.
  revert i c err. induction n as [|n IH]; intros i c err; cbn [dialLoop].
  - apply respects_ret, _.
  - unfold ssh_Dial. respects_walk grows_leaf ltac:(apply IH).
Qed.

Lemma chooseHostKey_noDial sftp : respects (logGrows noDial) (chooseHostKey sftp).
Proof.
  unfold chooseHostKey, hostKeyCallbackOnce_Do, hostKeyCallback.
  respects_walk grows_leaf fail.
Qed.

Lemma openSession_noDial c : respects (logGrows noDial) (openSession c).
Proof.
  unfold openSession, closeInBackground, conn_Close.
  respects_walk grows_leaf fail.
Qed.

Lemma noDial_dialsWith auth op : noDial op -> dialsWith auth op.
Proof. destruct op; simpl; tauto. Qed.

Lemma run_readSigner raw env s :
  readSigner raw env s = (Ok (parseSigner env raw), s).
Proof.
  unfold readSigner, parseSigner. rewrite run_bind. cbn [ask].
  destruct (base64_DecodeString env raw) as [decoded [e|]]; [reflexivity|].
  destruct (0 <? Z.of_nat (String.length decoded)); reflexivity.
Qed.

(** After the credential has been chosen: the dial loop and the session. *)
Lemma dial_and_session_dialsWith env sftp conf :
  respectsAt env (logGrows (dialsWith (Auth conf)))
    ('(client, err) ← dialLoop 3 0 sftp conf None None;
     match client, err with
     | None, Some err => mret (None, Some (errors_New ("sftpConnect: " +:+ Error err)))
     | None, None => panic "nil pointer dereference"
     | Some c, _ => openSession c
     end).
Proof.
  apply respects_at.
  apply respects_bind; [apply _ | apply dialLoop_dialsWith |].
  intros [[c|] [e|]];
    first [ apply respects_ret, _ | apply respects_panic, _
          | intros env' s; eapply logGrows_weaken;
            [apply noDial_dialsWith | apply openSession_noDial] ].
Qed.

Lemma chooseHostKey_dialsWith env auth sftp :
  respectsAt env (logGrows (dialsWith auth)) (chooseHostKey sftp).
Proof.
  intros s. eapply logGrows_weaken;
    [apply noDial_dialsWith | apply chooseHostKey_noDial].
Qed.

Lemma eqb_empty_false (x : string) : x <> "" -> String.eqb x "" = false.
Proof. intros H. apply String.eqb_neq. exact H. Qed.

Lemma sftpConnect_password cfg sftp env s :
  SFTP cfg = Some sftp ->
  Password sftp <> "" ->
  logGrows (dialsWith [ssh_Password (Password sftp)]) s (snd (sftpConnect cfg env s)).
Proof.
  intros Hcfg Hpw. revert s. change (respectsAt env
    (logGrows (dialsWith [ssh_Password (Password sftp)])) (sftpConnect cfg)).
  unfold sftpConnect. rewrite Hcfg.
  apply respectsAt_bind; [apply _ | apply chooseHostKey_dialsWith |].
  intros [hostKey|e]; [|intros s; simpl; reflexivity].
  unfold chooseAuth. rewrite (eqb_empty_false _ Hpw). cbn [negb].
  eapply respectsAt_bind_pure; [intros s; reflexivity|].
  cbv beta iota.
  exact (dial_and_session_dialsWith env sftp
           {| User := Username sftp; Auth := [ssh_Password (Password sftp)];
              HostKey := hostKey; DialTimeout := Timeout sftp |}).
Qed.

Lemma sftpConnect_private_key cfg sftp env s signer :
  SFTP cfg = Some sftp ->
  Password sftp = "" ->
  ClientPrivateKey sftp <> "" ->
  parseSigner env (ClientPrivateKey sftp) = inl signer ->
  logGrows (dialsWith [ssh_PublicKeys signer]) s (snd (sftpConnect cfg env s)).
Proof.
  intros Hcfg Hpw Hkey Hsigner. revert s. change (respectsAt env
    (logGrows (dialsWith [ssh_PublicKeys signer])) (sftpConnect cfg)).
  unfold sftpConnect. rewrite Hcfg.
  apply respectsAt_bind; [apply _ | apply chooseHostKey_dialsWith |].
  intros [hostKey|e]; [|intros s; simpl; reflexivity].
  unfold chooseAuth. rewrite Hpw, (eqb_empty_false _ Hkey). cbn [negb String.eqb].
  eapply respectsAt_bind_pure.
  { intros s. rewrite run_bind, run_readSigner, Hsigner. reflexivity. }
  cbv beta iota.
  exact (dial_and_session_dialsWith env sftp
           {| User := Username sftp; Auth := [ssh_PublicKeys signer];
              HostKey := hostKey; DialTimeout := Timeout sftp |}).
Qed.

(** Without a usable credential [sftpConnect] returns an error before
    anything is dialled. *)
Lemma sftpConnect_no_credential cfg sftp env s :
  SFTP cfg = Some sftp ->
  Password sftp = "" ->
  (ClientPrivateKey sftp = "" \/
   exists e, parseSigner env (ClientPrivateKey sftp) = inr e) ->
  exists e s',
    sftpConnect cfg env s = (Ok (None, Some e), s') /\ logGrows noDial s s'.
Proof.
  intros Hcfg Hpw Hkey. unfold sftpConnect. rewrite Hcfg, run_bind.
  pose proof (chooseHostKey_noDial sftp env s) as Hgrow.
  destruct (chooseHostKey sftp env s) as [[[hostKey|e]|msg] s1] eqn:Hhk.
  - unfold chooseAuth. rewrite Hpw. cbn [negb String.eqb].
    destruct (String.eqb (ClientPrivateKey sftp) "") eqn:Hempty; cbn [negb].
    + rewrite run_bind, run_ret, run_ret. eauto.
    + destruct Hkey as [Hkey|[e Hkey]].
      { rewrite Hkey in Hempty. discriminate. }
      rewrite !run_bind, run_readSigner, Hkey, run_ret, run_ret. eauto.
  - rewrite run_ret. eauto.
  - exfalso. revert Hhk. unfold chooseHostKey, hostKeyCallbackOnce_Do, hostKeyCallback.
    run. destruct (negb _); [destruct (sshx_ReadPubKey _ _); discriminate|].
    destruct (hostKeyCallbackOnce s); discriminate.
Qed.

Lemma newSFTPTransferAgent_no_credential config sftp env s :
  SFTP config = Some sftp ->
  Password sftp = "" ->
  ClientPrivateKey sftp = "" ->
  exists agent e, fst (newSFTPTransferAgent (Some config) env s) = Ok (agent, Some e).
Proof.
  intros Hcfg Hpw Hkey. unfold newSFTPTransferAgent. rewrite Hcfg, run_bind.
  cbn [ask]. destruct (rejectOutboundIPRange env _ _) as [e|].
  { rewrite run_ret. eauto. }
  rewrite run_bind. unfold connection. cbn [client cfg].
  repeat (rewrite run_bind || rewrite run_ret).
  destruct (sftpConnect_no_credential config sftp env s Hcfg Hpw (or_introl Hkey))
    as (e & s1 & Hrun & _).
  rewrite Hrun. repeat (rewrite run_bind || rewrite run_ret).
  unfold record. cbn [cfg]. rewrite Hcfg.
  cbn [modify]. rewrite run_ret. cbn [fst]. eauto.
Qed.

(** With a usable host key the check is chosen, and nothing is dialled
    on the way. *)
Lemma chooseHostKey_usable env sftp s :
  hostKeyUsable env sftp ->
  exists hostKey s1,
    chooseHostKey sftp env s = (Ok (inl hostKey), s1) /\ logGrows noDial s s1.
Proof.
  intros Husable.
  pose proof (chooseHostKey_noDial sftp env s) as Hgrow. revert Hgrow.
  unfold chooseHostKey. rewrite run_bind. cbn [ask].
  destruct (String.eqb (HostPublicKey sftp) "") eqn:Hempty; cbn [negb].
  - unfold hostKeyCallbackOnce_Do, hostKeyCallback.
    rewrite !run_bind. cbn [get].
    destruct (hostKeyCallbackOnce s).
    + rewrite !run_ret. eauto.
    + rewrite run_bind. cbn [modify]. unfold emit. cbn [modify]. rewrite run_ret. eauto.
  - destruct Husable as [Hnone | [key Hkey]].
    + rewrite Hnone in Hempty. discriminate.
    + rewrite Hkey, run_ret. eauto.
Qed.

(** The dial loop dials, and its first dial gives the client when it is
    answered. *)
Lemma dialLoop_dials sftp conf env s :
  let run := dialLoop 3 0 sftp conf None None env s in
  (exists ops,
     log (snd run) = ops ++ log s /\ In (OpDial (Hostname sftp) conf) ops) /\
  (faults env (log s) (OpDial (Hostname sftp) conf) = None ->
   exists s1, run = (Ok (Some SSHClient, None), s1)).
Proof.
  cbv zeta. unfold dialLoop, ssh_Dial. run.
  set (dial := OpDial (Hostname sftp) conf).
  destruct (faults env (log s) dial) as [f0|]; simpl.
  - split; [|discriminate].
    destruct (faults env (OpSleep 250 :: dial :: log s) dial) as [f1|]; simpl.
    + destruct (faults env (OpSleep 250 :: dial :: OpSleep 250 :: dial :: log s) dial);
        simpl;
        exists [OpSleep 250; dial; OpSleep 250; dial; OpSleep 250; dial];
        (split; [reflexivity | simpl; auto]).
    + exists [OpSleep 250; dial; OpSleep 250; dial]. split; [reflexivity | simpl; auto].
  - split; [|eauto].
    exists [OpSleep 250; dial]. split; [reflexivity | simpl; auto].
Qed.

(** After the credential has been chosen: the host is dialled with it,
    and a server that answers gives the client. *)
Lemma dial_and_session_attempts env sftp conf s :
  let run :=
    ('(client, err) ← dialLoop 3 0 sftp conf None None;
     match client, err with
     | None, Some err => mret (None, Some (errors_New ("sftpConnect: " +:+ Error err)))
     | None, None => panic "nil pointer dereference"
     | Some c, _ => openSession c
     end) env s in
  (exists ops,
     log (snd run) = ops ++ log s /\ In (OpDial (Hostname sftp) conf) ops) /\
  (answersAll env -> exists s1, run = (Ok (Some SSHClient, None), s1)).
Proof.
  cbv zeta. rewrite run_bind.
  destruct (dialLoop_dials sftp conf env s) as [(ops & Hlog & Hin) Hfirst].
  split.
  - destruct (dialLoop 3 0 sftp conf None None env s) as [[[[c|] [e|]]|msg] s1];
      cbn [snd] in Hlog; try (rewrite ?run_ret; cbn [snd]; eauto).
    + destruct (openSession_noDial c env s1) as (ops' & Hlog' & _).
      exists (ops' ++ ops). split; [rewrite Hlog', Hlog, app_assoc; reflexivity|].
      apply in_or_app. right. exact Hin.
    + destruct (openSession_noDial c env s1) as (ops' & Hlog' & _).
      exists (ops' ++ ops). split; [rewrite Hlog', Hlog, app_assoc; reflexivity|].
      apply in_or_app. right. exact Hin.
  - intros Hans. destruct (Hfirst (Hans _ _)) as (s1 & ->).
    unfold openSession. rewrite run_bind, run_perform, Hans.
    cbn [fmap option_fmap option_map].
    rewrite run_bind, run_perform, Hans. cbn [fmap option_fmap option_map].
    rewrite run_bind, run_perform, Hans. cbn [fmap option_fmap option_map].
    rewrite run_bind, run_perform, Hans. cbn [fmap option_fmap option_map].
    rewrite run_ret. eauto.
Qed.

(** With a usable host key and a credential that [chooseAuth] accepts,
    [sftpConnect] dials with that credential, and a server that answers
    gives the client. *)
Lemma sftpConnect_attempts cfg sftp env s auth :
  SFTP cfg = Some sftp ->
  hostKeyUsable env sftp ->
  (forall s1, chooseAuth sftp env s1 = (Ok (inl auth), s1)) ->
  attempts (Hostname sftp) auth s (snd (sftpConnect cfg env s)) /\
  (answersAll env -> exists s1, sftpConnect cfg env s = (Ok (Some SSHClient, None), s1)).
Proof.
  intros Hcfg Husable Hauth. unfold sftpConnect. rewrite Hcfg, run_bind.
  destruct (chooseHostKey_usable env sftp s Husable) as (hostKey & s1 & -> & Hpre).
  rewrite run_bind, Hauth. cbv zeta.
  pose proof (dial_and_session_attempts env sftp
                {| User := Username sftp; Auth := auth;
                   HostKey := hostKey; DialTimeout := Timeout sftp |} s1) as H.
  cbv zeta in H. destruct H as [(ops & Hlog & Hin) Hans].
  split; [|exact Hans].
  destruct Hpre as (ops1 & Hlog1 & _).
  exists (ops ++ ops1), {| User := Username sftp; Auth := auth;
                           HostKey := hostKey; DialTimeout := Timeout sftp |}.
  split; [|split; [apply in_or_app; left; exact Hin | reflexivity]].
  etransitivity; [exact Hlog|]. rewrite Hlog1, app_assoc. reflexivity.
Qed.

Lemma chooseAuth_password sftp env s :
  Password sftp <> "" ->
  chooseAuth sftp env s = (Ok (inl [ssh_Password (Password sftp)]), s).
Proof.
  intros Hpw. unfold chooseAuth. rewrite (eqb_empty_false _ Hpw). reflexivity.
Qed.

Lemma chooseAuth_private_key sftp env s signer :
  Password sftp = "" ->
  ClientPrivateKey sftp <> "" ->
  parseSigner env (ClientPrivateKey sftp) = inl signer ->
  chooseAuth sftp env s = (Ok (inl [ssh_PublicKeys signer]), s).
Proof.
  intros Hpw Hkey Hsigner. unfold chooseAuth.
  rewrite Hpw, (eqb_empty_false _ Hkey). cbn [negb String.eqb].
  rewrite run_bind, run_readSigner, Hsigner. reflexivity.
Qed.

(** Once [sftpConnect] gives a client on a server that answers, the
    agent is constructed without an error. *)
Lemma newSFTPTransferAgent_answered config sftp env s :
  SFTP config = Some sftp ->
  answersAll env ->
  rejectOutboundIPRange env (SplitAllowedIPs config) (Hostname sftp) = None ->
  (exists s1, sftpConnect config env s = (Ok (Some SSHClient, None), s1)) ->
  fst (newSFTPTransferAgent (Some config) env s)
  = Ok (Some {| conn := Some SSHClient; client := Some SFTPClient; cfg := config |}, None).
Proof.
  intros Hcfg Hans Hallowed (s1 & Hrun).
  unfold newSFTPTransferAgent. rewrite Hcfg, run_bind. cbn [ask]. rewrite Hallowed.
  rewrite run_bind. unfold connection. cbn [client cfg].
  repeat (rewrite run_bind || rewrite run_ret).
  rewrite Hrun. cbn [cfg]. rewrite Hcfg.
  rewrite run_bind, run_perform, Hans. cbn [fmap option_fmap option_map].
  rewrite run_ret, run_bind. unfold record. cbn [cfg]. rewrite Hcfg.
  cbn [modify]. rewrite run_ret. reflexivity.
Qed.

(** C7.  Which credential [sftpConnect] offers.  A non-empty password
    is offered, alone, on every dial, whether or not a private key is
    configured as well; once the host key check is chosen the host is
    dialled with it, and on a server that answers every request the
    agent is constructed without an error.  With an empty password and a
    non-empty private key, the key is offered, alone, on every dial when
    it can be read, and the host is dialled with it once the host key
    check is chosen; an error is returned without a dial when the key
    cannot be read.  With neither, [sftpConnect] returns an error
    without a dial and the construction of the agent returns an
    error. *)
Theorem sftpConnect_auth_selection cfg sftp env s :
  SFTP cfg = Some sftp ->
  let r := fst (sftpConnect cfg env s) in
  let s' := snd (sftpConnect cfg env s) in
  (Password sftp <> "" ->
   logGrows (dialsWith [ssh_Password (Password sftp)]) s s' /\
   (hostKeyUsable env sftp ->
    attempts (Hostname sftp) [ssh_Password (Password sftp)] s s' /\
    (answersAll env ->
     rejectOutboundIPRange env (SplitAllowedIPs cfg) (Hostname sftp) = None ->
     fst (newSFTPTransferAgent (Some cfg) env s)
     = Ok (Some {| conn := Some SSHClient; client := Some SFTPClient; cfg := cfg |},
           None)))) /\
  (Password sftp = "" -> ClientPrivateKey sftp <> "" ->
   match parseSigner env (ClientPrivateKey sftp) with
   | inl signer =>
       logGrows (dialsWith [ssh_PublicKeys signer]) s s' /\
       (hostKeyUsable env sftp ->
        attempts (Hostname sftp) [ssh_PublicKeys signer] s s')
   | inr _ => (exists e, r = Ok (None, Some e)) /\ logGrows noDial s s'
   end) /\
  (Password sftp = "" -> ClientPrivateKey sftp = "" ->
   (exists e, r = Ok (None, Some e)) /\
   logGrows noDial s s' /\
   exists agent e, fst (newSFTPTransferAgent (Some cfg) env s) = Ok (agent, Some e)).
Proof.
  intros Hcfg r s'. subst r s'. split; [|split].
  - intros Hpw. split; [apply sftpConnect_password; assumption|].
    intros Husable.
    destruct (sftpConnect_attempts cfg sftp env s [ssh_Password (Password sftp)]
                Hcfg Husable (fun s1 => chooseAuth_password sftp env s1 Hpw))
      as [Hdial Hclient].
    split; [exact Hdial|].
    intros Hans Hallowed.
    apply newSFTPTransferAgent_answered with (sftp := sftp); auto.
  - intros Hpw Hkey.
    destruct (parseSigner env (ClientPrivateKey sftp)) as [signer|e] eqn:Hsigner.
    + split; [apply sftpConnect_private_key with (sftp := sftp); assumption|].
      intros Husable.
      apply (sftpConnect_attempts cfg sftp env s [ssh_PublicKeys signer] Hcfg Husable).
      intros s1. apply chooseAuth_private_key; assumption.
    + destruct (sftpConnect_no_credential cfg sftp env s Hcfg Hpw)
        as (e' & s1 & Hrun & Hgrow); [right; eauto|].
      rewrite Hrun. split; [eauto | exact Hgrow].
  - intros Hpw Hkey.
    destruct (sftpConnect_no_credential cfg sftp env s Hcfg Hpw (or_introl Hkey))
      as (e & s1 & Hrun & Hgrow).
    rewrite Hrun. split; [eauto|]. split; [exact Hgrow|].
    apply newSFTPTransferAgent_no_credential with (sftp := sftp); assumption.
Qed.

Lemma sftpConnect_auth_selection_witness :
  attempts "sftp.bank.com:22" [ssh_Password "password"] UploadExamples.demoState
    (snd (sftpConnect UploadExamples.bothCredentials UploadExamples.demoEnv
            UploadExamples.demoState)) /\
  fst (newSFTPTransferAgent (Some UploadExamples.bothCredentials)
         UploadExamples.demoEnv UploadExamples.demoState)
  = Ok (Some {| conn := Some SSHClient; client := Some SFTPClient;
                cfg := UploadExamples.bothCredentials |}, None).
Proof.
  pose proof (sftpConnect_auth_selection UploadExamples.bothCredentials
                {| Hostname := "sftp.bank.com:22"; Username := "moov";
                   Password := "password"; ClientPrivateKey := "PRIVATE KEY";
                   HostPublicKey := ""; SkipDirectoryCreation := false;
                   Timeout := 10000; MaxConnections := 8; PacketSize := 20480 |}
                UploadExamples.demoEnv UploadExamples.demoState eq_refl) as H.
  cbv zeta in H. destruct H as (H & _).
  destruct (H ltac:(discriminate)) as (_ & Hattempt).
  destruct (Hattempt (or_introl eq_refl)) as (Hdial & Hnew).
  split; [exact Hdial|].
  apply Hnew; [intros h op; reflexivity | reflexivity].
Defined.

(** The claim as the specification words it fails for a configuration
    with both credentials: the agent is constructed without an error, and
    the dial offers the password. *)
Lemma both_credentials_construct :
  let run := newSFTPTransferAgent (Some UploadExamples.bothCredentials)
               UploadExamples.demoEnv UploadExamples.demoState in
  fst run = Ok (Some {| conn := Some SSHClient; client := Some SFTPClient;
                        cfg := UploadExamples.bothCredentials |}, None) /\
  In (OpDial "sftp.bank.com:22"
        {| User := "moov"; Auth := [ssh_Password "password"];
           HostKey := ssh_InsecureIgnoreHostKey; DialTimeout := 10000 |})
     (log (snd run)).
Proof.
  split; [vm_compute; reflexivity|].
  vm_compute. tauto.
Qed.

(** Neither credential: the construction fails, nothing is dialled. *)
Example no_credentials_fail :
  let run := newSFTPTransferAgent (Some UploadExamples.noCredentials)
               UploadExamples.demoEnv UploadExamples.demoState in
  fst run = Ok (Some {| conn := None; client := None;
                        cfg := UploadExamples.noCredentials |},
                Some (errors_New "upload: sftpConnect: no auth method provided")) /\
  log (snd run) = [OpWarn hostKeyWarning].
Proof. vm_compute. split; reflexivity. Qed.

(** *** The warning about the host key is logged once *)

#[local] Instance latchStep_preorder : PreOrder latchStep.
Proof.
  split.
  - intros s. unfold latchStep. split; [auto|].
    destruct (hostKeyCallbackOnce s); lia.
  - intros s1 s2 s3 [L12 W12] [L23 W23]. unfold latchStep in *. split; [auto|].
    rewrite W23, W12.
    destruct (hostKeyCallbackOnce s1), (hostKeyCallbackOnce s2),
      (hostKeyCallbackOnce s3); try lia;
      try (specialize (L12 eq_refl); discriminate);
      try (specialize (L23 eq_refl); discriminate).
Qed.

Lemma latchStep_same s s' :
  hostKeyCallbackOnce s' = hostKeyCallbackOnce s ->
  warnings s' = warnings s ->
  latchStep s s'.
Proof.
  intros Hl Hw. unfold latchStep. rewrite Hl, Hw. split; [auto|].
  destruct (hostKeyCallbackOnce s); lia.
Qed.

Ltac latch_leaf := intros ?; apply latchStep_same; reflexivity.

Lemma hostKeyCallbackOnce_latch :
  respects latchStep (hostKeyCallbackOnce_Do hostKeyCallback).
Proof.
  intros env s. unfold hostKeyCallbackOnce_Do, hostKeyCallback. run.
  destruct (hostKeyCallbackOnce s) eqn:Hl; simpl.
  - apply latchStep_same; reflexivity.
  - unfold latchStep. simpl. rewrite Hl. split; [discriminate|].
    unfold warnings. simpl. lia.
Qed.

Lemma dialLoop_latch n i sftp conf c err :
  respects latchStep (dialLoop n i sftp conf c err).
Proof.
  revert i c err. induction n as [|n IH]; intros i c err; cbn [dialLoop].
  - apply respects_ret, _.
  - unfold ssh_Dial. respects_walk latch_leaf ltac:(apply IH).
Qed.

Lemma sftpConnect_latch config : respects latchStep (sftpConnect config).
Proof.
  unfold sftpConnect, chooseHostKey, chooseAuth, readSigner, openSession,
    closeInBackground, conn_Close.
  respects_walk latch_leaf
    ltac:(first [apply hostKeyCallbackOnce_latch | apply dialLoop_latch]).
Qed.

Lemma connection_latch agent : respects latchStep (connection agent).
Proof.
  unfold connection, client_Getwd, client_Close, closeInBackground, conn_Close.
  respects_walk latch_leaf ltac:(apply sftpConnect_latch).
Qed.

Lemma record_latch agent err : respects latchStep (record agent err).
Proof. unfold record. respects_walk latch_leaf fail. Qed.

Lemma newSFTPTransferAgent_latch config :
  respects latchStep (newSFTPTransferAgent config).
Proof.
  unfold newSFTPTransferAgent.
  respects_walk latch_leaf
    ltac:(first [apply connection_latch | apply record_latch]).
Qed.

Lemma Ping_latch agent : respects latchStep (Ping agent).
Proof.
  unfold Ping, client_ReadDir.
  respects_walk latch_leaf
    ltac:(first [apply connection_latch | apply record_latch]).
Qed.

Lemma Close_latch agent : respects latchStep (Close agent).
Proof.
  unfold Close, client_Close, conn_Close. respects_walk latch_leaf fail.
Qed.

Lemma Delete_latch agent path : respects latchStep (Delete agent path).
Proof.
  unfold Delete, client_Stat, client_Remove.
  respects_walk latch_leaf ltac:(apply connection_latch).
Qed.

Lemma UploadFile_latch agent f : respects latchStep (UploadFile agent f).
Proof.
  unfold UploadFile, uploadBody, ensureOutbound, writeRemote, client_Stat,
    client_Mkdir, client_OpenFile, file_ReadFrom, file_Sync, file_Chmod, file_Close.
  respects_walk latch_leaf ltac:(apply connection_latch).
Qed.

Lemma readEntries_latch dir infos :
  forall acc, respects latchStep (readEntries dir infos acc).
Proof.
  induction infos as [|entry infos IH]; intros acc; cbn [readEntries].
  - apply respects_ret, _.
  - unfold client_Open, file_Stat, file_WriteTo, file_Close.
    respects_walk latch_leaf ltac:(apply IH).
Qed.

Lemma readFiles_latch agent dir : respects latchStep (readFiles agent dir).
Proof.
  unfold readFiles, client_ReadDir.
  respects_walk latch_leaf
    ltac:(first [apply connection_latch | apply readEntries_latch]).
Qed.

Lemma runCall_latch call env s : latchStep s (runCall call env s).
Proof.
  destruct call; cbn [runCall].
  - apply sftpConnect_latch.
  - apply newSFTPTransferAgent_latch.
  - apply Ping_latch.
  - apply Close_latch.
  - apply Delete_latch.
  - apply UploadFile_latch.
  - rewrite GetFiles_readFiles. apply readFiles_latch.
Qed.

Lemma lifetime_latch env calls : forall s, latchStep s (lifetime env calls s).
Proof.
  induction calls as [|call calls IH]; intros s; cbn [lifetime fold_left].
  - reflexivity.
  - etransitivity; [apply runCall_latch | apply IH].
Qed.

(** C9.  Over the lifetime of a process, however many connections and
    agents it makes and whatever it does with them, the warning about the
    skipped host key validation is logged at most once; and from any
    moment at which the latch has fired, no later call logs it again. *)
Theorem hostKey_warning_at_most_once env fs calls :
  (warnings (lifetime env calls (initialState fs)) <= 1)%nat /\
  (forall s,
     hostKeyCallbackOnce s = true ->
     warnings (lifetime env calls s) = warnings s).
Proof.
  split.
  - destruct (lifetime_latch env calls (initialState fs)) as [_ Hw].
    rewrite Hw. change (warnings (initialState fs)) with 0%nat.
    change (hostKeyCallbackOnce (initialState fs)) with false. cbv iota.
    destruct (hostKeyCallbackOnce (lifetime env calls (initialState fs))); lia.
  - intros s Hfired. destruct (lifetime_latch env calls s) as [_ Hw].
    rewrite Hw, Hfired. lia.
Qed.

(** Three agents without a host key, listings in between: one warning. *)
Example three_agents_one_warning :
  warnings
    (lifetime UploadExamples.demoEnv
       [ CallNew (Some UploadExamples.demoCfg);
         CallGetFiles ReturnFiles UploadExamples.connectedAgent;
         CallNew (Some UploadExamples.bothCredentials);
         CallConnect UploadExamples.demoCfg;
         CallPing UploadExamples.demoAgent ]
       UploadExamples.demoState) = 1%nat.
Proof. vm_compute. reflexivity. Qed.

End UploadProofs.

(** ** The ODFI processor *)

Module OdfiProofs.
Import Go Odfi OdfiExamples.
Local Open Scope list_scope.

(** The identity of TestProcessor. *)
Example hash_invalid_ach : hash "invalid-ach-file" = "7ffdca32898fc89e5e680d0a01e9e1c2a1cd2717".
Proof. vm_compute. reflexivity. Qed.

(** Forty hexadecimal digits, whatever is hashed. *)
Lemma hash_length data : String.length (hash data) = 40%nat.
Proof.
  unfold hash, Sha1.hex. destruct (Sha1.sum data) as [[[[h0 h1] h2] h3] h4].
  reflexivity.
Qed.

Lemma hash_nonempty data : hash data <> "".
Proof.
  intros H. pose proof (hash_length data) as Hlen. rewrite H in Hlen. discriminate.
Qed.

(** C1.  For every parsed payment file, with a valid file header or
    without one, [populateHashes] gives each entry of each batch the hash
    of the entry's serialized record as its identity, which is not
    empty; the records themselves are kept, and every batch keeps the
    identity it had. *)
Theorem populateHashes_identifies_entries file :
  (forall b e,
     In b (Batches (populateHashes file)) ->
     In e (batchEntries b) ->
     entryID e = hash (entryRecord e) /\ entryID e <> "") /\
  List.map (fun b => List.map entryRecord (batchEntries b))
    (Batches (populateHashes file))
  = List.map (fun b => List.map entryRecord (batchEntries b)) (Batches file) /\
  List.map batchID (Batches (populateHashes file))
  = List.map batchID (Batches file).
Proof.
  split; [|split].
  - intros b e Hb He. cbn [populateHashes Batches] in Hb.
    apply List.in_map_iff in Hb. destruct Hb as (b0 & <- & _).
    cbn [populateBatch batchEntries] in He.
    apply List.in_map_iff in He. destruct He as (e0 & <- & _).
    cbn [populateEntry entryID entryRecord].
    split; [reflexivity | apply hash_nonempty].
  - cbn [populateHashes Batches]. rewrite List.map_map.
    apply List.map_ext. intros b. cbn [populateBatch batchEntries].
    rewrite List.map_map. reflexivity.
  - cbn [populateHashes Batches]. rewrite List.map_map. reflexivity.
Qed.

(** The claim as the specification words it fails on a file like the one
    of TestProcessor_populateHashes: after [populateHashes] the identity
    of its first batch is still empty, while its first entry has one. *)
Lemma populateHashes_leaves_batch_identity_empty :
  (batchID <$> head (Batches (populateHashes forward))) = Some "" /\
  ~ (forall b, In b (Batches (populateHashes forward)) -> batchID b <> "").
Proof.
  split; [reflexivity|].
  intros H.
  apply (H (populateBatch {| batchID := ""; batchEntries := [forwardEntry] |})).
  - left. reflexivity.
  - reflexivity.
Qed.

(** *** Which files reach the processors *)

Lemma HandleAll_spec file procs :
  forall i st,
    audited (snd (HandleAll i procs file st)) = audited st /\
    handled (snd (HandleAll i procs file st))
    = handled st ++ List.map (fun j => (j, file)) (seq i (length procs)) /\
    ((forall p, In p procs -> p file = None) ->
     fst (HandleAll i procs file st) = []).
Proof.
  induction procs as [|p procs IH]; intros i st; cbn [HandleAll].
  - cbn. rewrite app_nil_r. auto.
  - specialize (IH (S i) {| audited := audited st; handled := handled st ++ [(i, file)] |}).
    destruct (HandleAll (S i) procs file _) as [errs st'].
    cbn [fst snd audited handled] in IH. destruct IH as (Ha & Hh & He).
    split; [|split].
    + destruct (p file); exact Ha.
    + assert (Hst : handled st' =
                    handled st ++ List.map (fun j => (j, file)) (seq i (length (p :: procs)))).
      { rewrite Hh. cbn [length seq List.map]. rewrite <- app_assoc. reflexivity. }
      destruct (p file); exact Hst.
    + intros Hall. rewrite (Hall p (or_introl eq_refl)). cbn [fst].
      apply He. intros q Hq. apply Hall. right. exact Hq.
Qed.

Lemma HasPrefix_append b c : HasPrefix (b +:+ c) b = true.
Proof.
  induction b as [|x b IH]; [destruct c; reflexivity|].
  change (String x b +:+ c) with (String x (b +:+ c)).
  cbn [HasPrefix]. rewrite Ascii.eqb_refl. exact IH.
Qed.

Lemma Contains_prefixed x sub : HasPrefix x sub = true -> Contains x sub = true.
Proof. intros H. destruct x; cbn [Contains]; rewrite H; reflexivity. Qed.

Lemma Contains_append a b c : Contains (a +:+ b +:+ c) b = true.
Proof.
  induction a as [|x a IH].
  - change ("" +:+ b +:+ c) with (b +:+ c).
    apply Contains_prefixed, HasPrefix_append.
  - change (String x a +:+ b +:+ c) with (String x (a +:+ b +:+ c)).
    cbn [Contains]. rewrite IH.
    match goal with |- (if ?t then _ else _) = _ => destruct t end; reflexivity.
Qed.

Lemma append_empty_r (a : string) : a +:+ "" = a.
Proof.
  induction a as [|x a IH]; [reflexivity|].
  change (String x a +:+ "") with (String x (a +:+ "")). rewrite IH. reflexivity.
Qed.

Lemma append_assoc3 (a b c : string) : (a +:+ b) +:+ c = a +:+ b +:+ c.
Proof.
  induction a as [|x a IH]; [reflexivity|].
  change (String x ((a +:+ b) +:+ c) = String x (a +:+ b +:+ c)).
  f_equal. exact IH.
Qed.

Lemma concat_carries a text rest :
  Contains (String.concat "; " ((a +:+ text) :: rest)) text = true.
Proof.
  destruct rest as [|r rs].
  - change (String.concat "; " [a +:+ text]) with (a +:+ text).
    replace (a +:+ text) with (a +:+ text +:+ "")
      by (rewrite append_empty_r; reflexivity).
    apply Contains_append.
  - change (String.concat "; " ((a +:+ text) :: r :: rs))
      with ((a +:+ text) +:+ "; " +:+ String.concat "; " (r :: rs)).
    rewrite append_assoc3. apply Contains_append.
Qed.

(** The error that joins a parse failure with the errors of the
    processors carries the text of the parser. *)
Lemma joinErrors_carries path text errs :
  exists e,
    joinErrors (errors_New ("problem parsing " +:+ path +:+ ": " +:+ text) :: errs) = Some e /\
    Contains (Error e) text = true.
Proof.
  eexists. split; [reflexivity|]. cbn [Error errors_New List.map].
  replace ("problem parsing " +:+ path +:+ ": " +:+ text)
    with (("problem parsing " +:+ path +:+ ": ") +:+ text)
    by (rewrite !append_assoc3; reflexivity).
  apply concat_carries.
Qed.

Lemma processFile_tolerated parse handsOn hostname procs path bytes st :
  (reportsMissingHeader (snd (parse bytes)) = true \/ snd (parse bytes) = []) ->
  let file := populateHashes {| ID := hash bytes; Batches := Batches (fst (parse bytes)) |} in
  let run := processFile parse handsOn hostname procs path bytes st in
  audited (snd run) = audited st ++ [(hash bytes, hostname)] /\
  ((forall p, In p procs -> p file = None) ->
   fst run = None /\
   handled (snd run)
   = handled st ++ List.map (fun j => (j, file)) (seq 0 (length procs))).
Proof.
  intros Herr file run. subst run. unfold processFile.
  destruct (parse bytes) as [parsed errs]. cbn [fst snd] in *.
  assert (Hfailure :
    (if reportsMissingHeader errs then None
     else match errs with
          | [] => None
          | _ :: _ =>
              Some (errors_New ("problem parsing " +:+ path +:+ ": "
                                +:+ parseErrorsText errs))
          end) = None).
  { destruct Herr as [-> | ->]; reflexivity. }
  rewrite Hfailure. cbv iota. fold file.
  pose proof (HandleAll_spec file procs 0
                {| audited := audited st ++ [(ID file, hostname)];
                   handled := handled st |}) as H.
  destruct (HandleAll 0 procs file _) as [errs' st'].
  cbn [fst snd audited handled] in *. destruct H as (Ha & Hh & He).
  split; [exact Ha|].
  intros Hall. rewrite (He Hall). split; [reflexivity | exact Hh].
Qed.

Lemma processEntries_tolerated parse handsOn dir hostname procs entries :
  (forall name bytes,
     In (StagedFile name bytes) entries ->
     reportsMissingHeader (snd (parse bytes)) = true \/ snd (parse bytes) = []) ->
  (forall p file, In p procs -> p file = None) ->
  forall st, fst (processEntries parse handsOn dir hostname procs entries st) = [].
Proof.
  intros Hparse Hprocs. induction entries as [|[name bytes|name] entries IH];
    intros st; cbn [processEntries].
  - reflexivity.
  - pose proof (processFile_tolerated parse handsOn hostname procs
                  (filepath_Join dir name) bytes st
                  (Hparse name bytes (or_introl eq_refl))) as H.
    cbv zeta in H. destruct H as (_ & Hnone).
    destruct (processFile parse handsOn hostname procs (filepath_Join dir name) bytes st)
      as [err st1].
    cbn [fst] in Hnone.
    destruct (Hnone (fun p Hp => Hprocs p _ Hp)) as [-> _].
    specialize (IH (fun n b Hin => Hparse n b (or_intror Hin)) st1).
    destruct (processEntries parse handsOn dir hostname procs entries st1) as [errs st2].
    exact IH.
  - apply IH. intros n b Hin. apply (Hparse n b). right. exact Hin.
Qed.

(** A parse error that is not passed over comes back to the caller with
    the text of the parser, whether or not the file is handed on. *)
Lemma processFile_returns_parse_error parse handsOn hostname procs path bytes st :
  snd (parse bytes) <> [] ->
  reportsMissingHeader (snd (parse bytes)) = false ->
  exists e,
    fst (processFile parse handsOn hostname procs path bytes st) = Some e /\
    Contains (Error e) (parseErrorsText (snd (parse bytes))) = true.
Proof.
  intros Hsome Hheader. unfold processFile.
  destruct (parse bytes) as [file errs]. cbn [snd] in *.
  rewrite Hheader. destruct errs as [|err errs]; [contradiction|].
  set (text := parseErrorsText (err :: errs)).
  destruct (handsOn file (err :: errs)); cbn [negb].
  - destruct (HandleAll 0 procs _ _) as [perrs st']. cbn [fst].
    apply joinErrors_carries.
  - cbn [fst]. destruct (joinErrors_carries path text []) as (e & He & Hc).
    cbn in He. injection He as <-. eauto.
Qed.

(** C8.  Which parse errors stop a staged file.  When the parser
    reports errors and the missing file header is not among them,
    [processFile] returns an error to its caller, and that error carries
    the text of the parser: the failure is not swallowed, whether or not
    the file is handed on.  When the missing file header is among what
    the parser reports, the file is recorded for audit and, when no
    processor fails, has been handed to every processor with its
    identities written while [processFile] returns nil, however many
    batches the file yields, none included.  [processDir] returns nil
    for a directory in which every file is of that kind or parses
    cleanly and no processor fails. *)
Theorem processFile_passes_over_missing_header parse handsOn hostname procs path bytes st :
  let parsed := fst (parse bytes) in
  let errs := snd (parse bytes) in
  let run := processFile parse handsOn hostname procs path bytes st in
  (errs <> [] -> reportsMissingHeader errs = false ->
   exists e, fst run = Some e /\ Contains (Error e) (parseErrorsText errs) = true) /\
  (reportsMissingHeader errs = true ->
   let file := populateHashes {| ID := hash bytes; Batches := Batches parsed |} in
   audited (snd run) = audited st ++ [(hash bytes, hostname)] /\
   ((forall p, In p procs -> p file = None) ->
    fst run = None /\
    handled (snd run)
    = handled st ++ List.map (fun j => (j, file)) (seq 0 (length procs)))) /\
  (forall dir entries,
     (forall name bytes,
        In (StagedFile name bytes) entries ->
        reportsMissingHeader (snd (parse bytes)) = true \/ snd (parse bytes) = []) ->
     (forall p file, In p procs -> p file = None) ->
     fst (processDir parse handsOn dir hostname procs entries st) = None).
Proof.
  intros parsed errs run. split; [|split].
  - intros Hsome Hheader. apply processFile_returns_parse_error; assumption.
  - intros Herr. apply processFile_tolerated. left. exact Herr.
  - intros dir entries Hparse Hprocs. unfold processDir.
    pose proof (processEntries_tolerated parse handsOn dir hostname procs entries
                  Hparse Hprocs st) as H.
    destruct (processEntries parse handsOn dir hostname procs entries st) as [errs' st'].
    cbn [fst] in *. rewrite H. reflexivity.
Qed.

(** The claim as the specification words it fails on the first file of
    TestProcessor: its bytes hold no record, the parser yields no batch
    and reports an error, and yet [processFile] returns nil after the
    processor has been given the file with the identity the test
    expects; [processDir] returns nil as well.  What is done with the
    files whose parse error is returned plays no part in it. *)
Lemma unparsable_file_is_processed :
  snd (testParser invalidAch) <> [] /\
  Batches (fst (testParser invalidAch)) = [] /\
  processFile testParser dropsPartial "ftp.foo.com" [mockProcessor] "invalid.ach"
    invalidAch emptyPipeline
  = (None,
     {| audited := [("7ffdca32898fc89e5e680d0a01e9e1c2a1cd2717", "ftp.foo.com")];
        handled :=
          [(0%nat, {| ID := "7ffdca32898fc89e5e680d0a01e9e1c2a1cd2717";
                      Batches := [] |})] |}) /\
  processFile testParser keepsPartial "ftp.foo.com" [mockProcessor] "invalid.ach"
    invalidAch emptyPipeline
  = processFile testParser dropsPartial "ftp.foo.com" [mockProcessor] "invalid.ach"
      invalidAch emptyPipeline /\
  fst (processDir testParser dropsPartial "staged" "ftp.foo.com" [mockProcessor]
         [StagedFile "invalid.ach" invalidAch] emptyPipeline) = None.
Proof.
  split; [discriminate|]. split; [reflexivity|].
  repeat split; vm_compute; reflexivity.
Qed.

(** The second file of TestProcessor: the error about the mandatory
    header field comes back from [processFile], whichever way the file
    is dealt with. *)
Example real_world_file_fails :
  forall handsOn,
    exists e,
      fst (processFile testParser handsOn "ftp.foo.com" [mockProcessor]
             "HMBRAD_ACHEXPORT_1001_08_19_2022_09_10" realWorldAch emptyPipeline)
      = Some e /\
      Contains (Error e)
        "record:FileHeader *ach.FieldError FileCreationDate  is a mandatory field" = true.
Proof.
  intros handsOn.
  apply (processFile_returns_parse_error testParser handsOn "ftp.foo.com" [mockProcessor]
           "HMBRAD_ACHEXPORT_1001_08_19_2022_09_10" realWorldAch emptyPipeline);
    [discriminate | reflexivity].
Qed.

(** The forward file: no header, one batch; the processor receives it
    with the entry identified and the batch identity left empty. *)
Example forward_file_is_processed :
  let run := processFile testParser dropsPartial "ftp.foo.com" [mockProcessor]
               "forward.ach" forwardAch emptyPipeline in
  fst run = None /\
  List.map (fun x => List.map batchID (Batches (snd x))) (handled (snd run)) = [[""]] /\
  List.map (fun x => List.map (fun b => List.map entryID (batchEntries b))
                       (Batches (snd x))) (handled (snd run))
  = [[[hash (entryRecord forwardEntry)]]].
Proof. vm_compute. repeat split; reflexivity. Qed.

End OdfiProofs.

(** ** Further properties of the SFTP agent *)

Module UploadExtra.
Import Go Upload UploadTerms UploadProofs.
Local Open Scope list_scope.

#[local] Existing Instance UploadProofs.sameRemote_preorder.
#[local] Existing Instance UploadProofs.logGrows_preorder.
#[local] Existing Instance UploadProofs.latchStep_preorder.

(** *** No panic *)

Lemma returns_ret {A} (P : A -> Prop) (a : A) : P a -> returns P (mret a).
Proof. intros Ha env s. exists a. split; [reflexivity | exact Ha]. Qed.

Lemma returns_bind {A B} (Q : A -> Prop) (P : B -> Prop) (m : M A) (k : A -> M B) :
  returns Q m -> (forall a, Q a -> returns P (k a)) -> returns P (m ≫= k).
Proof.
  intros Hm Hk env s. rewrite run_bind.
  destruct (Hm env s) as (a & Hrun & Ha).
  destruct (m env s) as [r s1]. cbn [fst] in Hrun. subst r.
  apply Hk. exact Ha.
Qed.

Lemma returns_weaken {A} (P Q : A -> Prop) (m : M A) :
  (forall a, P a -> Q a) -> returns P m -> returns Q m.
Proof.
  intros HPQ Hm env s. destruct (Hm env s) as (a & Hrun & Ha). eauto.
Qed.

Lemma returns_any {A} (m : M A) :
  (forall env s, exists a, fst (m env s) = Ok a) -> returns (fun _ => True) m.
Proof. intros H env s. destruct (H env s) as [a Ha]. eauto. Qed.

Lemma returns_ask : returns (fun _ => True) ask.
Proof. apply returns_any. intros env s. eexists. reflexivity. Qed.

Lemma returns_get : returns (fun _ => True) get.
Proof. apply returns_any. intros env s. eexists. reflexivity. Qed.

Lemma returns_modify f : returns (fun _ => True) (modify f).
Proof. apply returns_any. intros env s. eexists. reflexivity. Qed.

Lemma returns_issue op : returns (fun _ => True) (issue op).
Proof. apply returns_any. intros env s. eexists. reflexivity. Qed.

Lemma returns_perform op : returns (fun _ => True) (perform op).
Proof. apply returns_any. intros env s. eexists. reflexivity. Qed.

Lemma returns_emit op : returns (fun _ => True) (emit op).
Proof. apply returns_any. intros env s. eexists. reflexivity. Qed.

(** Take a computation apart; [known] handles the calls of functions
    dealt with before, [leaf] the property of a returned value. *)
Ltac returns_walk leaf known :=
  repeat first
    [ known
    | apply returns_ask | apply returns_get | apply returns_modify
    | apply returns_issue | apply returns_perform | apply returns_emit
    | apply returns_ret; leaf
    | apply (returns_bind (fun _ => True)); [|intros ? _]
    | match goal with
      | |- returns _ (match ?x with _ => _ end) => destruct x
      | |- returns _ (if ?b then _ else _) => destruct b
      | |- returns _ (let '(_, _) := ?x in _) => destruct x
      end ].

Lemma dialLoop_dialled n i sftp conf c err :
  (n = O -> dialled (c, err)) ->
  returns dialled (dialLoop n i sftp conf c err).
Proof.
  revert i c err. induction n as [|n IH]; intros i c err Hn; cbn [dialLoop].
  - apply returns_ret. auto.
  - apply (returns_bind dialled).
    + destruct c as [c|].
      * apply returns_ret. exact I.
      * unfold ssh_Dial.
        returns_walk ltac:(exact I) fail.
    + intros [c' err'] Hd. apply IH. intros _. exact Hd.
Qed.

Lemma chooseHostKey_returns sftp : returns (fun _ => True) (chooseHostKey sftp).
Proof.
  unfold chooseHostKey, hostKeyCallbackOnce_Do, hostKeyCallback.
  returns_walk ltac:(exact I) fail.
Qed.

Lemma chooseAuth_returns sftp : returns (fun _ => True) (chooseAuth sftp).
Proof.
  unfold chooseAuth, readSigner. returns_walk ltac:(exact I) fail.
Qed.

Lemma openSession_exactlyOne c : returns exactlyOne (openSession c).
Proof.
  unfold openSession, closeInBackground, conn_Close.
  returns_walk ltac:(exact I) fail.
Qed.

Lemma sftpConnect_returns config :
  returns (fun r => exactlyOne r /\ (snd r = None -> SFTP config <> None))
    (sftpConnect config).
Proof.
  unfold sftpConnect. destruct (SFTP config) as [sftp|];
    [|apply returns_ret; split; [exact I | discriminate]].
  eapply returns_weaken.
  { intros r Hr. split; [exact Hr | discriminate]. }
  apply (returns_bind (fun _ => True)); [apply chooseHostKey_returns|].
  intros [hostKey|e] _; [|apply returns_ret; exact I].
  apply (returns_bind (fun _ => True)); [apply chooseAuth_returns|].
  intros [auth|e] _; [|apply returns_ret; exact I].
  apply (returns_bind dialled).
  - apply dialLoop_dialled. discriminate.
  - intros [[c|] [e|]] Hd; try contradiction;
      first [apply openSession_exactlyOne | apply returns_ret; exact I].
Qed.

Lemma connection_returns agent :
  returns (fun r => exactlyOne (snd r) /\ cfg (fst r) = cfg agent) (connection agent).
Proof.
  assert (Hre : forall cl,
    returns (fun r => exactlyOne (snd r) /\ cfg (fst r) = cfg agent)
      ('(c, err) ← sftpConnect (cfg agent);
       match err with
       | Some err => mret (agent, (None, Some (errors_New ("upload: " +:+ Error err))))
       | None =>
           let agent' := {| conn := c; client := cl; cfg := cfg agent |} in
           match SFTP (cfg agent') with
           | None => panic "nil pointer dereference"
           | Some sftp =>
               e ← perform (OpNewClientPipe (MaxConnections sftp) (PacketSize sftp));
               match e with
               | Some err =>
                   closeInBackground;;
                   mret (agent', (None, Some (errors_New ("upload: sftp connect: " +:+ Error err))))
               | None =>
                   let agent'' := {| conn := conn agent'; client := Some SFTPClient;
                                   cfg := cfg agent' |} in
                   mret (agent'', (client agent'', None))
               end
           end
       end)).
  { intros cl. eapply returns_bind; [apply sftpConnect_returns|].
    intros [c [e|]] [Hex Hcfg]; [apply returns_ret; split; [exact I | reflexivity]|].
    cbn [snd] in Hcfg. cbv zeta. cbn [cfg conn client].
    destruct (SFTP (cfg agent)) as [sftp|]; [|exfalso; apply Hcfg; reflexivity].
    unfold closeInBackground, conn_Close.
    returns_walk ltac:(split; [exact I | reflexivity]) fail. }
  unfold connection. destruct (client agent) as [c|] eqn:Hc.
  - apply (returns_bind (fun _ => True)).
    { unfold client_Getwd, client_Close. returns_walk ltac:(exact I) fail. }
    intros [|] _.
    + apply returns_ret. split; [exact I | reflexivity].
    + apply Hre.
  - apply (returns_bind (fun live => live = false)).
    { apply returns_ret. reflexivity. }
    intros live ->. apply Hre.
Qed.

Lemma connection_safe agent : returns (fun _ => True) (connection agent).
Proof. eapply returns_weaken; [|apply connection_returns]. auto. Qed.

Lemma record_safe agent err :
  SFTP (cfg agent) <> None -> returns (fun _ => True) (record agent err).
Proof.
  intros Hcfg. unfold record. destruct (SFTP (cfg agent)); [|contradiction].
  returns_walk ltac:(exact I) fail.
Qed.

(** *** The logger *)

Lemma sftpConnect_usable_logger l config :
  Logged.sftpConnect (Some l) config = sftpConnect config.
Proof. reflexivity. Qed.

Lemma connection_usable_logger l agent :
  Logged.connection (Some l) agent = connection agent.
Proof. reflexivity. Qed.

(** Without a logger [sftpConnect] panics when the warning is due, and
    leaves the latch fired; otherwise the logger is not asked for. *)
Lemma sftpConnect_nil_logger config env s :
  Logged.sftpConnect None config env s =
  if Logged.warns config s then (Panic "nil pointer dereference", setOnce s)
  else sftpConnect config env s.
Proof.
  unfold Logged.sftpConnect, sftpConnect, Logged.warns.
  destruct (SFTP config) as [sftp|]; [|reflexivity].
  rewrite !run_bind. unfold Logged.chooseHostKey, chooseHostKey.
  rewrite !run_bind. cbn [ask].
  destruct (String.eqb (HostPublicKey sftp) ""); cbn [negb andb]; [|reflexivity].
  unfold hostKeyCallbackOnce_Do. rewrite !run_bind. cbn [get].
  destruct (hostKeyCallbackOnce s); cbn [negb]; reflexivity.
Qed.

Lemma warns_pushLog config op s : Logged.warns config (pushLog op s) = Logged.warns config s.
Proof. reflexivity. Qed.

(** With any logger, [connection] panics exactly when the logger is nil
    and it has to ask for it; otherwise it is the [connection] of an
    agent whose logger can be used. *)
Lemma connection_any_logger logger agent env s :
  if Logged.isNil logger && Logged.reconnects agent env s && Logged.warns (cfg agent) s
  then exists s', Logged.connection logger agent env s = (Panic "nil pointer dereference", s')
  else Logged.connection logger agent env s = connection agent env s.
Proof.
  destruct logger as [l|]; [reflexivity|]. cbn [Logged.isNil andb].
  unfold Logged.connection, connection, Logged.reconnects.
  destruct (client agent) as [cl|].
  - rewrite !run_bind. unfold client_Getwd, client_Close. rewrite run_perform.
    destruct (faults env (log s) OpGetwd) as [flt|]; cbn [fmap option_fmap option_map andb];
      [|reflexivity].
    rewrite !run_bind, run_perform, !run_ret, !run_bind.
    rewrite sftpConnect_nil_logger, !warns_pushLog.
    destruct (Logged.warns (cfg agent) s); [eauto | reflexivity].
  - rewrite !run_bind, !run_ret, !run_bind. cbn [andb].
    rewrite sftpConnect_nil_logger.
    destruct (Logged.warns (cfg agent) s); [eauto | reflexivity].
Qed.

(** X6.  The only nil that [sftpConnect] and [connection] can meet is
    the logger.  They panic exactly when the logger is nil and the
    warning about the host key is due (no host key configured, the
    once-latch not fired) on a connection that is being made; in every
    other case, whatever the agent, the configuration and the server,
    they return, and what they return is either a client or an error,
    never both and never neither: the client used after the dial loop
    and the SFTP section used after [sftpConnect] are not nil. *)
Theorem nil_logger_is_the_only_panic logger agent env s :
  (forall config,
     if Logged.isNil logger && Logged.warns config s
     then exists s',
            Logged.sftpConnect logger config env s = (Panic "nil pointer dereference", s')
     else exists r,
            fst (Logged.sftpConnect logger config env s) = Ok r /\ exactlyOne r) /\
  (if Logged.isNil logger && Logged.reconnects agent env s && Logged.warns (cfg agent) s
   then exists s',
          Logged.connection logger agent env s = (Panic "nil pointer dereference", s')
   else exists r,
          fst (Logged.connection logger agent env s) = Ok r /\ exactlyOne (snd r)).
Proof.
  split.
  - intros config. destruct logger as [l|]; cbn [Logged.isNil andb].
    + destruct (sftpConnect_returns config env s) as (r & Hr & Hone & _). eauto.
    + rewrite sftpConnect_nil_logger.
      destruct (Logged.warns config s); [eauto|].
      destruct (sftpConnect_returns config env s) as (r & Hr & Hone & _). eauto.
  - pose proof (connection_any_logger logger agent env s) as H.
    destruct (Logged.isNil logger && Logged.reconnects agent env s
              && Logged.warns (cfg agent) s); [exact H|].
    rewrite H. destruct (connection_returns agent env s) as (r & Hr & Hone & _). eauto.
Qed.

(** X7.  [Ping] and its configuration.  For an agent whose
    configuration has no SFTP section [Ping] panics, whatever the
    logger and the server: [record] uses the section to name the gauge,
    after [connection] has returned.  For an agent that has the section
    it panics exactly when [connection] does, that is with a nil logger
    when the warning about the host key is due on a connection that is
    being made, and returns otherwise. *)
Theorem Ping_needs_configuration logger agent env s :
  match SFTP (cfg agent) with
  | None =>
      exists s', Logged.Ping logger agent env s = (Panic "nil pointer dereference", s')
  | Some _ =>
      if Logged.isNil logger && Logged.reconnects agent env s && Logged.warns (cfg agent) s
      then exists s',
             Logged.Ping logger agent env s = (Panic "nil pointer dereference", s')
      else exists r, fst (Logged.Ping logger agent env s) = Ok r
  end.
Proof.
  pose proof (connection_any_logger logger agent env s) as Hconn.
  unfold Logged.Ping. rewrite run_bind.
  destruct (SFTP (cfg agent)) as [sftp|] eqn:Hcfg.
  - destruct (Logged.isNil logger && Logged.reconnects agent env s
              && Logged.warns (cfg agent) s).
    + destruct Hconn as (s' & ->). eauto.
    + rewrite Hconn.
      destruct (connection_returns agent env s) as ([agent' [c e]] & Hr & _ & Hsame).
      destruct (connection agent env s) as [r s1]. cbn [fst] in Hr. subst r.
      cbn [fst cfg] in Hsame.
      assert (H : returns (fun _ => True)
                    (record agent' e;;
                     match e with
                     | Some err => mret (agent', Some err)
                     | None =>
                         r ← client_ReadDir ".";
                         let err := match r with inl _ => None | inr e => Some e end in
                         record agent' err;;
                         match err with
                         | Some err =>
                             mret (agent', Some (errors_New ("sftp: ping " +:+ Error err)))
                         | None => mret (agent', None)
                         end
                     end)).
      { assert (Hrec : forall err, returns (fun _ => True) (record agent' err)).
        { intros err. apply record_safe. rewrite Hsame, Hcfg. discriminate. }
        unfold client_ReadDir.
        returns_walk ltac:(exact I) ltac:(apply Hrec). }
      destruct (H env s1) as (r & Hr & _). eauto.
  - assert (Hwarns : Logged.warns (cfg agent) s = false)
      by (unfold Logged.warns; rewrite Hcfg; reflexivity).
    rewrite Hwarns, andb_false_r in Hconn. rewrite Hconn.
    destruct (connection_returns agent env s) as ([agent' [c e]] & Hr & _ & Hsame).
    destruct (connection agent env s) as [r s1]. cbn [fst] in Hr. subst r.
    cbn [fst cfg] in Hsame. rewrite run_bind. unfold record. rewrite Hsame, Hcfg.
    cbn. eauto.
Qed.

(** An agent built by hand without a configuration: [Ping] panics when
    it records the failed connection. *)
Example Ping_bare_agent :
  fst (Logged.Ping None bareAgent UploadExamples.demoEnv UploadExamples.demoState)
  = Panic "nil pointer dereference".
Proof. reflexivity. Qed.

(** An agent built by hand with a configuration but without a logger:
    the first connection without a host key panics at the warning, and
    the next one, the latch having fired, goes through. *)
Example connection_without_logger :
  fst (Logged.connection None UploadExamples.demoAgent UploadExamples.demoEnv
         UploadExamples.demoState)
  = Panic "nil pointer dereference" /\
  fst (Logged.connection None UploadExamples.demoAgent UploadExamples.demoEnv
         (setOnce UploadExamples.demoState))
  = Ok (UploadExamples.connectedAgent, (Some SFTPClient, None)).
Proof. split; reflexivity. Qed.

(** *** The dial loop *)

(** X4.  The dial loop of [sftpConnect]: between one and three dials, each
    followed by a sleep of 250ms; a dial is made only when all dials
    before it failed, and each dial after the first adds one to the
    retry counter of the host.  The result is the client of the first
    dial that succeeds, or the error of the third dial. *)
Theorem dialLoop_retry_policy sftp conf env s :
  let dial := OpDial (Hostname sftp) conf in
  let run := dialLoop 3 0 sftp conf None None env s in
  exists k : nat,
    (1 <= k <= 3)%nat /\
    log (snd run) = dialRounds dial k (log s) /\
    retriesOf (Hostname sftp) (snd run) = retriesOf (Hostname sftp) s + (Z.of_nat k - 1) /\
    remote (snd run) = remote s /\
    (forall j, (j < k - 1)%nat -> faults env (dialRounds dial j (log s)) dial <> None) /\
    match faults env (dialRounds dial (k - 1) (log s)) dial with
    | None => fst run = Ok (Some SSHClient, None)
    | Some flt => k = 3%nat /\ fst run = Ok (None, Some (failure flt))
    end.
Proof.
  intros dial run. subst run dial. unfold dialLoop, ssh_Dial. run.
  set (dial := OpDial (Hostname sftp) conf).
  destruct (faults env (log s) dial) as [f0|] eqn:H0; simpl.
  - destruct (faults env (OpSleep 250 :: dial :: log s) dial) as [f1|] eqn:H1; simpl.
    + destruct (faults env (OpSleep 250 :: dial :: OpSleep 250 :: dial :: log s) dial)
        as [f2|] eqn:H2; simpl;
        exists 3%nat; cbn [dialRounds Nat.sub]; rewrite H2;
        (split; [lia|]); (split; [reflexivity|]);
        (split; [unfold retriesOf; cbn; rewrite !lookup_insert_eq; cbn; lia|]);
        (split; [reflexivity|]);
        (split; [intros [|[|j]] Hj; cbn [dialRounds]; try lia; congruence|]);
        try split; reflexivity.
    + exists 2%nat. cbn [dialRounds Nat.sub]. rewrite H1.
      split; [lia|]. split; [reflexivity|].
      split; [unfold retriesOf; cbn; rewrite lookup_insert_eq; cbn; lia|].
      split; [reflexivity|]. split; [|reflexivity].
      intros [|j] Hj; cbn [dialRounds]; try lia; congruence.
  - exists 1%nat. cbn [dialRounds Nat.sub]. rewrite H0.
    split; [lia|]. split; [reflexivity|].
    split; [unfold retriesOf; cbn; lia|].
    split; [reflexivity|]. split; [|reflexivity].
    intros j Hj; lia.
Qed.

(** *** The host key check *)

Lemma dialLoop_checks n i sftp conf c err :
  respects (logGrows (checksHostKey (HostKey conf))) (dialLoop n i sftp conf c err).
Proof.
  revert i c err. induction n as [|n IH]; intros i c err; cbn [dialLoop].
  - apply respects_ret, _.
  - unfold ssh_Dial. respects_walk grows_leaf ltac:(apply IH).
Qed.

(** What [sftpConnect] does once the host key check has been chosen. *)
Lemma authenticate_checks sftp hostKey :
  respects (logGrows (checksHostKey hostKey))
    (auth ← chooseAuth sftp;
     match auth with
     | inr err => mret (None, Some err)
     | inl auth =>
         let conf := {| User := Username sftp; Auth := auth;
                        HostKey := hostKey; DialTimeout := Timeout sftp |} in
         '(client, err) ← dialLoop 3 0 sftp conf None None;
         match client, err with
         | None, Some err =>
             mret (None, Some (errors_New ("sftpConnect: " +:+ Error err)))
         | None, None => panic "nil pointer dereference"
         | Some c, _ => openSession c
         end
     end).
Proof.
  unfold chooseAuth, readSigner, openSession, closeInBackground, conn_Close.
  cbv zeta.
  respects_walk grows_leaf
    ltac:(apply (dialLoop_checks 3 0 sftp
                   {| User := Username sftp; Auth := _;
                      HostKey := hostKey; DialTimeout := Timeout sftp |})).
Qed.

Lemma checksHostKey_dialsChecking check op :
  checksHostKey check op -> dialsChecking check op.
Proof. destruct op; simpl; tauto. Qed.

Lemma checksHostKey_warnings check s s' :
  logGrows (checksHostKey check) s s' -> warnings s' = warnings s.
Proof.
  intros (ops & Hlog & Hops). unfold warnings. rewrite Hlog, List.filter_app, length_app.
  replace (List.filter isWarning ops) with (@nil Op); [reflexivity|].
  clear Hlog. induction Hops as [|op ops Hop _ IH]; [reflexivity|].
  cbn [List.filter]. destruct op; simpl in *; try exact IH. contradiction.
Qed.

(** X5.  The host key check of [sftpConnect].  With a host public key
    configured that can be read, every dial verifies the host against
    that key, no warning is logged and the once-latch is left as it was.
    With one that cannot be read, the error is returned and nothing is
    requested from any host.  With none configured, every dial skips the
    check, and the latch of the warning has fired when [sftpConnect]
    returns. *)
Theorem sftpConnect_host_key config sftp env s :
  SFTP config = Some sftp ->
  let run := sftpConnect config env s in
  if String.eqb (HostPublicKey sftp) "" then
    logGrows (dialsChecking ssh_InsecureIgnoreHostKey) s (snd run) /\
    hostKeyCallbackOnce (snd run) = true
  else
    match sshx_ReadPubKey env (HostPublicKey sftp) with
    | inl key =>
        logGrows (checksHostKey (ssh_FixedHostKey key)) s (snd run) /\
        hostKeyCallbackOnce (snd run) = hostKeyCallbackOnce s
    | inr err =>
        run = (Ok (None, Some (errors_New ("problem parsing ssh public key: "
                                           +:+ Error err))), s)
    end.
Proof.
  intros Hcfg run. subst run. unfold sftpConnect. rewrite Hcfg, run_bind.
  unfold chooseHostKey. rewrite run_bind. cbn [ask].
  destruct (String.eqb (HostPublicKey sftp) "") eqn:Hempty; cbn [negb].
  - rewrite run_bind.
    pose proof (authenticate_checks sftp ssh_InsecureIgnoreHostKey env) as Hgrow.
    pose proof (fun s1 => sftpConnect_latch
                  {| ID := ID config; SFTP := Some sftp; Paths := Paths config;
                     SplitAllowedIPs := SplitAllowedIPs config |} env s1) as Hlatch.
    unfold hostKeyCallbackOnce_Do, hostKeyCallback.
    rewrite run_bind. cbn [get].
    destruct (hostKeyCallbackOnce s) eqn:Hfired.
    + rewrite !run_ret. specialize (Hgrow s). split.
      * eapply logGrows_weaken; [apply checksHostKey_dialsChecking | exact Hgrow].
      * specialize (Hlatch s). unfold sftpConnect in Hlatch. cbn [SFTP] in Hlatch.
        rewrite run_bind in Hlatch. unfold chooseHostKey in Hlatch.
        rewrite run_bind in Hlatch. cbn [ask] in Hlatch. rewrite Hempty in Hlatch.
        cbn [negb] in Hlatch. rewrite run_bind in Hlatch.
        unfold hostKeyCallbackOnce_Do in Hlatch. rewrite run_bind in Hlatch.
        cbn [get] in Hlatch. rewrite Hfired, !run_ret in Hlatch.
        apply Hlatch. exact Hfired.
    + rewrite run_bind. cbn [modify]. unfold emit. cbn [modify]. rewrite run_ret.
      set (s1 := pushLog (OpWarn hostKeyWarning) (setOnce s)).
      specialize (Hgrow s1). split.
      * destruct Hgrow as (ops & Hlog & Hops).
        exists (ops ++ [OpWarn hostKeyWarning]). split.
        { etransitivity; [exact Hlog|]. rewrite <- app_assoc. reflexivity. }
        apply Forall_app. split.
        { eapply Forall_impl; [exact Hops | intros op; apply checksHostKey_dialsChecking]. }
        constructor; [exact I | constructor].
      * pose proof (dialLoop_latch 3 0 sftp) as Hd.
        assert (Hrest : respects latchStep
          (auth ← chooseAuth sftp;
           match auth with
           | inr err => mret (None, Some err)
           | inl auth =>
               let conf := {| User := Username sftp; Auth := auth;
                              HostKey := ssh_InsecureIgnoreHostKey;
                              DialTimeout := Timeout sftp |} in
               '(client, err) ← dialLoop 3 0 sftp conf None None;
               match client, err with
               | None, Some err =>
                   mret (None, Some (errors_New ("sftpConnect: " +:+ Error err)))
               | None, None => panic "nil pointer dereference"
               | Some c, _ => openSession c
               end
           end)).
        { unfold chooseAuth, readSigner, openSession, closeInBackground, conn_Close.
          cbv zeta. respects_walk latch_leaf ltac:(apply Hd). }
        apply (Hrest env s1). reflexivity.
  - destruct (sshx_ReadPubKey env (HostPublicKey sftp)) as [key|err] eqn:Hkey.
    + rewrite run_ret.
      match goal with |- logGrows _ _ ?x /\ _ => set (s' := x) end.
      assert (Hgrow : logGrows (checksHostKey (ssh_FixedHostKey key)) s s')
        by exact (authenticate_checks sftp (ssh_FixedHostKey key) env s).
      assert (Hlatch : latchStep s s').
      { pose proof (sftpConnect_latch
                      {| ID := ID config; SFTP := Some sftp; Paths := Paths config;
                         SplitAllowedIPs := SplitAllowedIPs config |} env s) as Hlatch.
        unfold sftpConnect in Hlatch. cbn [SFTP] in Hlatch.
        rewrite run_bind in Hlatch. unfold chooseHostKey in Hlatch.
        rewrite run_bind in Hlatch. cbn [ask] in Hlatch. rewrite Hempty in Hlatch.
        cbn [negb] in Hlatch. rewrite Hkey, run_ret in Hlatch. exact Hlatch. }
      clearbody s'. split; [exact Hgrow|].
      apply checksHostKey_warnings in Hgrow.
      destruct Hlatch as (Hkeep & Hcount). rewrite Hgrow in Hcount.
      destruct (hostKeyCallbackOnce s) eqn:Hfired.
      * apply Hkeep. reflexivity.
      * destruct (hostKeyCallbackOnce s'); [lia | reflexivity].
    + rewrite run_ret. reflexivity.
Qed.

Lemma sftpConnect_host_key_witness :
  logGrows (checksHostKey (ssh_FixedHostKey "ssh-ed25519 AAAAC3NzaC1lZDI1NTE5AAAAIMoov"))
    UploadExamples.demoState
    (snd (sftpConnect pinnedCfg UploadExamples.demoEnv UploadExamples.demoState)) /\
  hostKeyCallbackOnce
    (snd (sftpConnect pinnedCfg UploadExamples.demoEnv UploadExamples.demoState)) = false.
Proof.
  exact (sftpConnect_host_key pinnedCfg pinnedSFTP UploadExamples.demoEnv
           UploadExamples.demoState eq_refl).
Defined.

(** *** The gauge of the connection *)

#[local] Instance sameUp_preorder : PreOrder sameUp.
Proof.
  split.
  - intros s. reflexivity.
  - intros s1 s2 s3 H12 H23. unfold sameUp in *. congruence.
Qed.

Ltac same_up_leaf := intros ?; reflexivity.

Lemma dialLoop_sameUp n i sftp conf c err :
  respects sameUp (dialLoop n i sftp conf c err).
Proof.
  revert i c err. induction n as [|n IH]; intros i c err; cbn [dialLoop].
  - apply respects_ret, _.
  - unfold ssh_Dial. respects_walk same_up_leaf ltac:(apply IH).
Qed.

Lemma connection_sameUp agent : respects sameUp (connection agent).
Proof.
  unfold connection, client_Getwd, client_Close, closeInBackground, conn_Close,
    sftpConnect, chooseHostKey, chooseAuth, readSigner, openSession,
    hostKeyCallbackOnce_Do, hostKeyCallback, closeInBackground, conn_Close.
  respects_walk same_up_leaf ltac:(apply dialLoop_sameUp).
Qed.

Lemma client_ReadDir_sameUp path : respects sameUp (client_ReadDir path).
Proof. unfold client_ReadDir. respects_walk same_up_leaf fail. Qed.

Lemma lookup_setUp host v s host' :
  sftpAgentUp (setUp host v s) !! host' =
  if decide (host = host') then Some v else sftpAgentUp s !! host'.
Proof.
  unfold setUp. cbn [sftpAgentUp]. destruct (decide (host = host')) as [->|Hne].
  - apply lookup_insert_eq.
  - apply lookup_insert_ne. exact Hne.
Qed.

Lemma client_ReadDir_safe path : returns (fun _ => True) (client_ReadDir path).
Proof. unfold client_ReadDir. returns_walk ltac:(exact I) fail. Qed.

(** X8.  [Ping] of a configured agent leaves the outcome in the gauge
    sftp_agent_up of the agent's host: 1 when it returns nil, 0 when it
    returns an error, be it the connection or the directory read that
    failed.  The gauges of other hosts are not touched. *)
Theorem Ping_records_outcome agent sftp env s :
  SFTP (cfg agent) = Some sftp ->
  exists agent' err,
    fst (Ping agent env s) = Ok (agent', err) /\
    sftpAgentUp (snd (Ping agent env s)) !! Hostname sftp = Some (upValue err) /\
    forall host, host <> Hostname sftp ->
      sftpAgentUp (snd (Ping agent env s)) !! host = sftpAgentUp s !! host.
Proof.
  intros Hcfg. unfold Ping. rewrite run_bind.
  pose proof (connection_sameUp agent env s) as Hup.
  destruct (connection_safe agent env s) as ([agent1 [c err]] & Hrun & _).
  destruct (connection agent env s) as [r s1] eqn:Hconn. cbn [fst snd] in *. subst r.
  pose proof (connection_keeps_cfg _ _ _ _ _ _ Hconn) as Hsame.
  unfold record. rewrite Hsame, Hcfg.
  destruct err as [e|].
  - rewrite run_bind. cbn [modify]. rewrite run_ret. cbn [fst snd].
    exists agent1, (Some e). split; [reflexivity|]. split.
    + rewrite lookup_setUp, decide_True by reflexivity. reflexivity.
    + intros host Hne. rewrite lookup_setUp, decide_False by congruence.
      rewrite Hup. reflexivity.
  - rewrite run_bind. cbn [modify]. rewrite run_bind.
    pose proof (client_ReadDir_sameUp "." env (setUp (Hostname sftp) 1 s1)) as Hread.
    destruct (client_ReadDir "." env (setUp (Hostname sftp) 1 s1)) as [[[infos|e]|msg] s2] eqn:Hdir;
      cbn [snd] in Hread.
    + rewrite run_bind. cbn [modify]. rewrite run_ret. cbn [fst snd].
      exists agent1, None. split; [reflexivity|]. split.
      * rewrite lookup_setUp, decide_True by reflexivity. reflexivity.
      * intros host Hne. rewrite lookup_setUp, decide_False by congruence.
        rewrite Hread, lookup_setUp, decide_False by congruence. rewrite Hup. reflexivity.
    + rewrite run_bind. cbn [modify]. rewrite run_ret. cbn [fst snd].
      eexists agent1, (Some _). split; [reflexivity|]. split.
      * rewrite lookup_setUp, decide_True by reflexivity. reflexivity.
      * intros host Hne. rewrite lookup_setUp, decide_False by congruence.
        rewrite Hread, lookup_setUp, decide_False by congruence. rewrite Hup. reflexivity.
    + destruct (client_ReadDir_safe "." env (setUp (Hostname sftp) 1 s1)) as (a & Ha & _).
      rewrite Hdir in Ha. discriminate.
Qed.

Lemma Ping_records_outcome_witness :
  exists agent' err,
    fst (Ping UploadExamples.demoAgent UploadExamples.demoEnv UploadExamples.demoState)
      = Ok (agent', err) /\
    sftpAgentUp
      (snd (Ping UploadExamples.demoAgent UploadExamples.demoEnv UploadExamples.demoState))
      !! "sftp.bank.com:22" = Some (upValue err) /\
    forall host, host <> "sftp.bank.com:22" ->
      sftpAgentUp
        (snd (Ping UploadExamples.demoAgent UploadExamples.demoEnv UploadExamples.demoState))
        !! host = sftpAgentUp UploadExamples.demoState !! host.
Proof.
  exact (Ping_records_outcome UploadExamples.demoAgent UploadExamples.demoSFTP
           UploadExamples.demoEnv UploadExamples.demoState eq_refl).
Defined.

(** *** What the calls ask the remote host to change *)

#[local] Instance changesOnly_preorder paths : PreOrder (changesOnly paths).
Proof.
  split.
  - intros s p _. reflexivity.
  - intros s1 s2 s3 H12 H23 p Hp. rewrite (H23 p Hp). apply H12, Hp.
Qed.

Lemma sameRemote_changesOnly paths s s' : sameRemote s s' -> changesOnly paths s s'.
Proof. intros H p _. rewrite H. reflexivity. Qed.

Ltac frame_leaf := intros ? ? ?; reflexivity.
Ltac frame_same := intros ? ?; reflexivity.

Lemma connection_changesOnly paths agent : respects (changesOnly paths) (connection agent).
Proof. intros env s. apply sameRemote_changesOnly, connection_sameRemote. Qed.

Lemma changesOnly_insert paths path node s s' :
  In path paths -> remote s' = <[path := node]> (remote s) -> changesOnly paths s s'.
Proof.
  intros Hin Hfs p Hp. rewrite Hfs. apply lookup_insert_ne. intros ->. contradiction.
Qed.

Lemma changesOnly_delete paths path s s' :
  In path paths -> remote s' = delete path (remote s) -> changesOnly paths s s'.
Proof.
  intros Hin Hfs p Hp. rewrite Hfs. apply lookup_delete_ne. intros ->. contradiction.
Qed.

Lemma client_Stat_changesOnly paths path : respects (changesOnly paths) (client_Stat path).
Proof. unfold client_Stat. respects_walk frame_leaf fail. Qed.

Lemma client_Remove_changesOnly paths path :
  In path paths -> respects (changesOnly paths) (client_Remove path).
Proof.
  intros Hin env s. unfold client_Remove. rewrite run_bind, run_issue.
  destruct (faults env (log s) (OpRemove path)); [rewrite run_ret; frame_same|].
  rewrite run_bind. cbn [get]. pushed.
  destruct (remote s !! path) as [[contents mode|]|]; [| |rewrite run_ret; frame_same].
  - rewrite run_bind. cbn [modify]. rewrite run_ret.
    eapply changesOnly_delete; [exact Hin | reflexivity].
  - destruct (children path (remote s)); [|rewrite run_ret; frame_same].
    rewrite run_bind. cbn [modify]. rewrite run_ret.
    eapply changesOnly_delete; [exact Hin | reflexivity].
Qed.

Lemma client_Mkdir_changesOnly paths path :
  In path paths -> respects (changesOnly paths) (client_Mkdir path).
Proof.
  intros Hin env s. unfold client_Mkdir. rewrite run_bind, run_issue.
  destruct (faults env (log s) (OpMkdir path)); [rewrite run_ret; frame_same|].
  rewrite run_bind. cbn [get]. pushed.
  destruct (remote s !! path); [rewrite run_ret; frame_same|].
  rewrite run_bind. cbn [modify]. rewrite run_ret.
  eapply changesOnly_insert; [exact Hin | reflexivity].
Qed.

Lemma client_OpenFile_changesOnly paths path :
  In path paths -> respects (changesOnly paths) (client_OpenFile path).
Proof.
  intros Hin env s. unfold client_OpenFile. rewrite run_bind, run_issue.
  destruct (faults env (log s) (OpOpenFile path)); [rewrite run_ret; frame_same|].
  rewrite run_bind. cbn [get]. pushed.
  destruct (remote s !! path) as [[contents mode|]|];
    [ | rewrite run_ret; frame_same | ];
    rewrite run_bind; cbn [modify]; rewrite run_ret;
    (eapply changesOnly_insert; [exact Hin | reflexivity]).
Qed.

Lemma file_ReadFrom_changesOnly paths (fd : string) data :
  In fd paths -> respects (changesOnly paths) (file_ReadFrom fd data).
Proof.
  intros Hin env s. rewrite run_file_ReadFrom.
  destruct (faults env (log s) (OpFWrite fd data)); [frame_same|].
  destruct (remote s !! fd) as [[contents mode|]|]; try frame_same.
  eapply changesOnly_insert; [exact Hin | reflexivity].
Qed.

Lemma file_Chmod_changesOnly paths (fd : string) mode :
  In fd paths -> respects (changesOnly paths) (file_Chmod fd mode).
Proof.
  intros Hin env s. rewrite run_file_Chmod.
  destruct (faults env (log s) (OpFChmod fd mode)); [frame_same|].
  destruct (remote s !! fd) as [[contents mode'|]|]; try frame_same.
  eapply changesOnly_insert; [exact Hin | reflexivity].
Qed.

Lemma writeRemote_changesOnly paths (fd : string) f :
  In fd paths -> respects (changesOnly paths) (writeRemote fd f).
Proof.
  intros Hin. unfold writeRemote, file_Sync, file_Close.
  respects_walk frame_leaf
    ltac:(first [ apply file_ReadFrom_changesOnly; exact Hin
                | apply file_Chmod_changesOnly; exact Hin ]).
Qed.

(** The requests, by what they ask to change. *)
Ltac confined_leaf Hin :=
  intros ?;
  first
    [ exists []; split; [reflexivity | constructor]
    | eexists [_]; split;
      [ reflexivity | constructor; [first [exact I | exact Hin] | constructor] ] ].

Lemma dialLoop_confined paths n i sftp conf c err :
  respects (logGrows (confinedTo paths)) (dialLoop n i sftp conf c err).
Proof.
  revert i c err. induction n as [|n IH]; intros i c err; cbn [dialLoop].
  - apply respects_ret, _.
  - unfold ssh_Dial. respects_walk ltac:(confined_leaf I) ltac:(apply IH).
Qed.

Lemma sftpConnect_confined paths config :
  respects (logGrows (confinedTo paths)) (sftpConnect config).
Proof.
  unfold sftpConnect, chooseHostKey, chooseAuth, readSigner, openSession,
    hostKeyCallbackOnce_Do, hostKeyCallback, closeInBackground, conn_Close.
  respects_walk ltac:(confined_leaf I) ltac:(apply dialLoop_confined).
Qed.

Lemma connection_confined paths agent :
  respects (logGrows (confinedTo paths)) (connection agent).
Proof.
  unfold connection, client_Getwd, client_Close, closeInBackground, conn_Close.
  respects_walk ltac:(confined_leaf I) ltac:(apply sftpConnect_confined).
Qed.

Lemma client_Stat_confined paths path :
  respects (logGrows (confinedTo paths)) (client_Stat path).
Proof. unfold client_Stat. respects_walk ltac:(confined_leaf I) fail. Qed.

Lemma client_Remove_confined paths path :
  In path paths -> respects (logGrows (confinedTo paths)) (client_Remove path).
Proof. intros Hin. unfold client_Remove. respects_walk ltac:(confined_leaf Hin) fail. Qed.

Lemma client_Mkdir_confined paths path :
  In path paths -> respects (logGrows (confinedTo paths)) (client_Mkdir path).
Proof. intros Hin. unfold client_Mkdir. respects_walk ltac:(confined_leaf Hin) fail. Qed.

Lemma client_OpenFile_confined paths path :
  In path paths -> respects (logGrows (confinedTo paths)) (client_OpenFile path).
Proof. intros Hin. unfold client_OpenFile. respects_walk ltac:(confined_leaf Hin) fail. Qed.

Lemma writeRemote_confined paths (fd : string) f :
  In fd paths -> respects (logGrows (confinedTo paths)) (writeRemote fd f).
Proof.
  intros Hin. unfold writeRemote, file_ReadFrom, file_Sync, file_Chmod, file_Close.
  respects_walk ltac:(confined_leaf Hin) fail.
Qed.

Lemma client_OpenFile_handle path env s (fd : string) s' :
  client_OpenFile path env s = (Ok (inl fd), s') -> fd = path.
Proof.
  unfold client_OpenFile. rewrite run_bind, run_issue.
  destruct (faults env (log s) (OpOpenFile path)); [rewrite run_ret; discriminate|].
  rewrite run_bind. cbn [get]. pushed.
  destruct (remote s !! path) as [[contents mode|]|];
    [ | rewrite run_ret; discriminate | ];
    rewrite run_bind; cbn [modify]; rewrite run_ret; intros [= <- _]; reflexivity.
Qed.

(** [uploadBody] takes the state along any preorder that its connection,
    the care for the outbound directory and the requests on the remote
    file take it along. *)
Lemma uploadBody_respects (R : State -> State -> Prop) `{!PreOrder R} agent f :
  let out := Outbound (Paths (cfg agent)) in
  let path := filepath_Join out (filepath_Base (Filename f)) in
  respects R (connection agent) ->
  (forall agent1, cfg agent1 = cfg agent -> respects R (ensureOutbound agent1)) ->
  respects R (client_OpenFile path) ->
  respects R (writeRemote path f) ->
  respects R (uploadBody agent f).
Proof.
  intros out path Hconn Hdir Hopen Hwrite env s.
  unfold uploadBody. rewrite run_bind.
  specialize (Hconn env s).
  destruct (connection agent env s) as [[[agent1 [c err]]|msg] s1] eqn:Hrun;
    [|exact Hconn].
  apply connection_keeps_cfg in Hrun. cbn [snd] in Hconn.
  etransitivity; [exact Hconn|]. clear Hconn. clear s. revert env s1.
  change (respects R
    (match err with
     | Some err => mret (agent1, Some err)
     | None =>
         err ← ensureOutbound agent1;
         match err with
         | Some err => mret (agent1, Some err)
         | None =>
             let pathToWrite :=
               filepath_Join (Outbound (Paths (cfg agent1))) (filepath_Base (Filename f)) in
             r ← client_OpenFile pathToWrite;
             match r with
             | inr e =>
                 mret (agent1, Some (errors_New ("sftp: problem creating " +:+ pathToWrite
                                                 +:+ ": " +:+ Error e)))
             | inl fd =>
                 err ← writeRemote fd f;
                 mret (agent1, err)
             end
         end
     end)).
  specialize (Hdir agent1 Hrun). rewrite Hrun. cbv zeta. fold out. fold path.
  destruct err as [e|]; [apply respects_ret, _|].
  apply respects_bind; [apply _ | exact Hdir |].
  intros [e|]; [apply respects_ret, _|].
  intros env s. rewrite run_bind.
  specialize (Hopen env s).
  destruct (client_OpenFile path env s) as [[[fd|e]|msg] s3] eqn:Hfd; cbn [snd] in Hopen;
    [ | rewrite run_ret; exact Hopen | exact Hopen ].
  apply client_OpenFile_handle in Hfd. subst fd.
  etransitivity; [exact Hopen|].
  apply (respects_bind _ (writeRemote path f) (fun err => mret (agent1, err))).
  - exact Hwrite.
  - intros err. apply respects_ret, _.
Qed.

(** The care for the outbound directory, along any preorder that the
    stat takes the state along, and the mkdir too unless the creation
    is skipped. *)
Lemma ensureOutbound_respects (R : State -> State -> Prop) `{!PreOrder R} agent :
  respects R (client_Stat (Outbound (Paths (cfg agent)))) ->
  (createsOutbound (cfg agent) = true ->
   respects R (client_Mkdir (Outbound (Paths (cfg agent))))) ->
  respects R (ensureOutbound agent).
Proof.
  intros Hstat Hmkdir. unfold ensureOutbound. unfold createsOutbound in Hmkdir.
  destruct (SFTP (cfg agent)) as [sftp|]; [|apply respects_ret, _].
  destruct (SkipDirectoryCreation sftp); cbn [negb] in *; [apply respects_ret, _|].
  specialize (Hmkdir eq_refl). respects_walk fail fail.
Qed.

Lemma in_uploadTargets_path config f :
  In (filepath_Join (Outbound (Paths config)) (filepath_Base (Filename f)))
     (uploadTargets config f).
Proof. unfold uploadTargets. destruct (createsOutbound config); simpl; auto. Qed.

Lemma in_uploadTargets_out config f :
  createsOutbound config = true -> In (Outbound (Paths config)) (uploadTargets config f).
Proof. unfold uploadTargets. intros ->. simpl. auto. Qed.

(** X11.  [UploadFile] confines its writes.  Whatever the file is called and
    however the call ends, the only changes it asks the remote host for
    concern the base name of the file inside the outbound directory
    and, unless the creation of the directory is skipped, the outbound
    directory itself; and the remote host differs afterwards at most
    under these paths. *)
Theorem UploadFile_writes_only_outbound agent f env s :
  logGrows (confinedTo (uploadTargets (cfg agent) f)) s (snd (UploadFile agent f env s)) /\
  changesOnly (uploadTargets (cfg agent) f) s (snd (UploadFile agent f env s)).
Proof.
  pose proof (in_uploadTargets_path (cfg agent) f) as Hpath.
  pose proof (in_uploadTargets_out (cfg agent) f) as Hout.
  split.
  - revert env s.
    change (respects (logGrows (confinedTo (uploadTargets (cfg agent) f)))
              (UploadFile agent f)).
    unfold UploadFile.
    respects_walk ltac:(confined_leaf I)
      ltac:(apply uploadBody_respects;
            [ apply _ | apply connection_confined
            | intros agent1 Hsame; apply ensureOutbound_respects;
              [ apply _ | apply client_Stat_confined
              | rewrite Hsame; intros Hyes; apply client_Mkdir_confined, Hout, Hyes ]
            | apply client_OpenFile_confined, Hpath
            | apply writeRemote_confined, Hpath ]).
  - revert env s.
    change (respects (changesOnly (uploadTargets (cfg agent) f)) (UploadFile agent f)).
    unfold UploadFile.
    respects_walk frame_leaf
      ltac:(apply uploadBody_respects;
            [ apply _ | apply connection_changesOnly
            | intros agent1 Hsame; apply ensureOutbound_respects;
              [ apply _ | apply client_Stat_changesOnly
              | rewrite Hsame; intros Hyes; apply client_Mkdir_changesOnly, Hout, Hyes ]
            | apply client_OpenFile_changesOnly, Hpath
            | apply writeRemote_changesOnly, Hpath ]).
Qed.

(** [Delete] takes the state along any preorder that its connection and
    its two requests take it along. *)
Lemma Delete_respects (R : State -> State -> Prop) `{!PreOrder R} agent path :
  respects R (connection agent) ->
  respects R (client_Stat path) ->
  respects R (client_Remove path) ->
  respects R (Delete agent path).
Proof.
  intros Hconn Hstat Hremove. unfold Delete. respects_walk fail fail.
Qed.

Lemma client_Remove_failed path env s e s' :
  client_Remove path env s = (Ok (Some e), s') -> remote s' = remote s.
Proof.
  unfold client_Remove. rewrite run_bind, run_issue.
  destruct (faults env (log s) (OpRemove path)); [rewrite run_ret; intros [= _ <-]; reflexivity|].
  rewrite run_bind. cbn [get]. pushed.
  destruct (remote s !! path) as [[contents mode|]|];
    [ | | rewrite run_ret; intros [= _ <-]; reflexivity ].
  - rewrite run_bind. cbn [modify]. rewrite run_ret. discriminate.
  - destruct (children path (remote s)); [|rewrite run_ret; intros [= _ <-]; reflexivity].
    rewrite run_bind. cbn [modify]. rewrite run_ret. discriminate.
Qed.

(** X10.  [Delete] is confined to its path.  The only change it asks the
    remote host for is the removal of [path]; the remote host differs
    afterwards at most under [path]; and when [Delete] returns an error,
    the remote files are what they were. *)
Theorem Delete_confined agent path env s :
  logGrows (confinedTo [path]) s (snd (Delete agent path env s)) /\
  changesOnly [path] s (snd (Delete agent path env s)) /\
  (forall agent' e,
     fst (Delete agent path env s) = Ok (agent', Some e) ->
     remote (snd (Delete agent path env s)) = remote s).
Proof.
  assert (Hin : In path [path]) by (left; reflexivity).
  split; [|split].
  - apply Delete_respects;
      [ apply _ | apply connection_confined | apply client_Stat_confined
      | apply client_Remove_confined, Hin ].
  - apply Delete_respects;
      [ apply _ | apply connection_changesOnly | apply client_Stat_changesOnly
      | apply client_Remove_changesOnly, Hin ].
  - intros agent' e. unfold Delete. rewrite run_bind.
    pose proof (connection_sameRemote agent env s) as Hconn.
    destruct (connection agent env s) as [[[agent1 [c [e1|]]]|msg] s1];
      cbn [snd] in Hconn; [rewrite run_ret; intros _; exact Hconn| |discriminate].
    rewrite run_bind.
    pose proof (client_Stat_changesOnly [] path env s1) as Hstat.
    destruct (client_Stat path env s1) as [[[info err]|msg] s2]; cbn [snd] in Hstat;
      [|discriminate].
    assert (Hs2 : remote s2 = remote s).
    { rewrite <- Hconn. apply map_eq. intros p. apply Hstat. intros []. }
    destruct err as [e2|]; cbn [os_IsNotExist].
    + destruct (negb _); [rewrite run_ret; intros _; exact Hs2|].
      destruct info as [info|]; [|rewrite run_ret; discriminate].
      rewrite run_bind.
      destruct (client_Remove path env s2) as [[[e3|]|msg] s3] eqn:Hrm;
        [|rewrite run_ret; discriminate|discriminate].
      rewrite run_ret. intros _. cbn [snd].
      rewrite (client_Remove_failed _ _ _ _ _ Hrm). exact Hs2.
    + destruct info as [info|]; [|rewrite run_ret; discriminate].
      rewrite run_bind.
      destruct (client_Remove path env s2) as [[[e3|]|msg] s3] eqn:Hrm;
        [|rewrite run_ret; discriminate|discriminate].
      rewrite run_ret. intros _. cbn [snd].
      rewrite (client_Remove_failed _ _ _ _ _ Hrm). exact Hs2.
Qed.

Lemma Delete_confined_witness :
  remote (snd (Delete UploadExamples.demoAgent "returned/return-WEB.ach"
                 (UploadExamples.envWith removeDenied) UploadExamples.demoState))
  = remote UploadExamples.demoState.
Proof.
  refine (proj2 (proj2 (Delete_confined UploadExamples.demoAgent "returned/return-WEB.ach"
                          (UploadExamples.envWith removeDenied) UploadExamples.demoState))
            UploadExamples.connectedAgent
            (errors_New "sftp: delete: sftp: permission denied") _).
  vm_compute. reflexivity.
Defined.

(** *** The input and the outcome of an upload *)

Lemma dialLoop_notInputClose n i sftp conf c err :
  respects (logGrows notInputClose) (dialLoop n i sftp conf c err).
Proof.
  revert i c err. induction n as [|n IH]; intros i c err; cbn [dialLoop].
  - apply respects_ret, _.
  - unfold ssh_Dial. respects_walk grows_leaf ltac:(apply IH).
Qed.

Lemma uploadBody_notInputClose agent f :
  respects (logGrows notInputClose) (uploadBody agent f).
Proof.
  unfold uploadBody, connection, client_Getwd, client_Close, sftpConnect,
    chooseHostKey, chooseAuth, readSigner, openSession, hostKeyCallbackOnce_Do,
    hostKeyCallback, closeInBackground, conn_Close, ensureOutbound, client_Stat,
    client_Mkdir, client_OpenFile, writeRemote, file_ReadFrom, file_Sync,
    file_Chmod, file_Close.
  respects_walk grows_leaf ltac:(apply dialLoop_notInputClose).
Qed.

Lemma uploadBody_safe agent f : returns (fun _ => True) (uploadBody agent f).
Proof.
  unfold uploadBody, ensureOutbound, client_Stat, client_Mkdir, client_OpenFile,
    writeRemote, file_ReadFrom, file_Sync, file_Chmod, file_Close.
  returns_walk ltac:(exact I) ltac:(apply connection_safe).
Qed.

(** X13.  The File's contents will always be closed: whatever [UploadFile]
    returns, the input has been closed exactly once, and that was the
    last thing the call did. *)
Theorem UploadFile_closes_input agent f env s :
  exists r ops,
    fst (UploadFile agent f env s) = Ok r /\
    log (snd (UploadFile agent f env s)) = OpInputClose (Filename f) :: ops ++ log s /\
    Forall notInputClose ops.
Proof.
  unfold UploadFile. rewrite run_bind.
  destruct (uploadBody_safe agent f env s) as (r & Hr & _).
  destruct (uploadBody_notInputClose agent f env s) as (ops & Hlog & Hops).
  destruct (uploadBody agent f env s) as [r' s1]. cbn [fst snd] in *. subst r'.
  rewrite run_bind. unfold emit. cbn [modify]. rewrite run_ret. cbn [fst snd].
  exists r, ops. rewrite log_pushLog, Hlog. auto.
Qed.

Lemma writeRemote_success (fd : string) f env s s' :
  writeRemote fd f env s = (Ok None, s') ->
  remote s' !! fd = Some (RegularFile (Contents f) 384) /\
  log s' = OpFClose fd :: OpFChmod fd 384 :: OpFSync fd :: OpFWrite fd (Contents f) :: log s.
Proof.
  unfold writeRemote. rewrite run_bind, run_file_ReadFrom.
  destruct (faults env (log s) (OpFWrite fd (Contents f))) as [fw|].
  { rewrite run_bind, run_file_Close, run_ret. discriminate. }
  destruct (remote s !! fd) as [[contents mode|]|];
    [ | rewrite run_bind, run_file_Close, run_ret; discriminate
      | rewrite run_bind, run_file_Close, run_ret; discriminate ].
  rewrite run_bind, run_file_Sync.
  match goal with
  | |- context [faults env ?h (OpFSync fd)] => destruct (faults env h (OpFSync fd)) as [fs|]
  end; cbn [fmap option_fmap option_map].
  - destruct (negb (Contains (Error (failure fs)) "SSH_FX_OP_UNSUPPORTED"));
      [rewrite run_ret; discriminate|].
    rewrite run_bind, run_file_Chmod. normal.
    destruct (faults env _ (OpFChmod fd 384)); [rewrite run_ret; discriminate|].
    rewrite lookup_insert_eq, run_bind, run_file_Close. normal.
    destruct (faults env _ (OpFClose fd)); cbn [fmap option_fmap option_map];
      rewrite run_ret; [discriminate|].
    intros [= <-]. normal. rewrite lookup_insert_eq. split; reflexivity.
  - rewrite run_bind, run_file_Chmod. normal.
    destruct (faults env _ (OpFChmod fd 384)); [rewrite run_ret; discriminate|].
    rewrite lookup_insert_eq, run_bind, run_file_Close. normal.
    destruct (faults env _ (OpFClose fd)); cbn [fmap option_fmap option_map];
      rewrite run_ret; [discriminate|].
    intros [= <-]. normal. rewrite lookup_insert_eq. split; reflexivity.
Qed.

Lemma client_OpenFile_log path env s : log (snd (client_OpenFile path env s)) = OpOpenFile path :: log s.
Proof.
  unfold client_OpenFile. rewrite run_bind, run_issue.
  destruct (faults env (log s) (OpOpenFile path)); [rewrite run_ret; reflexivity|].
  rewrite run_bind. cbn [get]. pushed.
  destruct (remote s !! path) as [[contents mode|]|];
    [ | rewrite run_ret; reflexivity | ];
    rewrite run_bind; cbn [modify]; rewrite run_ret; reflexivity.
Qed.

(** X12.  What a nil result of [UploadFile] means: the remote file named by
    the base name of the file inside the outbound directory holds the
    contents of the file with mode 0600, and the call ended with the
    open, the write, the sync, the chmod and the close of that remote
    file and the close of the input, in this order. *)
Theorem UploadFile_success agent f env s agent' s' :
  UploadFile agent f env s = (Ok (agent', None), s') ->
  let path := filepath_Join (Outbound (Paths (cfg agent))) (filepath_Base (Filename f)) in
  remote s' !! path = Some (RegularFile (Contents f) 384) /\
  exists h,
    log s' = OpInputClose (Filename f) :: OpFClose path :: OpFChmod path 384 ::
             OpFSync path :: OpFWrite path (Contents f) :: OpOpenFile path :: h.
Proof.
  unfold UploadFile, uploadBody. rewrite !run_bind.
  destruct (connection agent env s) as [[[agent1 [c [e|]]]|msg] s1] eqn:Hconn;
    [ rewrite run_ret, run_bind; unfold emit; cbn [modify]; rewrite run_ret; discriminate
    | | discriminate ].
  apply connection_keeps_cfg in Hconn. rewrite Hconn.
  rewrite run_bind.
  destruct (ensureOutbound agent1 env s1) as [[[e|]|msg] s2];
    [ rewrite run_ret, run_bind; unfold emit; cbn [modify]; rewrite run_ret; discriminate
    | | discriminate ].
  rewrite run_bind.
  pose proof (client_OpenFile_log
    (filepath_Join (Outbound (Paths (cfg agent))) (filepath_Base (Filename f))) env s2)
    as Hlog.
  destruct (client_OpenFile _ env s2) as [[[fd|e]|msg] s3] eqn:Hopen;
    [ | rewrite run_ret, run_bind; unfold emit; cbn [modify]; rewrite run_ret; discriminate
      | discriminate ].
  apply client_OpenFile_handle in Hopen. subst fd. cbn [snd] in Hlog.
  rewrite run_bind.
  destruct (writeRemote _ f env s3) as [[[e|]|msg] s4] eqn:Hwrite;
    [ rewrite run_ret, run_bind; unfold emit; cbn [modify]; rewrite run_ret; discriminate
    | | discriminate ].
  apply writeRemote_success in Hwrite. destruct Hwrite as (Hfile & Hsteps).
  rewrite run_ret, run_bind. unfold emit. cbn [modify]. rewrite run_ret.
  intros [= <- <-]. cbv zeta. normal. split; [exact Hfile|].
  exists (log s2). rewrite Hsteps, Hlog. reflexivity.
Qed.

Lemma UploadFile_success_witness :
  remote (snd (UploadFile UploadExamples.demoAgent UploadExamples.outgoing
                 UploadExamples.demoEnv UploadExamples.demoState))
    !! "outbound/20200529-131400.ach"
  = Some (RegularFile (Contents UploadExamples.outgoing) 384).
Proof.
  refine (proj1 (UploadFile_success UploadExamples.demoAgent UploadExamples.outgoing
                   UploadExamples.demoEnv UploadExamples.demoState
                   UploadExamples.connectedAgent _ _)).
  vm_compute. reflexivity.
Defined.

(** *** The calls that only read *)

Lemma record_both (R : State -> State -> Prop) `{!PreOrder R} agent err :
  (forall host v s, R s (setUp host v s)) -> respects R (record agent err).
Proof.
  intros Hup. unfold record.
  respects_walk ltac:(intros ?; apply Hup) fail.
Qed.

Lemma client_ReadDir_confined paths path :
  respects (logGrows (confinedTo paths)) (client_ReadDir path).
Proof. unfold client_ReadDir. respects_walk ltac:(confined_leaf I) fail. Qed.

Lemma client_ReadDir_sameRemote path : respects sameRemote (client_ReadDir path).
Proof. unfold client_ReadDir. respects_walk same_remote_leaf fail. Qed.

Lemma readEntries_confined paths dir infos :
  forall files, respects (logGrows (confinedTo paths)) (readEntries dir infos files).
Proof.
  induction infos as [|entry infos IH]; intros files; cbn [readEntries].
  - apply respects_ret, _.
  - unfold client_Open, file_Stat, file_WriteTo, file_Close.
    respects_walk ltac:(confined_leaf I) ltac:(apply IH).
Qed.

Lemma setUp_confined paths host v s : logGrows (confinedTo paths) s (setUp host v s).
Proof. exists []. split; [reflexivity | constructor]. Qed.

Lemma setUp_sameRemote host v s : sameRemote s (setUp host v s).
Proof. reflexivity. Qed.

(** X9.  The calls that are meant to read do nothing else: connecting,
    constructing an agent, [Ping], [Close] and the three listings never
    ask the remote host for a change (no remove, mkdir, open for
    writing, write or chmod), and leave the remote files as they were,
    whatever fails on the way. *)
Theorem read_only_calls call env s :
  readOnlyCall call = true ->
  logGrows (confinedTo []) s (runCall call env s) /\
  remote (runCall call env s) = remote s.
Proof.
  intros Hcall. split.
  - revert env s. destruct call as [config|config|agent|agent|agent path|agent f|l agent];
      try discriminate; cbn [runCall]; intros env s.
    + apply sftpConnect_confined.
    + revert env s.
      change (respects (logGrows (confinedTo [])) (newSFTPTransferAgent config)).
      unfold newSFTPTransferAgent.
      respects_walk ltac:(confined_leaf I)
        ltac:(first [ apply connection_confined
                    | apply record_both; [apply _ | apply setUp_confined] ]).
    + revert env s. change (respects (logGrows (confinedTo [])) (Ping agent)).
      unfold Ping.
      respects_walk ltac:(confined_leaf I)
        ltac:(first [ apply connection_confined | apply client_ReadDir_confined
                    | apply record_both; [apply _ | apply setUp_confined] ]).
    + revert env s. change (respects (logGrows (confinedTo [])) (Close agent)).
      unfold Close, client_Close, conn_Close.
      respects_walk ltac:(confined_leaf I) fail.
    + rewrite GetFiles_readFiles. revert env s.
      change (respects (logGrows (confinedTo [])) (readFiles agent (listingPath l agent))).
      unfold readFiles.
      respects_walk ltac:(confined_leaf I)
        ltac:(first [ apply connection_confined | apply client_ReadDir_confined
                    | apply readEntries_confined ]).
  - revert env s. destruct call as [config|config|agent|agent|agent path|agent f|l agent];
      try discriminate; cbn [runCall]; intros env s.
    + apply sftpConnect_sameRemote.
    + revert env s. change (respects sameRemote (newSFTPTransferAgent config)).
      unfold newSFTPTransferAgent.
      respects_walk same_remote_leaf
        ltac:(first [ apply connection_sameRemote
                    | apply record_both; [apply _ | apply setUp_sameRemote] ]).
    + revert env s. change (respects sameRemote (Ping agent)).
      unfold Ping.
      respects_walk same_remote_leaf
        ltac:(first [ apply connection_sameRemote | apply client_ReadDir_sameRemote
                    | apply record_both; [apply _ | apply setUp_sameRemote] ]).
    + revert env s. change (respects sameRemote (Close agent)).
      unfold Close, client_Close, conn_Close.
      respects_walk same_remote_leaf fail.
    + rewrite GetFiles_readFiles. apply readFiles_sameRemote.
Qed.

Lemma read_only_calls_witness :
  remote (runCall (CallGetFiles ReturnFiles UploadExamples.demoAgent)
            UploadExamples.demoEnv UploadExamples.demoState)
  = remote UploadExamples.demoState.
Proof.
  exact (proj2 (read_only_calls (CallGetFiles ReturnFiles UploadExamples.demoAgent)
                  UploadExamples.demoEnv UploadExamples.demoState eq_refl)).
Defined.

(** *** Constructing an agent *)

(** An agent without a client connects anew: a nil error comes with a
    fresh client on a fresh connection. *)
Lemma connection_fresh agent env s agent1 c s1 :
  client agent = None ->
  connection agent env s = (Ok (agent1, (c, None)), s1) ->
  client agent1 = Some SFTPClient /\ conn agent1 = Some SSHClient /\ c = Some SFTPClient.
Proof.
  intros Hnone. unfold connection. rewrite Hnone.
  repeat (rewrite run_bind || rewrite run_ret).
  destruct (sftpConnect_returns (cfg agent) env s) as ([c0 e0] & Hrun & Hone & _).
  destruct (sftpConnect (cfg agent) env s) as [r s0]. cbn [fst] in Hrun. subst r.
  destruct e0 as [e|]; [rewrite run_ret; discriminate|].
  destruct c0 as [[]|]; [|contradiction].
  cbn [cfg]. destruct (SFTP (cfg agent)) as [sftp|]; [|discriminate].
  rewrite run_bind, run_perform.
  destruct (faults env (log s0) _); cbn [fmap option_fmap option_map].
  - rewrite run_bind. unfold closeInBackground, conn_Close.
    rewrite run_bind, run_perform, !run_ret. discriminate.
  - rewrite run_ret. intros [= <- <- _]. auto.
Qed.

(** X1.  What [newSFTPTransferAgent] returns.  Without a configuration, or
    with a host outside the allowed addresses, it returns the error and
    no agent, and nothing at all has happened: no request, no gauge.
    Otherwise it returns an agent that holds the configuration, together
    with the outcome of connecting, and the gauge sftp_agent_up of the
    host shows that outcome; with a nil error the agent holds a live
    client on a live connection. *)
Theorem newSFTPTransferAgent_outcome config env s :
  let run := newSFTPTransferAgent config env s in
  match config with
  | None => run = (Ok (None, Some (errors_New "nil SFTP config")), s)
  | Some cfg0 =>
      match SFTP cfg0 with
      | None => run = (Ok (None, Some (errors_New "nil SFTP config")), s)
      | Some sftp =>
          match rejectOutboundIPRange env (SplitAllowedIPs cfg0) (Hostname sftp) with
          | Some e =>
              run = (Ok (None, Some (errors_New ("sftp: " +:+ Hostname sftp
                                       +:+ " is not whitelisted: " +:+ Error e))), s)
          | None =>
              exists agent err,
                fst run = Ok (Some agent, err) /\
                cfg agent = cfg0 /\
                sftpAgentUp (snd run) !! Hostname sftp = Some (upValue err) /\
                match err with
                | None => client agent = Some SFTPClient /\ conn agent = Some SSHClient
                | Some _ => True
                end
          end
      end
  end.
Proof.
  intros run. subst run. unfold newSFTPTransferAgent.
  destruct config as [cfg0|]; [|reflexivity].
  destruct (SFTP cfg0) as [sftp|] eqn:Hcfg; [|reflexivity].
  rewrite run_bind. cbn [ask].
  destruct (rejectOutboundIPRange env (SplitAllowedIPs cfg0) (Hostname sftp)) as [e|];
    [reflexivity|].
  rewrite run_bind.
  set (agent0 := {| conn := None; client := None; cfg := cfg0 |}).
  destruct (connection_safe agent0 env s) as ([agent1 [c err]] & Hrun & _).
  destruct (connection agent0 env s) as [r s1] eqn:Hconn. cbn [fst] in Hrun. subst r.
  pose proof (connection_keeps_cfg _ _ _ _ _ _ Hconn) as Hsame. cbn [cfg agent0] in Hsame.
  rewrite run_bind. unfold record. rewrite Hsame, Hcfg.
  exists agent1, err.
  destruct err as [e|]; cbn [modify]; rewrite run_ret; cbn [fst snd].
  - split; [reflexivity|]. split; [exact Hsame|]. split; [|exact I].
    rewrite lookup_setUp, decide_True by reflexivity. reflexivity.
  - split; [reflexivity|]. split; [exact Hsame|]. split.
    + rewrite lookup_setUp, decide_True by reflexivity. reflexivity.
    + destruct (connection_fresh agent0 env s agent1 c s1 eq_refl Hconn) as (Hc & Hn & _).
      auto.
Qed.

(** *** Remote handles *)

Lemma dialLoop_connects n i sftp conf c err :
  respects (logGrows connects) (dialLoop n i sftp conf c err).
Proof.
  revert i c err. induction n as [|n IH]; intros i c err; cbn [dialLoop].
  - apply respects_ret, _.
  - unfold ssh_Dial. respects_walk ltac:(confined_leaf I) ltac:(apply IH).
Qed.

(** Connecting makes no request but those of connecting. *)
Lemma connection_connects agent : respects (logGrows connects) (connection agent).
Proof.
  unfold connection, client_Getwd, client_Close, sftpConnect, chooseHostKey,
    chooseAuth, readSigner, openSession, hostKeyCallbackOnce_Do, hostKeyCallback,
    closeInBackground, conn_Close.
  respects_walk ltac:(confined_leaf I) ltac:(apply dialLoop_connects).
Qed.

Lemma handlesAfter_app env fs h ops1 ops2 opened :
  handlesAfter env fs h (ops1 ++ ops2) opened =
  handlesAfter env fs (rev ops1 ++ h) ops2 (handlesAfter env fs h ops1 opened).
Proof.
  revert h opened. induction ops1 as [|op ops1 IH]; intros h opened; [reflexivity|].
  cbn [app handlesAfter rev]. rewrite IH, <- app_assoc. reflexivity.
Qed.

Lemma handlesAfter_noHandle env fs ops :
  Forall noHandle ops -> forall h opened, handlesAfter env fs h ops opened = opened.
Proof.
  induction 1 as [|op ops Hop _ IH]; intros h opened; [reflexivity|].
  cbn [handlesAfter]. rewrite IH. destruct op; try reflexivity; contradiction.
Qed.

Lemma closesItsHandles_refl env s : closesItsHandles env s s.
Proof. split; [reflexivity|]. exists []. split; reflexivity. Qed.

Lemma closesItsHandles_trans env s1 s2 s3 :
  closesItsHandles env s1 s2 -> closesItsHandles env s2 s3 -> closesItsHandles env s1 s3.
Proof.
  intros (Hfs1 & ops1 & Hlog1 & Hops1) (Hfs2 & ops2 & Hlog2 & Hops2).
  split; [congruence|]. exists (ops1 ++ ops2). split.
  - rewrite Hlog2, Hlog1, rev_app_distr, app_assoc. reflexivity.
  - intros opened. rewrite handlesAfter_app, Hops1, <- Hlog1, <- Hfs1. apply Hops2.
Qed.

Lemma closesItsHandles_noHandle env s s' :
  remote s' = remote s -> logGrows noHandle s s' -> closesItsHandles env s s'.
Proof.
  intros Hfs (ops & Hlog & Hops). split; [exact Hfs|].
  exists (rev ops). split; [rewrite rev_involutive; exact Hlog|].
  intros opened. apply handlesAfter_noHandle. apply Forall_rev. exact Hops.
Qed.

Lemma connects_noHandle op : connects op -> noHandle op.
Proof. destruct op; simpl; tauto. Qed.

Lemma closeHandle_head path opened : closeHandle path (path :: opened) = opened.
Proof. cbn [closeHandle]. rewrite String.eqb_refl. reflexivity. Qed.

(** One entry of a listing, up to the point where the loop goes on or
    returns: the handle is closed if it was opened. *)
Lemma readEntries_closesItsHandles env dir infos :
  forall files s, closesItsHandles env s (snd (readEntries dir infos files env s)).
Proof.
  induction infos as [|entry infos IH]; intros files s; cbn [readEntries].
  { apply closesItsHandles_refl. }
  set (p := filepath_Join dir (Name entry)).
  assert (Hopened : forall s2 ops,
    remote s2 = remote s ->
    log s2 = rev (OpOpen p :: ops ++ [OpFClose p]) ++ log s ->
    Forall noHandle ops ->
    faults env (log s) (OpOpen p) = None ->
    remote s !! p <> None ->
    closesItsHandles env s s2).
  { intros s2 ops Hfs Hlog Hops Hflt Hp. split; [exact Hfs|].
    exists (OpOpen p :: ops ++ [OpFClose p]). split; [exact Hlog|].
    intros opened. cbn [handlesAfter]. rewrite Hflt.
    destruct (remote s !! p) as [node|]; [|congruence].
    rewrite handlesAfter_app, (handlesAfter_noHandle _ _ _ Hops).
    cbn [handlesAfter]. apply closeHandle_head. }
  rewrite run_bind, run_client_Open.
  destruct (faults env (log s) (OpOpen p)) as [flt|] eqn:Hflt.
  { rewrite run_ret. cbn [snd]. split; [reflexivity|].
    exists [OpOpen p]. split; [reflexivity|].
    intros opened. cbn [handlesAfter]. rewrite Hflt. reflexivity. }
  destruct (remote s !! p) as [node|] eqn:Hp.
  2:{ rewrite run_ret. cbn [snd]. split; [reflexivity|].
      exists [OpOpen p]. split; [reflexivity|].
      intros opened. cbn [handlesAfter]. rewrite Hflt, Hp. reflexivity. }
  assert (Hsome : remote s !! p <> None) by congruence.
  rewrite run_bind, run_file_Stat.
  match goal with
  | |- context [match ?r with inl _ => _ | inr _ => _ end] => destruct r as [info|e]
  end.
  2:{ rewrite run_bind, run_file_Close, run_ret. cbn [snd].
      apply (Hopened _ [OpFStat p]); auto. constructor; [exact I | constructor]. }
  destruct (IsDir info).
  { rewrite run_bind, run_file_Close.
    eapply closesItsHandles_trans; [|apply IH].
    apply (Hopened _ [OpFStat p]); auto. constructor; [exact I | constructor]. }
  rewrite run_bind, run_file_WriteTo.
  match goal with
  | |- context [match ?r with (_, _) => _ end] => destruct r as [[buf n] [e|]]
  end.
  - rewrite run_bind, run_file_Close.
    assert (Hround : closesItsHandles env s
              (pushLog (OpFClose p) (pushLog (OpFRead p) (pushLog (OpFStat p)
                 (pushLog (OpOpen p) s))))).
    { apply (Hopened _ [OpFStat p; OpFRead p]); auto.
      repeat constructor. }
    destruct (negb _); rewrite run_ret; exact Hround.
  - rewrite run_bind, run_file_Close.
    eapply closesItsHandles_trans; [|apply IH].
    apply (Hopened _ [OpFStat p; OpFRead p]); auto.
    repeat constructor.
Qed.

Lemma readEntries_all_or_nothing dir infos :
  forall files env s r e,
    fst (readEntries dir infos files env s) = Ok (r, Some e) -> r = [].
Proof.
  induction infos as [|entry infos IH]; intros files env s r e; cbn [readEntries].
  { rewrite run_ret. discriminate. }
  set (p := filepath_Join dir (Name entry)).
  rewrite run_bind, run_client_Open.
  match goal with
  | |- context [match ?x with inl _ => _ | inr _ => _ end] => destruct x as [fd|e1]
  end; [|rewrite run_ret; intros [= <- _]; reflexivity].
  rewrite run_bind, run_file_Stat.
  match goal with
  | |- context [match ?x with inl _ => _ | inr _ => _ end] => destruct x as [info|e1]
  end; [|rewrite run_bind, run_file_Close, run_ret; intros [= <- _]; reflexivity].
  destruct (IsDir info).
  { rewrite run_bind, run_file_Close. apply IH. }
  rewrite run_bind, run_file_WriteTo.
  match goal with
  | |- context [match ?x with (_, _) => _ end] => destruct x as [[buf n] [e1|]]
  end.
  - rewrite run_bind, run_file_Close.
    destruct (negb _); rewrite run_ret; intros [= <- _]; reflexivity.
  - rewrite run_bind, run_file_Close. apply IH.
Qed.

(** X15.  A listing leaks no remote handle and returns all or nothing.
    However GetInboundFiles, GetReconciliationFiles or GetReturnFiles
    ends, every remote file it has opened has been closed again and the
    remote files are what they were; and when it returns an error it
    returns no files, also when files had been read before the one that
    failed. *)
Theorem GetFiles_closes_its_handles l agent env s :
  closesItsHandles env s (snd (GetFiles l agent env s)) /\
  match fst (GetFiles l agent env s) with
  | Ok (_, (files, Some _)) => files = []
  | _ => True
  end.
Proof.
  rewrite GetFiles_readFiles. set (dir := listingPath l agent). clearbody dir.
  unfold readFiles. rewrite run_bind.
  assert (Hconn : closesItsHandles env s (snd (connection agent env s))).
  { apply closesItsHandles_noHandle; [apply connection_sameRemote|].
    eapply logGrows_weaken; [apply connects_noHandle | apply connection_connects]. }
  destruct (connection agent env s) as [[[agent1 [c [e|]]]|msg] s1]; cbn [snd] in Hconn;
    [ rewrite run_ret; split; [exact Hconn | reflexivity]
    | | split; [exact Hconn | exact I] ].
  rewrite run_bind, run_client_ReadDir.
  assert (Hdir : closesItsHandles env s (pushLog (OpReadDir dir) s1)).
  { eapply closesItsHandles_trans; [exact Hconn|].
    apply closesItsHandles_noHandle; [reflexivity|].
    exists [OpReadDir dir]. split; [reflexivity|]. repeat constructor. }
  match goal with
  | |- context [match ?x with inl _ => _ | inr _ => _ end] => destruct x as [infos|e]
  end; [|rewrite run_ret; split; [exact Hdir | reflexivity]].
  rewrite run_bind.
  pose proof (readEntries_closesItsHandles env dir infos [] (pushLog (OpReadDir dir) s1))
    as Hloop.
  pose proof (readEntries_all_or_nothing dir infos [] env (pushLog (OpReadDir dir) s1))
    as Hnone.
  destruct (readEntries dir infos [] env (pushLog (OpReadDir dir) s1))
    as [[[files err]|msg] s2]; cbn [fst snd] in *.
  - rewrite run_ret. cbn [fst snd]. split.
    + eapply closesItsHandles_trans; [exact Hdir | exact Hloop].
    + destruct err as [e|]; [|exact I]. apply (Hnone files e). reflexivity.
  - split; [|exact I]. eapply closesItsHandles_trans; [exact Hdir | exact Hloop].
Qed.

(** X14.  When the write went through and then the sync fails for another
    reason than a server without sync, or the chmod fails, the error is
    returned and the remote handle is left open: no close is requested
    on it. *)
Theorem writeRemote_leaves_handle_open (fd : string) f env s contents mode :
  remote s !! fd = Some (RegularFile contents mode) ->
  let write := OpFWrite fd (Contents f) in
  let h1 := write :: log s in
  let h2 := OpFSync fd :: h1 in
  faults env (log s) write = None ->
  tolerated (faults env h1 (OpFSync fd)) = false \/
  faults env h2 (OpFChmod fd 384) <> None ->
  (exists e, fst (writeRemote fd f env s) = Ok (Some e)) /\
  logGrows (notClose fd) s (snd (writeRemote fd f env s)).
Proof.
  intros Hfd write h1 h2 Hwrite Hfails. subst h2 h1 write.
  unfold writeRemote. rewrite run_bind, run_file_ReadFrom, Hwrite, Hfd.
  rewrite run_bind, run_file_Sync. normal.
  destruct (faults env (OpFWrite fd (Contents f) :: log s) (OpFSync fd)) as [fs|] eqn:Hs;
    cbn [fmap option_fmap option_map tolerated] in *.
  - destruct (Contains (Error (failure fs)) "SSH_FX_OP_UNSUPPORTED") eqn:Hun; cbn [negb].
    + destruct Hfails as [Hfails|Hfails]; [discriminate|].
      rewrite run_bind, run_file_Chmod. normal.
      destruct (faults env _ (OpFChmod fd 384)) as [fc|]; [|congruence].
      rewrite run_ret. cbn [fst snd]. split; [eauto|].
      exists [OpFChmod fd 384; OpFSync fd; OpFWrite fd (Contents f)].
      split; [reflexivity|]. repeat constructor.
    + rewrite run_ret. cbn [fst snd]. split; [eauto|].
      exists [OpFSync fd; OpFWrite fd (Contents f)].
      split; [reflexivity|]. repeat constructor.
  - destruct Hfails as [Hfails|Hfails]; [discriminate|].
    rewrite run_bind, run_file_Chmod. normal.
    destruct (faults env _ (OpFChmod fd 384)) as [fc|]; [|congruence].
    rewrite run_ret. cbn [fst snd]. split; [eauto|].
    exists [OpFChmod fd 384; OpFSync fd; OpFWrite fd (Contents f)].
    split; [reflexivity|]. repeat constructor.
Qed.

Lemma writeRemote_leaves_handle_open_witness :
  logGrows (notClose "outbound/20200529-131400.ach") UploadExamples.openedState
    (snd (writeRemote "outbound/20200529-131400.ach" UploadExamples.outgoing
            (UploadExamples.envWith UploadExamples.syncFails)
            UploadExamples.openedState)).
Proof.
  refine (proj2 (writeRemote_leaves_handle_open "outbound/20200529-131400.ach"
                   UploadExamples.outgoing
                   (UploadExamples.envWith UploadExamples.syncFails)
                   UploadExamples.openedState [] 420 _ _ _)).
  - vm_compute. reflexivity.
  - reflexivity.
  - left. vm_compute. reflexivity.
Defined.

(** *** One connection for many calls *)

(** X2.  A connection that has been made is used again.  When [connection]
    returns a client, the agent it leaves holds that client; and the
    next [connection] of that agent, in whatever world, returns the same
    client after the one request that probes it, as long as the probe
    is answered: nothing is dialled and the agent stays as it is. *)
Theorem connection_is_reused agent env s agent1 c s1 :
  connection agent env s = (Ok (agent1, (c, None)), s1) ->
  (exists cl, c = Some cl /\ client agent1 = Some cl) /\
  forall env' s2,
    faults env' (log s2) OpGetwd = None ->
    connection agent1 env' s2 = (Ok (agent1, (c, None)), pushLog OpGetwd s2).
Proof.
  intros Hconn.
  assert (Hheld : exists cl, c = Some cl /\ client agent1 = Some cl).
  { destruct (client agent) as [cl|] eqn:Hcl.
    - revert Hconn. unfold connection. rewrite Hcl.
      rewrite !run_bind. unfold client_Getwd. rewrite run_perform.
      destruct (faults env (log s) OpGetwd) as [flt|]; cbn [fmap option_fmap option_map].
      + rewrite run_bind. unfold client_Close. rewrite run_perform, run_ret, run_bind.
        match goal with |- context [sftpConnect (cfg agent) env ?st] =>
          destruct (sftpConnect_returns (cfg agent) env st) as ([c0 e0] & Hrun & Hone & _);
          destruct (sftpConnect (cfg agent) env st) as [r s0]
        end.
        cbn [fst] in Hrun. subst r.
        destruct e0 as [e|]; [rewrite run_ret; discriminate|].
        cbn [cfg]. destruct (SFTP (cfg agent)) as [sftp|]; [|discriminate].
        rewrite run_bind, run_perform.
        destruct (faults env (log s0) _); cbn [fmap option_fmap option_map].
        * rewrite run_bind. unfold closeInBackground, conn_Close.
          rewrite run_bind, run_perform, !run_ret. discriminate.
        * rewrite run_ret. intros [= <- <- _]. eauto.
      + rewrite !run_ret. intros [= <- <- _]. eauto.
    - destruct (connection_fresh agent env s agent1 c s1 Hcl Hconn) as (Hc & _ & ->).
      eauto. }
  split; [exact Hheld|].
  destruct Hheld as (cl & -> & Hcl).
  intros env' s2 Hprobe. unfold connection. rewrite Hcl.
  rewrite !run_bind. unfold client_Getwd. rewrite run_perform, Hprobe.
  reflexivity.
Qed.

Lemma connection_is_reused_witness :
  connection UploadExamples.connectedAgent UploadExamples.demoEnv UploadExamples.demoConnected
  = (Ok (UploadExamples.connectedAgent, (Some SFTPClient, None)),
     pushLog OpGetwd UploadExamples.demoConnected).
Proof.
  refine (proj2 (connection_is_reused UploadExamples.demoAgent UploadExamples.demoEnv
                   UploadExamples.demoState UploadExamples.connectedAgent
                   (Some SFTPClient) UploadExamples.demoConnected _)
            UploadExamples.demoEnv UploadExamples.demoConnected _).
  - vm_compute. reflexivity.
  - reflexivity.
Defined.

(** *** The SSH connection behind the client *)

Ltac pre_leaf :=
  intros ?;
  first
    [ exists []; split; [reflexivity | constructor]
    | eexists [_]; split;
      [ reflexivity | constructor; [split; discriminate | constructor] ] ].

Lemma dialLoop_preSession n i sftp conf c err :
  respects (logGrows preSession) (dialLoop n i sftp conf c err).
Proof.
  revert i c err. induction n as [|n IH]; intros i c err; cbn [dialLoop].
  - apply respects_ret, _.
  - unfold ssh_Dial. respects_walk pre_leaf ltac:(apply IH).
Qed.

Lemma chooseHostKey_preSession sftp : respects (logGrows preSession) (chooseHostKey sftp).
Proof.
  unfold chooseHostKey, hostKeyCallbackOnce_Do, hostKeyCallback.
  respects_walk pre_leaf fail.
Qed.

Lemma chooseAuth_pure sftp env s : snd (chooseAuth sftp env s) = s.
Proof.
  unfold chooseAuth. destruct (negb _); [reflexivity|].
  destruct (negb _); [|reflexivity].
  rewrite run_bind, run_readSigner. destruct (parseSigner _ _); reflexivity.
Qed.

Lemma preSession_notSSHClose ops : Forall preSession ops -> Forall notSSHClose ops.
Proof. intros H. eapply Forall_impl; [exact H | intros op [Hop _]; exact Hop]. Qed.

(** The session part: a success closes nothing, a failure closes the
    connection as the last thing. *)
Lemma openSession_settled c env s :
  exists r err ops,
    openSession c env s = (Ok (r, err), snd (openSession c env s)) /\
    log (snd (openSession c env s)) = ops ++ log s /\
    match err with
    | None => Forall notSSHClose ops
    | Some _ => exists ops', ops = OpSSHClose :: ops'
    end.
Proof.
  unfold openSession, closeInBackground, conn_Close.
  rewrite run_bind, run_perform.
  destruct (faults env (log s) OpNewSession); cbn [fmap option_fmap option_map].
  { rewrite !run_bind, run_perform, !run_ret. cbn [snd].
    eexists _, (Some _), [_; _]. split; [reflexivity|]. split; [|eauto].
    normal. reflexivity. }
  rewrite run_bind, run_perform. normal.
  destruct (faults env _ (OpRequestSubsystem "sftp")); cbn [fmap option_fmap option_map].
  { rewrite !run_bind, run_perform, !run_ret. cbn [snd].
    eexists _, (Some _), [_; _; _]. split; [reflexivity|]. split; [|eauto].
    normal. reflexivity. }
  rewrite run_bind, run_perform. normal.
  destruct (faults env _ OpStdinPipe); cbn [fmap option_fmap option_map].
  { rewrite !run_bind, run_perform, !run_ret. cbn [snd].
    eexists _, (Some _), [_; _; _; _]. split; [reflexivity|]. split; [|eauto].
    normal. reflexivity. }
  rewrite run_bind, run_perform. normal.
  destruct (faults env _ OpStdoutPipe); cbn [fmap option_fmap option_map].
  { rewrite !run_bind, run_perform, !run_ret. cbn [snd].
    eexists _, (Some _), [_; _; _; _; _]. split; [reflexivity|]. split; [|eauto].
    normal. reflexivity. }
  rewrite run_ret. cbn [snd].
  eexists _, None, [_; _; _; _]. split; [reflexivity|]. split; [normal; reflexivity|].
  repeat constructor; discriminate.
Qed.

Lemma settled_after_pre err ops pre :
  Forall preSession pre ->
  match err with
  | None => Forall notSSHClose ops
  | Some _ => exists ops', ops = OpSSHClose :: ops'
  end ->
  settled err (ops ++ pre).
Proof.
  intros Hpre Hops. destruct err as [e|]; cbn [settled].
  - right. destruct Hops as (ops' & ->). eauto.
  - apply Forall_app. split; [exact Hops | apply preSession_notSSHClose, Hpre].
Qed.

Lemma sftpConnect_settled config env s :
  exists c err ops,
    sftpConnect config env s = (Ok (c, err), snd (sftpConnect config env s)) /\
    log (snd (sftpConnect config env s)) = ops ++ log s /\
    exactlyOne (c, err) /\
    (err = None -> SFTP config <> None) /\
    settled err ops /\
    (err <> None \/ Forall notSSHClose ops).
Proof.
  destruct (sftpConnect_returns config env s) as ([c err] & Hrun & Hone & Hcfg).
  cbn [snd] in Hcfg.
  exists c, err.
  assert (Hsame : sftpConnect config env s = (Ok (c, err), snd (sftpConnect config env s))).
  { destruct (sftpConnect config env s) as [r s']. cbn [fst snd] in *. congruence. }
  enough (exists ops, log (snd (sftpConnect config env s)) = ops ++ log s /\ settled err ops)
    as (ops & Hlog & Hset).
  { exists ops. repeat split; try assumption.
    destruct err as [e|]; [left; discriminate | right; exact Hset]. }
  clear Hone Hcfg. revert Hrun Hsame. unfold sftpConnect.
  destruct (SFTP config) as [sftp|].
  2:{ rewrite run_ret. cbn [fst snd]. intros [= <- <-] _.
      exists []. split; [reflexivity | left; constructor]. }
  rewrite run_bind.
  pose proof (chooseHostKey_preSession sftp env s) as (ops1 & Hlog1 & Hops1).
  destruct (chooseHostKey sftp env s) as [[[hostKey|e]|msg] s1]; cbn [snd] in Hlog1;
    [ | rewrite run_ret; cbn [fst snd]; intros [= <- <-] _;
        exists ops1; split; [exact Hlog1 | left; exact Hops1]
      | discriminate ].
  rewrite run_bind.
  pose proof (chooseAuth_pure sftp env s1) as Hpure.
  destruct (chooseAuth sftp env s1) as [[[auth|e]|msg] s2]; cbn [snd] in Hpure; subst s2;
    [ | rewrite run_ret; cbn [fst snd]; intros [= <- <-] _;
        exists ops1; split; [exact Hlog1 | left; exact Hops1]
      | discriminate ].
  cbv zeta. rewrite run_bind.
  match goal with
  | |- context [dialLoop 3 0 sftp ?conf None None env s1] =>
      pose proof (dialLoop_preSession 3 0 sftp conf None None env s1) as (ops2 & Hlog2 & Hops2);
      destruct (dialLoop 3 0 sftp conf None None env s1) as [[[[cl|] [e|]]|msg] s2]
  end; cbn [snd] in Hlog2; try discriminate.
  - destruct (openSession_settled cl env s2) as (r & err' & ops3 & Hrun3 & Hlog3 & Hops3).
    rewrite Hrun3. cbn [fst snd]. intros [= <- <-] _.
    exists (ops3 ++ ops2 ++ ops1). split.
    + rewrite Hlog3, Hlog2, Hlog1, !app_assoc. reflexivity.
    + apply settled_after_pre; [apply Forall_app; split; assumption | exact Hops3].
  - destruct (openSession_settled cl env s2) as (r & err' & ops3 & Hrun3 & Hlog3 & Hops3).
    rewrite Hrun3. cbn [fst snd]. intros [= <- <-] _.
    exists (ops3 ++ ops2 ++ ops1). split.
    + rewrite Hlog3, Hlog2, Hlog1, !app_assoc. reflexivity.
    + apply settled_after_pre; [apply Forall_app; split; assumption | exact Hops3].
  - rewrite run_ret. cbn [fst snd]. intros [= <- <-] _.
    exists (ops2 ++ ops1). split.
    + rewrite Hlog2, Hlog1, app_assoc. reflexivity.
    + left. apply Forall_app; split; assumption.
Qed.

(** With a logger that can be used: [connection] returns, and its
    requests are settled. *)
Lemma connection_settles agent env s :
  exists agent1 c err ops,
    connection agent env s = (Ok (agent1, (c, err)), snd (connection agent env s)) /\
    log (snd (connection agent env s)) = ops ++ log s /\
    settled err ops.
Proof.
  unfold connection. rewrite run_bind.
  assert (Hre : forall s0 pre,
    log s0 = pre ++ log s -> Forall preSession pre ->
    let m := ('(c, err) ← sftpConnect (cfg agent);
         match err with
         | Some err => mret (agent, (None, Some (errors_New ("upload: " +:+ Error err))))
         | None =>
             let agent := {| conn := c; client := client agent; cfg := cfg agent |} in
             match SFTP (cfg agent) with
             | None => panic "nil pointer dereference"
             | Some sftp =>
                 e ← perform (OpNewClientPipe (MaxConnections sftp) (PacketSize sftp));
                 match e with
                 | Some err =>
                     closeInBackground;;
                     mret (agent, (None,
                           Some (errors_New ("upload: sftp connect: " +:+ Error err))))
                 | None =>
                     let agent := {| conn := conn agent; client := Some SFTPClient;
                                     cfg := cfg agent |} in
                     mret (agent, (client agent, None))
                 end
             end
         end) in
    exists agent1 c err ops,
      m env s0 = (Ok (agent1, (c, err)), snd (m env s0)) /\
      log (snd (m env s0)) = ops ++ log s /\
      settled err ops).
  { intros s0 pre Hlog0 Hpre m. subst m. rewrite run_bind.
    destruct (sftpConnect_settled (cfg agent) env s0)
      as (c & err & ops & Hrun & Hlog & _ & Hcfg & Hset & _).
    rewrite Hrun. set (s1 := snd (sftpConnect (cfg agent) env s0)) in *. clearbody s1.
    destruct err as [e|].
    - rewrite run_ret. cbn [snd]. eexists _, _, _, (ops ++ pre).
      split; [reflexivity|]. split; [rewrite Hlog, Hlog0, app_assoc; reflexivity|].
      cbn [settled] in *. destruct Hset as [Hall|(ops' & ->)].
      + left. apply Forall_app. split; assumption.
      + right. eauto.
    - cbn [cfg]. destruct (SFTP (cfg agent)) as [sftp|]; [|exfalso; apply Hcfg; reflexivity].
      rewrite run_bind, run_perform.
      destruct (faults env (log s1) _); cbn [fmap option_fmap option_map].
      + unfold closeInBackground, conn_Close.
        rewrite !run_bind, run_perform, !run_ret. cbn [snd].
        eexists _, _, (Some _), (OpSSHClose :: OpNewClientPipe _ _ :: ops ++ pre).
        split; [reflexivity|]. split; [|right; eauto].
        normal. rewrite Hlog, Hlog0, app_assoc. reflexivity.
      + rewrite run_ret. cbn [snd].
        eexists _, _, None, (OpNewClientPipe _ _ :: ops ++ pre).
        split; [reflexivity|]. split.
        * normal. rewrite Hlog, Hlog0, app_assoc. reflexivity.
        * cbn [settled] in *. constructor; [discriminate|].
          apply Forall_app. split; [exact Hset | apply preSession_notSSHClose, Hpre]. }
  destruct (client agent) as [cl|].
  - unfold client_Getwd, client_Close. rewrite run_bind, run_perform.
    destruct (faults env (log s) OpGetwd); cbn [fmap option_fmap option_map].
    + rewrite run_bind, run_perform, run_ret.
      apply (Hre _ [OpClientClose; OpGetwd]); [reflexivity|].
      repeat constructor; discriminate.
    + rewrite !run_ret. cbn [snd].
      eexists _, _, None, [OpGetwd]. split; [reflexivity|]. split; [reflexivity|].
      repeat constructor; discriminate.
  - rewrite run_ret. apply (Hre s []); [reflexivity | constructor].
Qed.

(** A broken client is replaced: the old client is closed, a new
    connection is dialled, and the old SSH connection is not closed. *)
Example connection_replaced :
  let run := connection UploadExamples.connectedAgent (UploadExamples.envWith probeFails)
               UploadExamples.demoConnected in
  fst run = Ok (UploadExamples.connectedAgent, (Some SFTPClient, None)) /\
  log (snd run) =
    [ OpNewClientPipe 8 20480; OpStdoutPipe; OpStdinPipe; OpRequestSubsystem "sftp";
      OpNewSession; OpSleep 250;
      OpDial "sftp.bank.com:22"
        {| User := "moov"; Auth := [ssh_Password "password"];
           HostKey := ssh_InsecureIgnoreHostKey; DialTimeout := 10000 |};
      OpClientClose; OpGetwd ] ++ log UploadExamples.demoConnected.
Proof. split; vm_compute; reflexivity. Qed.

(** X3.  The SSH connection of a connection attempt is not left
    behind, but the one it replaces is.  Whenever [connection] returns,
    with whatever logger: if it returns an error, either it never
    came to ask for a session, or the last thing it did was to set off
    the close of the SSH connection it had made (go client.Close()); if
    it returns a client, it has set off no close of an SSH connection at
    all, also not of the old one of the agent, when the probe of the
    old client failed and a new connection took its place. *)
Theorem connection_settled logger agent env s agent1 c err s1 :
  Logged.connection logger agent env s = (Ok (agent1, (c, err)), s1) ->
  exists ops, log s1 = ops ++ log s /\ settled err ops.
Proof.
  intros Hrun.
  pose proof (connection_any_logger logger agent env s) as Hlog.
  destruct (Logged.isNil logger && Logged.reconnects agent env s
            && Logged.warns (cfg agent) s).
  - destruct Hlog as (s' & Hpanic). rewrite Hpanic in Hrun. discriminate.
  - rewrite Hlog in Hrun.
    destruct (connection_settles agent env s) as (agent' & c' & err' & ops & Hsame & Hops & Hset).
    rewrite Hrun in Hsame, Hops. cbn [snd] in Hsame, Hops.
    injection Hsame as <- <- <-. eauto.
Qed.

Lemma connection_settled_witness :
  exists ops,
    log (snd (Logged.connection None UploadExamples.connectedAgent
                (UploadExamples.envWith probeFails) UploadExamples.demoConnected))
    = ops ++ log UploadExamples.demoConnected /\
    settled None ops.
Proof.
  refine (connection_settled None UploadExamples.connectedAgent
            (UploadExamples.envWith probeFails) UploadExamples.demoConnected
            UploadExamples.connectedAgent (Some SFTPClient) None _ _).
  vm_compute. reflexivity.
Defined.

(** *** The path an upload writes to *)

Lemma append_assoc (a b c : string) : (a +:+ b) +:+ c = a +:+ (b +:+ c).
Proof.
  induction a as [|x a IH]; [reflexivity|].
  change (String x ((a +:+ b) +:+ c) = String x (a +:+ (b +:+ c))).
  f_equal. exact IH.
Qed.

Lemma elements_nonempty path : elements path <> [].
Proof.
  destruct path as [|c path]; cbn; [discriminate|].
  destruct (Ascii.eqb c "/"); [discriminate|].
  destruct (elements path); discriminate.
Qed.

Lemma elements_app a b : elements (a +:+ "/" +:+ b) = elements a ++ elements b.
Proof.
  induction a as [|c a IH]; [reflexivity|].
  change (String c a +:+ "/" +:+ b) with (String c (a +:+ "/" +:+ b)).
  cbn [elements]. rewrite IH.
  destruct (Ascii.eqb c "/"); [reflexivity|].
  pose proof (elements_nonempty a) as Hne.
  destruct (elements a) as [|e es]; [contradiction | reflexivity].
Qed.

Lemma elements_slashFree b : slashFree b = true -> elements b = [b].
Proof.
  induction b as [|c b IH]; [reflexivity|].
  cbn [slashFree elements]. intros H. apply andb_true_iff in H. destruct H as [Hc Hb].
  apply negb_true_iff in Hc. rewrite Hc, (IH Hb). reflexivity.
Qed.

Lemma slashFree_elements path : Forall (fun e => slashFree e = true) (elements path).
Proof.
  induction path as [|c path IH]; cbn [elements].
  - constructor; [reflexivity | constructor].
  - destruct (Ascii.eqb c "/") eqn:Hc; [constructor; [reflexivity | exact IH]|].
    destruct (elements path) as [|e es].
    + constructor; [cbn; rewrite Hc; reflexivity | constructor].
    + inversion IH as [|? ? He Hes]; subst.
      constructor; [cbn; rewrite Hc, He; reflexivity | exact Hes].
Qed.

(** A proper base name is one path element. *)
Lemma filepath_Base_element name :
  properName (filepath_Base name) = true ->
  slashFree (filepath_Base name) = true /\ filepath_Base name <> "".
Proof.
  unfold filepath_Base, properName.
  destruct (String.eqb name ""); [discriminate|].
  pose proof (slashFree_elements name) as Hall.
  apply Forall_rev in Hall.
  assert (Hfilter : Forall (fun e => slashFree e = true /\ e <> "")
                      (List.filter (fun e => negb (String.eqb e "")) (rev (elements name)))).
  { induction Hall as [|e es He _ IH]; cbn [List.filter]; [constructor|].
    destruct (String.eqb e "") eqn:Hempty; cbn [negb]; [exact IH|].
    constructor; [|exact IH]. split; [exact He|]. apply String.eqb_neq. exact Hempty. }
  destruct (List.filter _ _) as [|e es]; [discriminate|].
  intros _. inversion Hfilter; subst. assumption.
Qed.

Lemma cleanElements_last rooted b :
  b <> "" -> b <> "." -> b <> ".." ->
  forall es out,
    cleanElements rooted (es ++ [b]) out = cleanElements rooted es out ++ [b].
Proof.
  intros H0 H1 H2. apply String.eqb_neq in H0, H1, H2.
  induction es as [|e es IH]; intros out.
  - cbn [app cleanElements]. rewrite H0, H1, H2. cbn [orb rev]. reflexivity.
  - cbn [app cleanElements].
    destruct (String.eqb e "" || String.eqb e "."); [apply IH|].
    destruct (String.eqb e ".."); [|apply IH].
    destruct out as [|o out]; [destruct rooted; apply IH|].
    destruct (String.eqb o ".."); apply IH.
Qed.

Lemma joinSlash_last l b :
  joinSlash (l ++ [b]) =
  match l with
  | [] => b
  | _ :: _ => joinSlash l +:+ "/" +:+ b
  end.
Proof.
  induction l as [|e l IH]; [reflexivity|].
  cbn [app]. destruct l as [|e' l].
  - reflexivity.
  - change (joinSlash (e :: (e' :: l) ++ [b]))
      with (e +:+ "/" +:+ joinSlash ((e' :: l) ++ [b])).
    rewrite IH.
    change (joinSlash (e :: e' :: l)) with (e +:+ "/" +:+ joinSlash (e' :: l)).
    rewrite !append_assoc. reflexivity.
Qed.

(** The elements a cleaned path keeps, as long as those kept before are
    of that kind: neither empty nor "." and without a slash. *)
Lemma cleanElements_kept rooted es :
  Forall (fun e => slashFree e = true) es ->
  forall out,
    Forall (fun e => slashFree e = true /\ e <> "" /\ e <> ".") out ->
    Forall (fun e => slashFree e = true /\ e <> "" /\ e <> ".")
      (cleanElements rooted es out).
Proof.
  induction 1 as [|e es He _ IH]; intros out Hout; cbn [cleanElements].
  - apply Forall_rev. exact Hout.
  - destruct (String.eqb e "") eqn:H0; cbn [orb]; [apply IH, Hout|].
    destruct (String.eqb e ".") eqn:H1; [apply IH, Hout|].
    apply String.eqb_neq in H0, H1.
    assert (Hkeep : Forall (fun e => slashFree e = true /\ e <> "" /\ e <> ".") (e :: out))
      by (constructor; auto).
    destruct (String.eqb e "..").
    + destruct out as [|o out].
      * destruct rooted; apply IH; [constructor | exact Hkeep].
      * destruct (String.eqb o ".."); apply IH; [exact Hkeep|].
        inversion Hout; assumption.
    + apply IH, Hkeep.
Qed.

Lemma joinSlash_head e l :
  joinSlash (e :: l) = match l with [] => e | _ :: _ => e +:+ "/" +:+ joinSlash l end.
Proof. destruct l; reflexivity. Qed.

(** A cleaned relative path that is not empty is neither "." nor "/",
    and so is a cleaned rooted path with an element. *)
Lemma joinSlash_proper l :
  l <> [] ->
  Forall (fun e => slashFree e = true /\ e <> "" /\ e <> ".") l ->
  joinSlash l <> "" /\ joinSlash l <> "." /\ joinSlash l <> "/".
Proof.
  intros Hne Hall. destruct l as [|e l]; [contradiction|].
  inversion Hall as [|? ? (Hfree & H0 & H1) _]; subst.
  rewrite joinSlash_head. destruct e as [|c e]; [contradiction|].
  cbn [slashFree] in Hfree. apply andb_true_iff in Hfree. destruct Hfree as [Hc _].
  apply negb_true_iff in Hc.
  destruct l as [|e' l].
  - repeat split; [discriminate | exact H1 |].
    intros [= -> _]. discriminate.
  - cbn [append]. repeat split; [discriminate | |].
    + destruct e; cbn; discriminate.
    + intros [= -> _]. discriminate.
Qed.

Lemma isRooted_append a b : a <> "" -> isRooted (a +:+ b) = isRooted a.
Proof. destruct a; [contradiction | reflexivity]. Qed.

Lemma append_nonempty a b : b <> "" -> a +:+ b <> "".
Proof. destruct a; cbn; [auto | discriminate]. Qed.

Lemma isRooted_slashFree b : slashFree b = true -> isRooted b = false.
Proof.
  destruct b as [|c b]; [reflexivity|]. cbn [slashFree isRooted].
  intros H. apply andb_true_iff in H. destruct H as [Hc _].
  apply negb_true_iff in Hc. exact Hc.
Qed.

Lemma filepath_Join_inside out b :
  slashFree b = true -> b <> "" -> b <> "." -> b <> ".." ->
  filepath_Join out b = inside (filepath_Clean out) b.
Proof.
  intros Hfree Hb Hdot Hdots.
  unfold filepath_Join, inside.
  rewrite (proj2 (String.eqb_neq _ _) Hb).
  destruct (String.eqb out "") eqn:Hempty.
  { apply String.eqb_eq in Hempty. subst out.
    change (filepath_Clean "") with ".". cbn [String.eqb Ascii.eqb Bool.eqb].
    unfold filepath_Clean. rewrite (proj2 (String.eqb_neq _ _) Hb).
    rewrite (isRooted_slashFree b Hfree), (elements_slashFree b Hfree).
    pose proof (cleanElements_last false b Hb Hdot Hdots [] []) as Hlast.
    change ([] ++ [b]) with [b] in Hlast.
    change (cleanElements false [] [] ++ [b]) with [b] in Hlast.
    rewrite Hlast. cbn [joinSlash].
    rewrite (proj2 (String.eqb_neq _ _) Hb). reflexivity. }
  apply String.eqb_neq in Hempty. rename Hempty into Hout.
  unfold filepath_Clean.
  rewrite (proj2 (String.eqb_neq _ _) Hout).
  assert (Hpath : out +:+ "/" +:+ b <> "") by (apply append_nonempty; discriminate).
  rewrite (proj2 (String.eqb_neq _ _) Hpath).
  rewrite isRooted_append by exact Hout.
  rewrite elements_app, (elements_slashFree b Hfree).
  rewrite cleanElements_last by assumption.
  pose proof (cleanElements_kept (isRooted out) (elements out)
                (slashFree_elements out) [] ltac:(constructor)) as Hkept.
  set (l := cleanElements (isRooted out) (elements out) []) in *.
  cbv zeta. rewrite joinSlash_last.
  destruct l as [|e l].
  - cbn [joinSlash]. destruct (isRooted out); cbn.
    + reflexivity.
    + rewrite (proj2 (String.eqb_neq _ _) Hb). reflexivity.
  - destruct (joinSlash_proper (e :: l) ltac:(discriminate) Hkept) as (H0 & H1 & H2).
    set (d := joinSlash (e :: l)) in *.
    destruct (isRooted out).
    + assert (Hd1 : "/" +:+ d <> ".") by (cbn; discriminate).
      assert (Hd2 : "/" +:+ d <> "/").
      { cbn. intros [= Hd]. contradiction. }
      rewrite (proj2 (String.eqb_neq _ _) Hd1), (proj2 (String.eqb_neq _ _) Hd2).
      rewrite !append_assoc. reflexivity.
    + assert (Hne : d +:+ "/" +:+ b <> "") by (apply append_nonempty; discriminate).
      rewrite (proj2 (String.eqb_neq _ _) Hne), (proj2 (String.eqb_neq _ _) H0).
      rewrite (proj2 (String.eqb_neq _ _) H1), (proj2 (String.eqb_neq _ _) H2).
      reflexivity.
Qed.

(** X18.  The guard against writes like ../../../../etc/passwd.  For
    every file whose name has a proper base name (not ".", ".." or "/"),
    whatever directories the name leads through, the paths [UploadFile]
    may change are the outbound directory and the file that carries the
    base name directly inside the outbound directory, cleaned: the base
    name is one path element, without a slash. *)
Theorem upload_path_inside_outbound config f :
  let out := Outbound (Paths config) in
  let b := filepath_Base (Filename f) in
  properName b = true ->
  slashFree b = true /\
  forall p, In p (uploadTargets config f) -> p = out \/ p = inside (filepath_Clean out) b.
Proof.
  intros out b Hproper.
  destruct (filepath_Base_element (Filename f) Hproper) as [Hfree Hb].
  fold b in Hfree, Hb. split; [exact Hfree|].
  unfold properName in Hproper.
  apply andb_true_iff in Hproper. destruct Hproper as [Hproper _].
  apply andb_true_iff in Hproper. destruct Hproper as [Hdot Hdots].
  apply negb_true_iff, String.eqb_neq in Hdot, Hdots.
  pose proof (filepath_Join_inside out b Hfree Hb Hdot Hdots) as Hjoin.
  intros p. unfold uploadTargets. fold out. fold b. rewrite Hjoin.
  destruct (createsOutbound config); cbn [In]; intuition (subst; auto).
Qed.

Lemma upload_path_inside_outbound_witness :
  slashFree (filepath_Base "../../20200529-131400.ach") = true /\
  forall p,
    In p (uploadTargets UploadExamples.demoCfg UploadExamples.outgoing) ->
    p = "outbound" \/ p = "outbound/20200529-131400.ach".
Proof.
  exact (upload_path_inside_outbound UploadExamples.demoCfg UploadExamples.outgoing
           eq_refl).
Defined.

(** The names the guard does not cover: a file called ".." is written
    to the parent of the outbound directory, one called "." or "/" to
    the outbound directory itself. *)
Example upload_path_improper :
  filepath_Join "ach/outbound" (filepath_Base "x/..") = "ach" /\
  filepath_Join "ach/outbound" (filepath_Base "") = "ach/outbound" /\
  filepath_Join "ach/outbound" (filepath_Base "/") = "ach/outbound".
Proof. repeat split; reflexivity. Qed.

End UploadExtra.

(** ** The mailer *)

Module MailerProofs.
Import Go Mailer.
Local Open Scope list_scope.

Lemma retryLoop_deliveries dialer m n fuel :
  forall tries outErr tr,
    exists evs,
      snd (Notify.retryLoop fuel dialer m n tries outErr tr) = evs ++ tr /\
      Forall (deliveryOf m) evs.
Proof.
  induction fuel as [|fuel IH]; intros tries outErr tr; cbn [Notify.retryLoop].
  - destruct (tries <=? n); exists []; split; (reflexivity || constructor).
  - destruct (tries <=? n); [|exists []; split; (reflexivity || constructor)].
    destruct (dialer tr m) as [e|].
    + destruct (Contains (Error e) "i/o timeout").
      * destruct (IH (wrap64 (tries + 1)) (Some e)
                    (Notify.Sleep 250 :: Notify.Attempt m :: tr)) as (evs & Htr & Hevs).
        exists (evs ++ [Notify.Sleep 250; Notify.Attempt m]). split.
        -- rewrite Htr, <- app_assoc. reflexivity.
        -- apply Forall_app. split; [exact Hevs|].
           constructor; [right; reflexivity|].
           constructor; [left; reflexivity | constructor].
      * exists [Notify.Attempt m]. split; [reflexivity|].
        constructor; [left; reflexivity | constructor].
    + exists [Notify.Attempt m]. split; [reflexivity|].
      constructor; [left; reflexivity | constructor].
Qed.

(** X16.  What a notification sends.  [Critical] does exactly what [Info]
    does.  A message that brings its contents is sent with these as the
    body, and the template is not consulted; otherwise the body is what
    the template makes of the message.  When the template fails, its
    error is returned and nothing is delivered.  Otherwise every event
    of the call is a delivery of one and the same mail, or the pause
    after a time-out: a plain text from the configured sender to the
    configured recipients, whose subject names the file as uploaded by
    the company, whatever the direction of the message. *)
Theorem notification_mail Tmpl convertDollar fuel mailer msg tr :
  Critical Tmpl convertDollar fuel mailer msg tr
    = Info Tmpl convertDollar fuel mailer msg tr /\
  match marshalEmail Tmpl convertDollar (cfg mailer) msg with
  | (_, Some err) => Info Tmpl convertDollar fuel mailer msg tr = (Some (Some err), tr)
  | (contents, None) =>
      contents =
        (if String.eqb (Contents msg) ""
         then fst (Tmpl (cfg mailer) (templateData convertDollar (cfg mailer) msg))
         else Contents msg) /\
      exists evs,
        snd (Info Tmpl convertDollar fuel mailer msg tr) = evs ++ tr /\
        Forall (deliveryOf (mailOf (cfg mailer) msg contents)) evs
  end.
Proof.
  split; [reflexivity|].
  unfold Info.
  destruct (marshalEmail Tmpl convertDollar (cfg mailer) msg) as [contents [err|]] eqn:Hm;
    [reflexivity|].
  split.
  - revert Hm. unfold marshalEmail.
    destruct (String.eqb (Contents msg) ""); cbn [negb].
    + destruct (Tmpl _ _) as [buf [e|]]; [discriminate|]. intros [= <-]. reflexivity.
    + intros [= <-]. reflexivity.
  - unfold Notify.sendEmail. apply retryLoop_deliveries.
Qed.

Lemma countBatches_total batches :
  forall total,
    0 <= total ->
    total + Z.of_nat (length (concat (List.map GetEntries batches))) <= MaxInt64 ->
    countBatches batches total =
    total + Z.of_nat (length (concat (List.map GetEntries batches))).
Proof.
  induction batches as [|batch batches IH]; intros total Hpos Hmax; cbn [countBatches].
  - cbn. lia.
  - cbn [List.map concat] in *. rewrite length_app in *.
    rewrite NotifyProofs.wrap64_id by (unfold MinInt64, MaxInt64 in *; lia).
    rewrite IH by lia. lia.
Qed.

(** X17.  [countEntries] counts the entries of all batches of the file, as
    long as there are no more of them than an [int] holds; of no file
    it counts none. *)
Theorem countEntries_total file :
  Z.of_nat (totalEntries file) <= MaxInt64 ->
  countEntries (Some file) = Z.of_nat (totalEntries file) /\ countEntries None = 0.
Proof.
  intros Hmax. split; [|reflexivity].
  unfold countEntries, totalEntries in *.
  rewrite countBatches_total; lia.
Qed.

Lemma countEntries_total_witness : countEntries (Some demoFile) = 3.
Proof.
  refine (proj1 (countEntries_total demoFile _)).
  vm_compute. discriminate.
Defined.

End MailerProofs.
